(** * jira-playwright-a11y: crawler, violation grouper and issue reconciliation

    A shallow embedding of [src/violationGrouper.ts], of the issue manager
    ([GitHubIssueManager]) and of the crawler ([crawlWebsite]) shipped in
    [src/githubIssues.ts], together with the properties the specification
    states about them.  Further properties cover the code around them: the
    page-by-page listing of the issues, the action that chains crawl, tests,
    grouping and reconciliation ([runAction] of [src/action.ts]), the
    identification of rules ([src/llmClient.ts]), the URLs taken from an
    issue description ([parseJiraMarkdown], [parseIssueForTests]) and the
    selector paths of [src/a11yTester.ts] ([getCSSPath]).

    Strings are sequences of 8-bit code units ([list ascii]).  The embedding
    is exact on ASCII text: code units of 128 and above are carried through
    unchanged and belong to no character class (they are neither white space,
    letters nor digits).  The one non-ASCII literal of the sources (an emoji
    of the issue body) is carried as its UTF-8 bytes. *)

From Stdlib Require Import Ascii String.
From Stdlib Require Import List Arith Bool Lia ZArith Permutation Sorted.
Import ListNotations.

(* ================================================================== *)
(** * Strings *)

Definition str := list ascii.

(** A string literal of the source. *)
Definition L (s : string) : str := list_ascii_of_string s.

Module Str.

Definition code (c : ascii) : nat := nat_of_ascii c.

Definition in_range (lo hi : nat) (c : ascii) : bool :=
  (lo <=? code c) && (code c <=? hi).

(** [\s]: tab, line feed, vertical tab, form feed, carriage return, space. *)
Definition is_space (c : ascii) : bool := in_range 9 13 c || (code c =? 32).
(** [\d] *)
Definition is_digit (c : ascii) : bool := in_range 48 57 c.
(** [[a-z]] *)
Definition is_lower (c : ascii) : bool := in_range 97 122 c.
(** [[A-Z]] *)
Definition is_upper (c : ascii) : bool := in_range 65 90 c.
(** [\w] = [[A-Za-z0-9_]] *)
Definition is_word (c : ascii) : bool :=
  is_lower c || is_upper c || is_digit c || (code c =? 95).
(** [[a-f0-9]] *)
Definition is_hex (c : ascii) : bool := in_range 97 102 c || is_digit c.
(** [[a-z-]] *)
Definition is_lower_dash (c : ascii) : bool := is_lower c || (code c =? 45).

Definition is_char (a c : ascii) : bool := Ascii.eqb a c.

Fixpoint eqb (a b : str) : bool :=
  match a, b with
  | [], [] => true
  | x :: a', y :: b' => Ascii.eqb x y && eqb a' b'
  | _, _ => false
  end.

(** [String.prototype.startsWith] *)
Fixpoint starts_with (p s : str) : bool :=
  match p, s with
  | [], _ => true
  | x :: p', y :: s' => Ascii.eqb x y && starts_with p' s'
  | _ :: _, [] => false
  end.

(** [String.prototype.includes] *)
Fixpoint includes (s p : str) : bool :=
  starts_with p s ||
  match s with
  | [] => false
  | _ :: t => includes t p
  end.

(** Length of the longest prefix whose characters all satisfy [f]
    (a greedy [[f]*]). *)
Fixpoint span (f : ascii -> bool) (s : str) : nat :=
  match s with
  | c :: t => if f c then S (span f t) else 0
  | [] => 0
  end.

(** Position of the first character satisfying [f], if any. *)
Fixpoint index_where (f : ascii -> bool) (s : str) : option nat :=
  match s with
  | [] => None
  | c :: t => if f c then Some 0 else option_map S (index_where f t)
  end.

(** [String.prototype.toLowerCase] *)
Definition lower_char (c : ascii) : ascii :=
  if is_upper c then ascii_of_nat (code c + 32) else c.
Definition toLowerCase (s : str) : str := map lower_char s.

(** [String.prototype.toUpperCase] *)
Definition upper_char (c : ascii) : ascii :=
  if is_lower c then ascii_of_nat (code c - 32) else c.
Definition toUpperCase (s : str) : str := map upper_char s.

(** [String.prototype.trim] *)
Definition trimStart (s : str) : str := skipn (span is_space s) s.
Definition trimEnd (s : str) : str := rev (trimStart (rev s)).
Definition trim (s : str) : str := trimStart (trimEnd s).

(** [s.substring(0, n)] *)
Definition substring0 (n : nat) (s : str) : str := firstn n s.

(** [Array.prototype.join] *)
Fixpoint join (sep : str) (l : list str) : str :=
  match l with
  | [] => []
  | [x] => x
  | x :: rest => x ++ sep ++ join sep rest
  end.

(** [String.prototype.split] with a non-empty separator.  [skip] counts the
    characters of a separator occurrence still to be passed over, [cur] holds
    the current piece in reverse. *)
Fixpoint split_from (sep : str) (skip : nat) (cur : str) (s : str) : list str :=
  match s with
  | [] => [rev cur]
  | c :: t =>
      match skip with
      | S k => split_from sep k cur t
      | O =>
          if starts_with sep s
          then rev cur :: split_from sep (length sep - 1) [] t
          else split_from sep 0 (c :: cur) t
      end
  end.
Definition split (sep : str) (s : str) : list str := split_from sep 0 [] s.

(** [arr.slice(-n)] *)
Definition slice_last {A} (n : nat) (l : list A) : list A :=
  skipn (length l - n) l.

(** ** Global regular-expression replacement

    A matcher [m] gives, for a regular expression, the length of its match
    anchored at the start of the string (every expression of the sources
    matches at least one character).  [gsub m r] is
    [s.replace(/re/g, r)]: scan left to right, replace each match by [r]
    applied to the matched text and resume after it. *)
Section Regex.
Variable m : str -> option nat.
Variable r : str -> str.

Fixpoint gsub_from (skip : nat) (s : str) : str :=
  match s with
  | [] => []
  | c :: t =>
      match skip with
      | S k => gsub_from k t
      | O =>
          match m s with
          | Some (S k) => r (firstn (S k) s) ++ gsub_from k t
          | _ => c :: gsub_from 0 t
          end
      end
  end.
Definition gsub (s : str) : str := gsub_from 0 s.

(** [s.match(/re/g) || []]: the matched texts, left to right. *)
Fixpoint gmatch_from (skip : nat) (s : str) : list str :=
  match s with
  | [] => []
  | c :: t =>
      match skip with
      | S k => gmatch_from k t
      | O =>
          match m s with
          | Some (S k) => firstn (S k) s :: gmatch_from k t
          | _ => gmatch_from 0 t
          end
      end
  end.
Definition gmatch (s : str) : list str := gmatch_from 0 s.

(** [re.test(s)]: is there a match anywhere? *)
Fixpoint test (s : str) : bool :=
  match m s with
  | Some _ => true
  | None => match s with [] => false | _ :: t => test t end
  end.
End Regex.

(** ** Matchers

    The regular expressions of the sources are sequences of literals,
    character classes and greedy runs; each is written as a matcher in
    continuation style, the continuation [k] matching what follows. *)

Definition dquote : ascii := ascii_of_nat 34.
Definition backtick : ascii := ascii_of_nat 96.

Definition done (_ : str) : option nat := Some 0.

(** A double-quoted run without a double quote inside: an opening quote,
    then everything up to and including the next quote. *)
Definition quoted (s : str) : option nat :=
  match s with
  | c :: t =>
      if is_char dquote c
      then option_map (fun j => j + 2) (index_where (is_char dquote) t)
      else None
  | [] => None
  end.

(** A leading character of class [f], then the matcher [k]. *)
Definition after_class (f : ascii -> bool) (k : str -> option nat) (s : str)
  : option nat :=
  match s with
  | c :: t => if f c then option_map S (k t) else None
  | [] => None
  end.

(** A run of one or more characters of class [f], then the matcher [k]
    ([[f]+] followed by something that cannot start with an [f]). *)
Definition plus_then (f : ascii -> bool) (k : str -> option nat) (s : str)
  : option nat :=
  match span f s with
  | 0 => None
  | n => option_map (fun j => n + j) (k (skipn n s))
  end.

(** A literal, then the matcher [k]. *)
Definition lit_then (lit : str) (k : str -> option nat) (s : str) : option nat :=
  if starts_with lit s
  then option_map (fun j => length lit + j) (k (skipn (length lit) s))
  else None.

(** Ordered alternation. *)
Fixpoint first_of (alts : list (str -> option nat)) (s : str) : option nat :=
  match alts with
  | [] => None
  | a :: rest => match a s with Some n => Some n | None => first_of rest s end
  end.

(** Comparison of strings by code units, as [Array.prototype.sort] does
    without a comparator. *)
Fixpoint leb (a b : str) : bool :=
  match a, b with
  | [], _ => true
  | _ :: _, [] => false
  | x :: a', y :: b' =>
      if code x <? code y then true
      else if code y <? code x then false
      else leb a' b'
  end.

Section Sort.
Context {A : Type}.
(** [le a b]: the comparator does not put [b] before [a]
    ([compare(a, b) <= 0]). *)
Variable le : A -> A -> bool.

Fixpoint insert (x : A) (l : list A) : list A :=
  match l with
  | [] => [x]
  | y :: t => if le x y then x :: l else y :: insert x t
  end.

(** A stable sort: [Array.prototype.sort] is stable, and equal elements
    keep their order. *)
Definition sort (l : list A) : list A := fold_right insert [] l.
End Sort.

(** Decimal rendering of a number inside a template literal. *)
Fixpoint digits_fuel (fuel n : nat) (acc : str) : str :=
  match fuel with
  | O => acc
  | S f =>
      let d := ascii_of_nat (48 + n mod 10) in
      if n <? 10 then d :: acc else digits_fuel f (n / 10) (d :: acc)
  end.
Definition of_nat (n : nat) : str := digits_fuel (S n) n [].

End Str.

(* ================================================================== *)
(** * The content hash

    [crypto.createHash('md5').update(s).digest('hex')] of the Node.js
    standard library: MD5 (RFC 1321) over the bytes of [s], rendered as 32
    lower-case hexadecimal digits.  Words are 32-bit integers carried in
    [Z], with the wrap-around written out. *)

Module MD5.
Local Open Scope Z_scope.

Definition wrap (x : Z) : Z := x mod 2 ^ 32.
Definition rotl (x : Z) (n : Z) : Z :=
  wrap (Z.lor (Z.shiftl x n) (Z.shiftr x (32 - n))).
Definition not32 (x : Z) : Z := Z.lxor x (2 ^ 32 - 1).

(** Per-round shift amounts. *)
Definition shifts : list Z :=
  [7; 12; 17; 22; 7; 12; 17; 22; 7; 12; 17; 22; 7; 12; 17; 22;
   5; 9; 14; 20; 5; 9; 14; 20; 5; 9; 14; 20; 5; 9; 14; 20;
   4; 11; 16; 23; 4; 11; 16; 23; 4; 11; 16; 23; 4; 11; 16; 23;
   6; 10; 15; 21; 6; 10; 15; 21; 6; 10; 15; 21; 6; 10; 15; 21].

(** [K i = floor (2^32 * |sin (i + 1)|)]. *)
Definition K : list Z :=
    [3614090360; 3905402710; 606105819; 3250441966;
     4118548399; 1200080426; 2821735955; 4249261313;
     1770035416; 2336552879; 4294925233; 2304563134;
     1804603682; 4254626195; 2792965006; 1236535329;
     4129170786; 3225465664; 643717713; 3921069994;
     3593408605; 38016083; 3634488961; 3889429448;
     568446438; 3275163606; 4107603335; 1163531501;
     2850285829; 4243563512; 1735328473; 2368359562;
     4294588738; 2272392833; 1839030562; 4259657740;
     2763975236; 1272893353; 4139469664; 3200236656;
     681279174; 3936430074; 3572445317; 76029189;
     3654602809; 3873151461; 530742520; 3299628645;
     4096336452; 1126891415; 2878612391; 4237533241;
     1700485571; 2399980690; 4293915773; 2240044497;
     1873313359; 4264355552; 2734768916; 1309151649;
     4149444226; 3174756917; 718787259; 3951481745].

Definition bytes_of (s : str) : list Z := map (fun c => Z.of_nat (nat_of_ascii c)) s.

(** Little-endian bytes of a [n]-byte integer. *)
Fixpoint le_bytes (n : nat) (x : Z) : list Z :=
  match n with
  | O => []
  | S k => (x mod 256) :: le_bytes k (x / 256)
  end.

(** Padding: a one bit, zeros up to 56 modulo 64, the bit length on 64 bits. *)
Definition pad (msg : list Z) : list Z :=
  let len := Z.of_nat (length msg) in
  let zeros := Z.to_nat ((55 - len) mod 64) in
  msg ++ [128] ++ repeat 0 zeros ++ le_bytes 8 ((8 * len) mod 2 ^ 64).

Fixpoint words (fuel : nat) (bs : list Z) : list Z :=
  match fuel, bs with
  | S f, b0 :: b1 :: b2 :: b3 :: rest =>
      (b0 + 256 * b1 + 65536 * b2 + 16777216 * b3) :: words f rest
  | _, _ => []
  end.

Definition round (M : list Z) (st : Z * Z * Z * Z) (i : nat) : Z * Z * Z * Z :=
  let '(A, B, C, D) := st in
  let iz := Z.of_nat i in
  let '(F, g) :=
    if iz <? 16 then (Z.lor (Z.land B C) (Z.land (not32 B) D), iz)
    else if iz <? 32 then (Z.lor (Z.land D B) (Z.land (not32 D) C), (5 * iz + 1) mod 16)
    else if iz <? 48 then (Z.lxor (Z.lxor B C) D, (3 * iz + 5) mod 16)
    else (Z.lxor C (Z.lor B (not32 D)), (7 * iz) mod 16) in
  let F' := wrap (F + A + nth i K 0 + nth (Z.to_nat g) M 0) in
  (D, wrap (B + rotl F' (nth i shifts 0)), B, C).

Definition block (h : Z * Z * Z * Z) (M : list Z) : Z * Z * Z * Z :=
  let '(a0, b0, c0, d0) := h in
  let '(A, B, C, D) := fold_left (round M) (seq 0 64) h in
  (wrap (a0 + A), wrap (b0 + B), wrap (c0 + C), wrap (d0 + D)).

Fixpoint blocks (fuel : nat) (h : Z * Z * Z * Z) (ws : list Z) : Z * Z * Z * Z :=
  match fuel, ws with
  | S f, _ :: _ => blocks f (block h (firstn 16 ws)) (skipn 16 ws)
  | _, _ => h
  end.

Definition init : Z * Z * Z * Z := (1732584193, 4023233417, 2562383102, 271733878).

Definition hex_digit (d : Z) : ascii :=
  ascii_of_nat (Z.to_nat (if d <? 10 then 48 + d else 87 + d)).
Definition hex_byte (b : Z) : str := [hex_digit (b / 16); hex_digit (b mod 16)].

Definition digest (s : str) : str :=
  let bs := pad (bytes_of s) in
  let ws := words (length bs) bs in
  let '(a, b, c, d) := blocks (length ws) init ws in
  flat_map hex_byte (le_bytes 4 a ++ le_bytes 4 b ++ le_bytes 4 c ++ le_bytes 4 d).

End MD5.

(* ================================================================== *)
(** * The signature engine ([src/violationGrouper.ts]) *)

Module Grouper.
Import Str.

(** [ViolationWithContext.impact] *)
Inductive Impact := minor | moderate | serious | critical.

(** [DOMContext]: only the selector path is read by the grouper. *)
Record DOMContext := { cssSelector : str }.

(** [ViolationWithContext] (the fields [target] and [failureSummary] are
    never read here). *)
Record ViolationWithContext := {
  ruleId : str;
  impact : option Impact;
  description : str;
  help : str;
  helpUrl : str;
  wcagTags : list str;
  html : str;
  context : DOMContext
}.

Record Occurrence := { o_url : str; o_selector : str; o_html : str }.

Record ViolationGroup := {
  g_signature : str;
  g_ruleId : str;
  g_impact : str;
  g_description : str;
  g_help : str;
  g_helpUrl : str;
  g_wcagTags : list str;
  g_exampleHtml : str;
  g_exampleSelector : str;
  g_occurrences : list Occurrence;
  g_totalOccurrences : nat
}.

Definition impact_name (i : Impact) : str :=
  match i with
  | minor => L "minor"
  | moderate => L "moderate"
  | serious => L "serious"
  | critical => L "critical"
  end.

(** [violation.impact || 'unknown'] *)
Definition impact_or_unknown (i : option Impact) : str :=
  match i with
  | Some x => impact_name x
  | None => L "unknown"
  end.

(** ** The regular expressions of [createViolationSignature] *)

Definition QQ : str := [dquote; dquote].

(** [/\s+/] *)
Definition re_spaces : str -> option nat := plus_then is_space done.
(** [/aria-controls=QUOTED/], QUOTED a double-quoted run *)
Definition re_aria_controls : str -> option nat :=
  lit_then (L "aria-controls=") quoted.
(** [/\sid=QUOTED/] *)
Definition re_id : str -> option nat :=
  after_class is_space (lit_then (L "id=") quoted).
(** [/\sdata-[a-z-]+=QUOTED/] *)
Definition re_data : str -> option nat :=
  after_class is_space
    (lit_then (L "data-") (plus_then is_lower_dash (lit_then (L "=") quoted))).
(** [/\sclass=QUOTED/], the inside of the quotes captured *)
Definition re_class : str -> option nat :=
  after_class is_space (lit_then (L "class=") quoted).
(** [/\d{3,}|[a-f0-9]{6,}/] *)
Definition at_least (n : nat) (f : ascii -> bool) (s : str) : option nat :=
  if n <=? span f s then Some (span f s) else None.
Definition re_generated : str -> option nat :=
  first_of [at_least 3 is_digit; at_least 6 is_hex].
(** [/(role|aria-[a-z]+|type|name|placeholder)=QUOTED/] *)
Definition re_semantic : str -> option nat :=
  let k := lit_then (L "=") quoted in
  first_of [ lit_then (L "role") k;
             lit_then (L "aria-") (plus_then is_lower k);
             lit_then (L "type") k;
             lit_then (L "name") k;
             lit_then (L "placeholder") k ].
(** [/:\d+/] *)
Definition re_colon_digits : str -> option nat :=
  lit_then (L ":") (plus_then is_digit done).
(** [/#[^\s>]+/] *)
Definition not_space_gt (c : ascii) : bool :=
  negb (is_space c) && negb (is_char ">" c).
Definition re_hash_id : str -> option nat :=
  lit_then (L "#") (plus_then not_space_gt done).

(** The replacement callback of the class pass: [classes] is the captured
    inside of the quotes. *)
Definition looks_generated (c : str) : bool := test re_generated c.

Definition clean_classes (classes : str) : str :=
  join (L " ") (filter (fun c => negb (looks_generated c)) (split (L " ") classes)).

Definition replace_class (matched : str) : str :=
  let classes := removelast (skipn 8 matched) in
  let cleanClasses := clean_classes classes in
  match cleanClasses with
  | [] => []
  | _ => L " class=" ++ [dquote] ++ cleanClasses ++ [dquote]
  end.

(** The two normalisation steps on the element's HTML. *)
Definition squeeze (s : str) : str := gsub re_spaces (fun _ => L " ") s.

Definition collapse (s : str) : str := toLowerCase (trim (squeeze s)).

Definition strip_dynamic (s : str) : str :=
  gsub re_class replace_class
    (gsub re_data (fun _ => [])
       (gsub re_id (fun _ => L " id=" ++ QQ)
          (gsub re_aria_controls (fun _ => L "aria-controls=" ++ QQ) s))).

Definition normalizeHtml (h : str) : str := strip_dynamic (collapse h).

(** [normalizedHtml.match] of the opening tag: at the start of the string
    an opening angle bracket, a captured run of one or more word characters
    (the tag name), a captured run of characters other than the closing
    angle bracket (the attribute text), and the closing angle bracket. *)
Definition elementMatch (s : str) : option (str * str) :=
  match s with
  | c :: t =>
      if is_char "<" c then
        match span is_word t with
        | 0 => None
        | n =>
            let rest := skipn n t in
            match index_where (is_char ">") rest with
            | Some j => Some (firstn n t, firstn j rest)
            | None => None
            end
        end
      else None
  | [] => None
  end.

Definition selectorPattern (cssSel : str) : str :=
  join (L " > ")
    (slice_last 3
       (split (L " > ")
          (gsub re_hash_id (fun _ => [])
             (gsub re_colon_digits (fun _ => []) cssSel)))).

(** ** [JSON.stringify] of the signature data *)

Definition hex4 (n : nat) : str :=
  L "00" ++ MD5.hex_byte (Z.of_nat n).

Definition json_char (c : ascii) : str :=
  let n := code c in
  if n =? 34 then L "\" ++ [dquote]
  else if n =? 92 then L "\\"
  else if n =? 8 then L "\b"
  else if n =? 12 then L "\f"
  else if n =? 10 then L "\n"
  else if n =? 13 then L "\r"
  else if n =? 9 then L "\t"
  else if n <? 32 then L "\u" ++ hex4 n
  else [c].

Definition json_string (s : str) : str :=
  [dquote] ++ flat_map json_char s ++ [dquote].

Definition json_field (k v : str) : str :=
  json_string k ++ L ":" ++ json_string v.

Record SignatureData := {
  sd_ruleId : str;
  sd_tagName : str;
  sd_semanticAttributes : str;
  sd_selectorPattern : str;
  sd_impact : str
}.

Definition stringify (d : SignatureData) : str :=
  L "{" ++ json_field (L "ruleId") (sd_ruleId d) ++ L ","
        ++ json_field (L "tagName") (sd_tagName d) ++ L ","
        ++ json_field (L "semanticAttributes") (sd_semanticAttributes d) ++ L ","
        ++ json_field (L "selectorPattern") (sd_selectorPattern d) ++ L ","
        ++ json_field (L "impact") (sd_impact d) ++ L "}".

(** ** [createViolationSignature] *)

Definition signatureData (violation : ViolationWithContext)
    (tagName attributes : str) : SignatureData :=
  let semanticAttrs := gmatch re_semantic attributes in
  {| sd_ruleId := ruleId violation;
     sd_tagName := tagName;
     sd_semanticAttributes := join (L " ") (sort leb semanticAttrs);
     sd_selectorPattern := selectorPattern (cssSelector (context violation));
     sd_impact := impact_or_unknown (impact violation) |}.

Definition createViolationSignature (violation : ViolationWithContext) : str :=
  let normalizedHtml := normalizeHtml (html violation) in
  match elementMatch normalizedHtml with
  | None =>
      MD5.digest (ruleId violation ++ L ":" ++ substring0 100 normalizedHtml)
  | Some (tagName, attributes) =>
      MD5.digest (stringify (signatureData violation tagName attributes))
  end.

(** ** [groupViolations]

    The [Map] from signature to group keeps its keys in insertion order; it
    is an association list.  [groups.get(signature)] hands out the stored
    object, which is then updated in place: the entry is rewritten where it
    stands. *)

Definition GroupMap := list (str * ViolationGroup).

Fixpoint map_has (k : str) (m : GroupMap) : bool :=
  match m with
  | [] => false
  | (k', _) :: rest => eqb k k' || map_has k rest
  end.

Fixpoint map_get (k : str) (m : GroupMap) : option ViolationGroup :=
  match m with
  | [] => None
  | (k', g) :: rest => if eqb k k' then Some g else map_get k rest
  end.

Fixpoint map_set (k : str) (g : ViolationGroup) (m : GroupMap) : GroupMap :=
  match m with
  | [] => [(k, g)]
  | (k', g') :: rest =>
      if eqb k k' then (k', g) :: rest else (k', g') :: map_set k g rest
  end.

Definition new_group (signature : str) (violation : ViolationWithContext)
  : ViolationGroup :=
  {| g_signature := signature;
     g_ruleId := ruleId violation;
     g_impact := impact_or_unknown (impact violation);
     g_description := description violation;
     g_help := help violation;
     g_helpUrl := helpUrl violation;
     g_wcagTags := wcagTags violation;
     g_exampleHtml := html violation;
     g_exampleSelector := cssSelector (context violation);
     g_occurrences := [];
     g_totalOccurrences := 0 |}.

(** [group.occurrences.push(o)] *)
Definition push_occurrence (o : Occurrence) (g : ViolationGroup) : ViolationGroup :=
  {| g_signature := g_signature g;
     g_ruleId := g_ruleId g;
     g_impact := g_impact g;
     g_description := g_description g;
     g_help := g_help g;
     g_helpUrl := g_helpUrl g;
     g_wcagTags := g_wcagTags g;
     g_exampleHtml := g_exampleHtml g;
     g_exampleSelector := g_exampleSelector g;
     g_occurrences := g_occurrences g ++ [o];
     g_totalOccurrences := g_totalOccurrences g |}.

(** [group.totalOccurrences++] *)
Definition bump_total (g : ViolationGroup) : ViolationGroup :=
  {| g_signature := g_signature g;
     g_ruleId := g_ruleId g;
     g_impact := g_impact g;
     g_description := g_description g;
     g_help := g_help g;
     g_helpUrl := g_helpUrl g;
     g_wcagTags := g_wcagTags g;
     g_exampleHtml := g_exampleHtml g;
     g_exampleSelector := g_exampleSelector g;
     g_occurrences := g_occurrences g;
     g_totalOccurrences := S (g_totalOccurrences g) |}.

Definition occurrence_of (url : str) (violation : ViolationWithContext) : Occurrence :=
  {| o_url := url;
     o_selector := cssSelector (context violation);
     o_html := html violation |}.

(** The body of the inner loop, for one violation of the page [url]. *)
Definition add_violation (url : str) (groups : GroupMap)
    (violation : ViolationWithContext) : GroupMap :=
  let signature := createViolationSignature violation in
  let groups1 :=
    if map_has signature groups then groups
    else map_set signature (new_group signature violation) groups in
  match map_get signature groups1 with
  | Some group =>
      map_set signature
        (bump_total (push_occurrence (occurrence_of url violation) group)) groups1
  | None => groups1
  end.

Definition add_page (groups : GroupMap)
    (entry : str * list ViolationWithContext) : GroupMap :=
  fold_left (add_violation (fst entry)) (snd entry) groups.

(** The comparator of the final sort.  [None] is [NaN], the difference of
    two ranks one of which is missing from [impactOrder]. *)
Definition impactOrder (i : str) : option Z :=
  if eqb i (L "critical") then Some 0%Z
  else if eqb i (L "serious") then Some 1%Z
  else if eqb i (L "moderate") then Some 2%Z
  else if eqb i (L "minor") then Some 3%Z
  else if eqb i (L "unknown") then Some 4%Z
  else None.

Definition compare_groups (a b : ViolationGroup) : option Z :=
  match impactOrder (g_impact a), impactOrder (g_impact b) with
  | Some x, Some y =>
      let impactDiff := (x - y)%Z in
      if negb (impactDiff =? 0)%Z then Some impactDiff
      else Some (Z.of_nat (g_totalOccurrences b) - Z.of_nat (g_totalOccurrences a))%Z
  | _, _ => None
  end.

(** [a] may stay before [b]: the comparator is not positive (a [NaN] result
    counts as zero). *)
Definition group_le (a b : ViolationGroup) : bool :=
  match compare_groups a b with
  | Some d => (d <=? 0)%Z
  | None => true
  end.

(** [violationsByPage] is given by its entries in iteration order. *)
Definition groupViolations
    (violationsByPage : list (str * list ViolationWithContext))
  : list ViolationGroup :=
  let groups := fold_left add_page violationsByPage [] in
  sort group_le (map snd groups).

(** ** [generateGroupSummary] and [generateLabels] *)

Definition nl : str := [ascii_of_nat 10].
Definition bt : str := [backtick].

Definition getImpactColor (impact : str) : str :=
  if eqb impact (L "critical") then L "red"
  else if eqb impact (L "serious") then L "orange"
  else if eqb impact (L "moderate") then L "yellow"
  else if eqb impact (L "minor") then L "blue"
  else if eqb impact (L "unknown") then L "gray"
  else L "gray".

(** The [uniquePages] map: pages in order of first occurrence, with the
    number of occurrences on each. *)
Fixpoint count_set (k : str) (m : list (str * nat)) : list (str * nat) :=
  match m with
  | [] => [(k, 1)]
  | (k', n) :: rest =>
      if eqb k k' then (k', n + 1) :: rest else (k', n) :: count_set k rest
  end.
Definition uniquePages (occs : list Occurrence) : list (str * nat) :=
  fold_left (fun m o => count_set (o_url o) m) occs [].

Definition books_emoji : str :=
  [ascii_of_nat 240; ascii_of_nat 159; ascii_of_nat 147; ascii_of_nat 154].

Definition page_line (e : str * nat) : str :=
  let '(url, count) := e in
  L "- [" ++ url ++ L "](" ++ url ++ L ") (" ++ of_nat count ++ L " instance"
    ++ (if 1 <? count then L "s" else []) ++ L ")" ++ nl.

Definition signature_token (signature : str) : str :=
  L "Signature: " ++ bt ++ signature ++ bt.

Definition generateGroupSummary (group : ViolationGroup) : str :=
  let impactBadge :=
    L "![" ++ g_impact group ++ L "](https://img.shields.io/badge/impact-"
      ++ g_impact group ++ L "-" ++ getImpactColor (g_impact group) ++ L ")" in
  let wcagBadges :=
    join (L " ")
      (map (fun tag => L "![" ++ tag ++ L "](https://img.shields.io/badge/WCAG-"
                         ++ tag ++ L "-blue)") (g_wcagTags group)) in
  L "# " ++ g_ruleId group ++ nl ++ nl
  ++ impactBadge ++ L " " ++ wcagBadges ++ nl ++ nl
  ++ L "## Description" ++ nl ++ nl ++ g_description group ++ nl ++ nl
  ++ L "## How to Fix" ++ nl ++ nl ++ g_help group ++ nl ++ nl
  ++ books_emoji ++ L " [Learn more](" ++ g_helpUrl group ++ L ")" ++ nl ++ nl
  ++ L "## Impact" ++ nl ++ nl
  ++ L "- **Severity**: " ++ toUpperCase (g_impact group) ++ nl
  ++ L "- **Total Occurrences**: " ++ of_nat (g_totalOccurrences group) ++ nl
  ++ L "- **Pages Affected**: " ++ of_nat (length (g_occurrences group)) ++ nl ++ nl
  ++ L "## Example Violation" ++ nl ++ nl
  ++ L "**Selector**: " ++ bt ++ g_exampleSelector group ++ bt ++ nl ++ nl
  ++ L "**HTML**:" ++ nl ++ bt ++ bt ++ bt ++ L "html" ++ nl
  ++ substring0 500 (g_exampleHtml group) ++ nl ++ bt ++ bt ++ bt ++ nl ++ nl
  ++ L "## Pages Where This Occurs" ++ nl ++ nl
  ++ flat_map page_line (uniquePages (g_occurrences group))
  ++ nl ++ L "## Remediation Steps" ++ nl ++ nl
  ++ L "1. Search your codebase for: " ++ bt ++ g_exampleSelector group ++ bt ++ nl
  ++ L "2. Look for HTML matching this pattern:" ++ nl
  ++ L "   " ++ bt ++ bt ++ bt ++ L "html" ++ nl ++ L "   "
  ++ substring0 100 (g_exampleHtml group) ++ L "..." ++ nl
  ++ L "   " ++ bt ++ bt ++ bt ++ nl
  ++ L "3. Apply the fix described in the " ++ [dquote] ++ L "How to Fix"
  ++ [dquote] ++ L " section" ++ nl
  ++ L "4. Test the changes on all affected pages" ++ nl ++ nl
  ++ L "---" ++ nl ++ nl
  ++ L "*This issue was automatically generated by the accessibility scanner*" ++ nl
  ++ L "*" ++ signature_token (g_signature group) ++ L "*" ++ nl.

Definition generateLabels (group : ViolationGroup) : list str :=
  [ L "accessibility";
    L "a11y:" ++ g_ruleId group;
    L "impact:" ++ g_impact group ]
  ++ filter (starts_with (L "wcag")) (g_wcagTags group).

End Grouper.

(* ================================================================== *)
(** * The reconciliation engine ([GitHubIssueManager])

    The issue tracker is the external collaborator behind [octokit]; it is
    modelled as a state holding the repository's issues in the order in
    which a listing returns them (newest first), and the comments posted.
    Calls to it are assumed to succeed.  The text of a comment carries a
    time stamp and is kept symbolic. *)

Module Issues.
Import Str Grouper.

Inductive IssueState := open | closed.

Record Issue := {
  number : nat;
  title : str;
  body : str;
  state : IssueState;
  labels : list str
}.

Inductive Comment :=
| UpdatedComment (totalOccurrences pagesAffected : nat)
| ResolvedComment.

Record Tracker := {
  issues : list Issue;
  comments : list (nat * Comment)
}.

Record GitHubConfig := { owner : str; repo : str }.

Inductive Action := created | updated | unchanged.

Record IssueResult := {
  r_signature : str;
  r_action : Action;
  r_issueNumber : nat;
  r_url : str
}.

(** *** The tracker's operations *)

Definition is_open (i : Issue) : bool :=
  match state i with open => true | closed => false end.

Definition has_label (l : str) (i : Issue) : bool := existsb (eqb l) (labels i).

(** [issues.listForRepo] with [labels: 'accessibility', state: 'open'];
    the pages of the listing are concatenated by the caller. *)
Definition listForRepo (t : Tracker) : list Issue :=
  filter (fun i => is_open i && has_label (L "accessibility") i) (issues t).

(** Issue numbers are handed out in increasing order. *)
Definition next_number (t : Tracker) : nat :=
  S (fold_right Nat.max 0 (map number (issues t))).

Definition api_create (title body : str) (labels : list str) (t : Tracker)
  : nat * Tracker :=
  let n := next_number t in
  (n, {| issues := {| number := n; title := title; body := body;
                      state := open; labels := labels |} :: issues t;
         comments := comments t |}).

Definition modify (n : nat) (f : Issue -> Issue) (t : Tracker) : Tracker :=
  {| issues := map (fun i => if number i =? n then f i else i) (issues t);
     comments := comments t |}.

Definition api_update_body (n : nat) (body : str) (labels : list str)
  : Tracker -> Tracker :=
  modify n (fun i => {| number := number i; title := title i; body := body;
                        state := state i; labels := labels |}).

Definition api_close (n : nat) : Tracker -> Tracker :=
  modify n (fun i => {| number := number i; title := title i; body := body i;
                        state := closed; labels := labels i |}).

Definition api_comment (n : nat) (c : Comment) (t : Tracker) : Tracker :=
  {| issues := issues t; comments := comments t ++ [(n, c)] |}.

(** *** The manager *)

Definition getExistingA11yIssues (t : Tracker) : list Issue := listForRepo t.

Fixpoint findMatchingIssue (group : ViolationGroup) (existingIssues : list Issue)
  : option Issue :=
  match existingIssues with
  | [] => None
  | issue :: rest =>
      if includes (body issue) (signature_token (g_signature group)) then Some issue
      else if includes (title issue) (g_ruleId group) then Some issue
      else findMatchingIssue group rest
  end.

Definition issue_url (cfg : GitHubConfig) (n : nat) : str :=
  L "https://github.com/" ++ owner cfg ++ L "/" ++ repo cfg ++ L "/issues/"
    ++ of_nat n.

Definition createIssue (cfg : GitHubConfig) (group : ViolationGroup) (t : Tracker)
  : IssueResult * Tracker :=
  let title := L "[A11y] " ++ g_ruleId group ++ L ": "
                 ++ substring0 80 (g_description group) in
  let body := generateGroupSummary group in
  let labels := generateLabels group in
  let '(n, t') := api_create title body labels t in
  ({| r_signature := g_signature group; r_action := created;
      r_issueNumber := n; r_url := issue_url cfg n |}, t').

Definition updateIssue (cfg : GitHubConfig) (issueNumber : nat)
    (group : ViolationGroup) (t : Tracker) : IssueResult * Tracker :=
  let body := generateGroupSummary group in
  let labels := generateLabels group in
  let t1 := api_update_body issueNumber body labels t in
  let t2 := api_comment issueNumber
              (UpdatedComment (g_totalOccurrences group)
                              (length (g_occurrences group))) t1 in
  ({| r_signature := g_signature group; r_action := updated;
      r_issueNumber := issueNumber; r_url := issue_url cfg issueNumber |}, t2).

(** The expression that reads a signature back from a body: the literal
    [Signature: ] and a back-tick, a captured run of one or more characters
    other than a back-tick, and a back-tick. *)
Definition not_backtick (c : ascii) : bool := negb (is_char backtick c).
Definition re_signature : str -> option nat :=
  lit_then (L "Signature: " ++ bt)
    (plus_then not_backtick (lit_then bt done)).

(** [s.match(re)] without the global flag: the leftmost match. *)
Fixpoint first_match (m : str -> option nat) (s : str) : option str :=
  match m s with
  | Some n => Some (firstn n s)
  | None => match s with [] => None | _ :: t => first_match m t end
  end.

Definition embedded_signature (body : str) : option str :=
  option_map (fun matched => removelast (skipn 12 matched))
             (first_match re_signature body).

Definition close_if_resolved (currentSignatures : list str) (t : Tracker)
    (issue : Issue) : Tracker :=
  match embedded_signature (body issue) with
  | None => t
  | Some signature =>
      if negb (existsb (eqb signature) currentSignatures)
      then api_comment (number issue) ResolvedComment (api_close (number issue) t)
      else t
  end.

Definition closeResolvedIssues (existingIssues : list Issue)
    (currentGroups : list ViolationGroup) (t : Tracker) : Tracker :=
  let currentSignatures := map g_signature currentGroups in
  fold_left (close_if_resolved currentSignatures) existingIssues t.

(** One turn of the loop of [syncIssues]. *)
Definition sync_group (cfg : GitHubConfig) (existingIssues : list Issue)
    (acc : list IssueResult * Tracker) (group : ViolationGroup)
  : list IssueResult * Tracker :=
  let '(results, t) := acc in
  match findMatchingIssue group existingIssues with
  | Some existingIssue =>
      let '(result, t') := updateIssue cfg (number existingIssue) group t in
      (results ++ [result], t')
  | None =>
      let '(result, t') := createIssue cfg group t in
      (results ++ [result], t')
  end.

Definition syncIssues (cfg : GitHubConfig) (groups : list ViolationGroup)
    (t : Tracker) : list IssueResult * Tracker :=
  let existingIssues := getExistingA11yIssues t in
  let '(results, t1) := fold_left (sync_group cfg existingIssues) groups ([], t) in
  (results, closeResolvedIssues existingIssues groups t1).

(** The number of open accessibility issues of the tracker. *)
Definition open_count (t : Tracker) : nat := length (listForRepo t).

Definition count_created (rs : list IssueResult) : nat :=
  length (filter (fun r => match r_action r with created => true | _ => false end) rs).

End Issues.

(* ================================================================== *)
(** * The crawler ([crawlWebsite])

    The browser, the network and the URL parser are the external
    collaborators.  Within one crawl every URL is navigated to at most once,
    so the site is a function from URLs to the outcome of loading them. *)

Module Crawler.
Import Str.

Record CrawlOptions := {
  baseUrl : str;
  maxPages : option nat;
  maxDepth : option nat;
  includePatterns : option (list str);
  excludePatterns : option (list str);
  respectRobotsTxt : option bool
}.

Record CrawlResult := {
  url : str;
  depth : nat;
  statusCode : nat;
  title : str
}.

(** An entry of [toVisit]. *)
Record CrawlTask := { t_url : str; t_depth : nat }.

(** What loading a page gives: [page.goto] rejects, or resolves with a
    status ([0] stands for a missing response); then [page.title()] and the
    evaluation inside [extractLinks] each give a value or throw ([None]).
    The anchors are the same-origin targets with their fragment removed, as
    computed inside the page. *)
Inductive PageOutcome :=
| NavigationFailed
| Loaded (status : nat) (pageTitle : option str) (anchors : option (list str)).

(** What fetching [robots.txt] gives: the request rejects (by the 5 second
    abort or otherwise), or a response with a status and a body, reading
    which may itself fail. *)
Inductive RobotsFetch :=
| FetchRejected (aborted : bool)
| Responded (status : nat) (text : option str).

Definition default {A} (d : A) (o : option A) : A :=
  match o with Some x => x | None => d end.

Definition defaultExcludePatterns : list str :=
  [L "/api/"; L "/admin/"; L ".pdf"; L ".zip"; L ".jpg"; L ".png"; L ".gif";
   L ".svg"; L "/cdn-cgi/"].

(** [Set.prototype.has] and [add] on a set of strings. *)
Definition set_has (x : str) (s : list str) : bool := existsb (eqb x) s.
Definition set_add (x : str) (s : list str) : list str :=
  if set_has x s then s else s ++ [x].

(** [[...new Set(links)]] *)
Definition uniq (l : list str) : list str := fold_left (fun s x => set_add x s) l [].

(** [extractLinks]: the anchors collected inside the page, without
    duplicates. *)
Definition extractLinks (anchors : list str) : list str := uniq anchors.

(** ** [fetchRobotsTxt] *)

Definition robots_line (acc : bool * list str) (line : str) : bool * list str :=
  let '(isUserAgentAll, disallowed) := acc in
  let trimmed := trim line in
  let isUserAgentAll :=
    if starts_with (L "User-agent:") trimmed then includes trimmed (L "*")
    else isUserAgentAll in
  if isUserAgentAll && starts_with (L "Disallow:") trimmed then
    let path := trim (skipn (length (L "Disallow:")) trimmed) in
    match path with
    | [] => (isUserAgentAll, disallowed)
    | _ => (isUserAgentAll, disallowed ++ [path])
    end
  else (isUserAgentAll, disallowed).

Definition parseRobots (text : str) : list str :=
  snd (fold_left robots_line (split [ascii_of_nat 10] text)
                 (false, [])).

(** [response.ok] *)
Definition response_ok (status : nat) : bool := (200 <=? status) && (status <=? 299).

Definition fetchRobotsTxt (r : RobotsFetch) : list str :=
  match r with
  | FetchRejected _ => []
  | Responded status text =>
      if negb (response_ok status) then []
      else match text with
           | None => []
           | Some t => parseRobots t
           end
  end.

Section Crawl.
(** [new URL(u).pathname], or [None] when the constructor throws. *)
Variable pathname : str -> option str.
(** The site. *)
Variable web : str -> PageOutcome.

(** ** [shouldExclude] and [matchesAnyPattern] *)

Definition shouldExclude (u : str) (excludePatterns disallowedPaths : list str)
  : bool :=
  if existsb (fun pattern => includes u pattern) excludePatterns then true
  else match pathname u with
       | Some p => existsb (fun path => starts_with path p) disallowedPaths
       | None => true
       end.

Definition matchesAnyPattern (u : str) (patterns : list str) : bool :=
  existsb (fun pattern => includes u pattern) patterns.

(** ** The crawl loop *)

Record State := {
  visited : list str;
  toVisit : list CrawlTask;
  results : list CrawlResult
}.

Variable maxPagesV maxDepthV : nat.
Variable includeV excludeV disallowedPaths : list str.

Definition enqueue_links (vis : list str) (d : nat) (links : list str)
    (queue : list CrawlTask) : list CrawlTask :=
  fold_left (fun q link =>
               if negb (set_has link vis)
               then q ++ [{| t_url := link; t_depth := d + 1 |}]
               else q)
            links queue.

(** The part of the loop body after [visited.add(url)]: the navigation and
    what follows it, inside [try ... catch]. *)
Definition visit (u : str) (d : nat) (st : State) : State :=
  match web u with
  | NavigationFailed => st
  | Loaded status pageTitle anchors =>
      if (200 <=? status) && (status <? 400) then
        match pageTitle with
        | None => st
        | Some ttl =>
            let st1 :=
              {| visited := visited st; toVisit := toVisit st;
                 results := results st ++
                   [{| url := u; depth := d; statusCode := status; title := ttl |}] |} in
            if d <? maxDepthV then
              match anchors with
              | None => st1
              | Some a =>
                  {| visited := visited st1;
                     toVisit := enqueue_links (visited st1) d (extractLinks a) (toVisit st1);
                     results := results st1 |}
              end
            else st1
        end
      else st
  end.

(** One turn of the [while] loop; [None] when its condition is false. *)
Definition step (st : State) : option State :=
  match toVisit st with
  | [] => None
  | task :: rest =>
      if length (results st) <? maxPagesV then
        let u := t_url task in
        let d := t_depth task in
        let st0 := {| visited := visited st; toVisit := rest; results := results st |} in
        if set_has u (visited st) then Some st0
        else if maxDepthV <? d then Some st0
        else if shouldExclude u excludeV disallowedPaths then Some st0
        else if (0 <? length includeV) && negb (matchesAnyPattern u includeV)
        then Some st0
        else
          Some (visit u d {| visited := set_add u (visited st0);
                             toVisit := toVisit st0;
                             results := results st0 |})
      else None
  end.

(** The loop, with a bound on the number of turns; [None] when the bound
    is reached before the loop ends. *)
Fixpoint run (fuel : nat) (st : State) : option State :=
  match step st with
  | None => Some st
  | Some st' =>
      match fuel with
      | O => None
      | S f => run f st'
      end
  end.

(** The states the loop goes through from [st]. *)
Inductive reachable (st0 : State) : State -> Prop :=
| reach_start : reachable st0 st0
| reach_step st st' : reachable st0 st -> step st = Some st' -> reachable st0 st'.

End Crawl.

Inductive Outcome :=
| Returned (pages : list CrawlResult)
| Threw
| OutOfFuel.

Definition initial (base : str) : State :=
  {| visited := []; toVisit := [{| t_url := base; t_depth := 0 |}]; results := [] |}.

Definition effMaxPages (o : CrawlOptions) : nat := default 100 (maxPages o).
Definition effMaxDepth (o : CrawlOptions) : nat := default 3 (maxDepth o).

(** The paths taken from [robots.txt], when it is to be respected. *)
Definition disallowedOf (o : CrawlOptions) (robots : RobotsFetch) : list str :=
  if default true (respectRobotsTxt o) then fetchRobotsTxt robots else [].

(** The loop of [crawlWebsite] with the options in place. *)
Definition crawl_step (pathname : str -> option str) (web : str -> PageOutcome)
    (o : CrawlOptions) (disallowed : list str) : State -> option State :=
  step pathname web (effMaxPages o) (effMaxDepth o)
       (default [] (includePatterns o))
       (default defaultExcludePatterns (excludePatterns o))
       disallowed.

Definition crawl_with (pathname : str -> option str) (web : str -> PageOutcome)
    (o : CrawlOptions) (disallowed : list str) (fuel : nat) : Outcome :=
  match pathname (baseUrl o) with
  | None => Threw
  | Some _ =>
      match run pathname web (effMaxPages o) (effMaxDepth o)
                (default [] (includePatterns o))
                (default defaultExcludePatterns (excludePatterns o))
                disallowed fuel (initial (baseUrl o)) with
      | Some st => Returned (results st)
      | None => OutOfFuel
      end
  end.

(** [crawlWebsite]; it throws when [new URL(baseUrl)] does. *)
Definition crawlWebsite (pathname : str -> option str) (web : str -> PageOutcome)
    (robots : RobotsFetch) (o : CrawlOptions) (fuel : nat) : Outcome :=
  crawl_with pathname web o (disallowedOf o robots) fuel.

End Crawler.

(* ================================================================== *)
(** * Signature stability

    An element's HTML is the text of its opening tag, made of the tag name
    and of the attributes in double quotes, followed by the rest (content
    and closing tag). *)

Module Stability.
Import Str Grouper.

Record Attr := { a_name : str; a_value : str }.

Record Element := {
  e_tag : str;
  e_attrs : list Attr;
  e_rest : str
}.

Definition chunk (n v : str) : str :=
  " "%char :: n ++ "="%char :: dquote :: v ++ [dquote].

Definition render_attr (a : Attr) : str := chunk (a_name a) (a_value a).

Definition opening (tag : str) (attrs : list Attr) : str :=
  "<"%char :: tag ++ flat_map render_attr attrs.

Definition outerHTML (e : Element) : str :=
  opening (e_tag e) (e_attrs e) ++ ">"%char :: e_rest e.

(** ** Well-formed elements *)

Definition nodq (s : str) : Prop := Forall (fun c => is_char dquote c = false) s.
Definition nospace (s : str) : Prop := Forall (fun c => is_space c = false) s.

(** Does the string end with an equals sign? *)
Definition ends_in_eq (s : str) : bool :=
  match rev s with
  | c :: _ => is_char "=" c
  | [] => false
  end.

Definition name_ok (n : str) : Prop := nodq n /\ nospace n.
Definition value_ok (v : str) : Prop := nodq v /\ ends_in_eq v = false.
Definition attr_ok (a : Attr) : Prop := name_ok (a_name a) /\ value_ok (a_value a).

(** The tag name starts with a word character and holds neither white
    space nor a double quote; attribute names likewise hold neither; values
    hold no double quote and do not end with an equals sign. *)
Definition element_ok (e : Element) : Prop :=
  (exists c t, e_tag e = c :: t /\ is_word c = true) /\
  name_ok (e_tag e) /\ Forall attr_ok (e_attrs e).

(** ** Elements that differ only in noise *)

(** The class tokens that do not look generated, as the class pass sees
    them: after the white-space pass and in lower case. *)
Definition kept_classes (v : str) : list str :=
  filter (fun c => negb (looks_generated c))
         (split (L " ") (toLowerCase (squeeze v))).

Definition same_attr (a b : Attr) : Prop :=
  a_name a = a_name b /\
  (a_value a = a_value b
   \/ toLowerCase (a_name a) = L "id"
   \/ (toLowerCase (a_name a) = L "class" /\
       kept_classes (a_value a) = kept_classes (a_value b))).

(** Same tag, same attributes up to the values of [id] and the generated
    tokens of [class]; the rest (the text content) is free. *)
Definition same_shape (e1 e2 : Element) : Prop :=
  e_tag e1 = e_tag e2 /\ Forall2 same_attr (e_attrs e1) (e_attrs e2).

(** ** The attribute expressions

    Each of the four expressions of [strip_dynamic] matches a prefix [p]
    particular to it, an equals sign and a double-quoted value. *)

Definition attr_text (p val rest : str) : str :=
  p ++ "="%char :: dquote :: val ++ dquote :: rest.

Record attr_re (m : str -> option nat) (P : str -> Prop) : Prop := {
  re_sound : forall s k, m s = Some k ->
      exists p val rest,
        s = attr_text p val rest /\ k = length p + length val + 3 /\
        P p /\ nodq val;
  re_complete : forall p val rest, P p -> nodq val ->
      m (attr_text p val rest) = Some (length p + length val + 3);
  re_prefix : forall p, P p -> nodq p /\ p <> []
}.

Definition P_aria (p : str) : Prop := p = L "aria-controls".
Definition P_id (p : str) : Prop := exists w, is_space w = true /\ p = w :: L "id".
Definition P_class (p : str) : Prop := exists w, is_space w = true /\ p = w :: L "class".
Definition P_data (p : str) : Prop :=
  exists w y, is_space w = true /\ p = w :: L "data-" ++ y /\ y <> [] /\
              Forall (fun c => is_lower_dash c = true) y.

(** The structured counterparts of the passes. *)
Definition ends_with (suffix s : str) : bool := starts_with (rev suffix) (rev s).

Definition is_data_name (n : str) : bool :=
  starts_with (L "data-") n &&
  (1 <=? length (skipn 5 n)) && forallb is_lower_dash (skipn 5 n).

Definition aria_attr (a : Attr) : Attr :=
  if ends_with (L "aria-controls") (a_name a)
  then {| a_name := a_name a; a_value := [] |} else a.

Definition id_attr (a : Attr) : Attr :=
  if eqb (a_name a) (L "id") then {| a_name := a_name a; a_value := [] |} else a.

Definition keep_attr (a : Attr) : bool := negb (is_data_name (a_name a)).

Definition class_text (a : Attr) : str :=
  if eqb (a_name a) (L "class")
  then match clean_classes (a_value a) with
       | [] => []
       | c => L " class=" ++ [dquote] ++ c ++ [dquote]
       end
  else render_attr a.

(** The attribute text of the opening tag after [strip_dynamic]. *)
Definition stripped_attrs (attrs : list Attr) : str :=
  flat_map class_text (filter keep_attr (map id_attr (map aria_attr attrs))).

(** The attributes after the white-space pass and lower-casing. *)
Definition collapse_attr (a : Attr) : Attr :=
  {| a_name := toLowerCase (a_name a);
     a_value := toLowerCase (squeeze (a_value a)) |}.

(** ** Auxiliary notions of the proofs *)

(** The tail common to the four expressions. *)
Definition eq_quoted : str -> option nat := lit_then (L "=") quoted.

Definition body (attrs : list Attr) (T : str) : str :=
  flat_map render_attr attrs ++ ">"%char :: T.

Definition r_aria (_ : str) : str := L "aria-controls=" ++ QQ.

Definition r_id (_ : str) : str := L " id=" ++ QQ.

Definition r_data (_ : str) : str := [].

Definition strip1 (a : Attr) : str :=
  if keep_attr (id_attr (aria_attr a)) then class_text (id_attr (aria_attr a)) else [].

End Stability.

(* ================================================================== *)
(** * Notions used to state the properties *)

Module GrouperSpec.
Import Str Grouper.

Definition Item := (str * ViolationWithContext)%type.

Definition items (entries : list (str * list ViolationWithContext)) : list Item :=
  flat_map (fun e => map (pair (fst e)) (snd e)) entries.

Definition add_item (m : GroupMap) (it : Item) : GroupMap :=
  add_violation (fst it) m (snd it).

Definition sig_of (it : Item) : str := createViolationSignature (snd it).

(** The occurrences recorded for the signature [k], in the order met. *)
Definition occs_of (k : str) (its : list Item) : list Occurrence :=
  map (fun it => occurrence_of (fst it) (snd it))
      (filter (fun it => eqb k (sig_of it)) its).

(** The group of the signature [k] after the instances [its], when [v] is
    the first of them with that signature: the representative fields are
    those of [v]. *)
Definition group_of (k : str) (v : ViolationWithContext) (its : list Item)
  : ViolationGroup :=
  {| g_signature := k;
     g_ruleId := ruleId v;
     g_impact := impact_or_unknown (impact v);
     g_description := description v;
     g_help := help v;
     g_helpUrl := helpUrl v;
     g_wcagTags := wcagTags v;
     g_exampleHtml := html v;
     g_exampleSelector := cssSelector (context v);
     g_occurrences := occs_of k its;
     g_totalOccurrences := length (occs_of k its) |}.

Definition first_with (k : str) (its : list Item) : option Item :=
  find (fun it => eqb k (sig_of it)) its.

(** The invariant of the grouping loop after the instances [its]. *)
Record grouped (its : list Item) (m : GroupMap) : Prop := {
  grouped_nodup : NoDup (map fst m);
  grouped_entry : forall k g, In (k, g) m ->
      exists it, first_with k its = Some it /\ g = group_of k (snd it) its;
  grouped_cover : forall it, In it its -> In (sig_of it) (map fst m)
}.

(** The groups that come out of the loop carry one of the five impacts. *)
Definition ranked (g : ViolationGroup) : Prop :=
  exists r, impactOrder (g_impact g) = Some r.

Definition total_sum (l : list ViolationGroup) : nat :=
  list_sum (map g_totalOccurrences l).

(** The pair the permutation statement compares. *)
Definition sig_total (g : ViolationGroup) : str * nat :=
  (g_signature g, g_totalOccurrences g).

End GrouperSpec.

Module IssuesSpec.
Import Str Grouper Issues.

(** An issue carries the signature of a group when its body embeds the
    signature token; failing that, when its title contains the rule. *)
Definition embeds_token (g : ViolationGroup) (i : Issue) : bool :=
  includes (body i) (signature_token (g_signature g)).

Definition title_names_rule (g : ViolationGroup) (i : Issue) : bool :=
  includes (title i) (g_ruleId g).

Definition carries (g : ViolationGroup) (i : Issue) : bool :=
  embeds_token g i || (negb (embeds_token g i) && title_names_rule g i).

(** What one result says about its group. *)
Definition result_for (existing : list Issue) (g : ViolationGroup) (r : IssueResult)
  : Prop :=
  r_signature r = g_signature g /\
  match findMatchingIssue g existing with
  | Some i => r_action r = updated /\ r_issueNumber r = number i
  | None => r_action r = created
  end.

End IssuesSpec.

Module CrawlerSpec.
Import Str Crawler.

Section Measure.
Variable web : str -> PageOutcome.
Variable maxPagesV maxDepthV : nat.

(** The bounds on the results. *)
Definition bounded (st : State) : Prop :=
  length (results st) <= maxPagesV /\
  Forall (fun r => depth r <= maxDepthV) (results st).

(** The measure of termination: the cost of a task is the size of the
    tree of tasks it may give rise to within the depth budget left; every
    turn takes a task off the queue and adds at most its children. *)
Definition links_of (u : str) : list str :=
  match web u with
  | Loaded _ _ (Some a) => extractLinks a
  | _ => []
  end.

Fixpoint cost (budget : nat) (u : str) : nat :=
  match budget with
  | O => 1
  | S b => 1 + list_sum (map (cost b) (links_of u))
  end.

Definition task_cost (t : CrawlTask) : nat := cost (maxDepthV - t_depth t) (t_url t).

Definition queue_cost (q : list CrawlTask) : nat := list_sum (map task_cost q).

End Measure.

(** No URL is in the visited set or in the results twice. *)
Definition admitted_once (st : State) : Prop :=
  NoDup (visited st) /\ NoDup (map url (results st)) /\
  incl (map url (results st)) (visited st).

(** The states the loop of [crawlWebsite] goes through. *)
Definition crawl_reachable (pathname : str -> option str) (web : str -> PageOutcome)
    (o : CrawlOptions) (disallowed : list str) (st : State) : Prop :=
  reachable pathname web (effMaxPages o) (effMaxDepth o)
            (default [] (includePatterns o))
            (default defaultExcludePatterns (excludePatterns o))
            disallowed (initial (baseUrl o)) st.

(** [robots.txt] could not be had: the request was rejected (on its own or
    by the abort after 5 seconds), the status is not a 2xx one, or the body
    could not be read. *)
Definition robots_unavailable (r : RobotsFetch) : Prop :=
  match r with
  | FetchRejected _ => True
  | Responded status text => response_ok status = false \/ text = None
  end.

End CrawlerSpec.

(* ================================================================== *)
(** * Sample data *)

Module GrouperSamples.
Import Str Grouper.

Definition sample (rule : string) (i : option Impact) (h sel : string)
  : ViolationWithContext :=
  {| ruleId := L rule; impact := i;
     description := L "Buttons must have discernible text";
     help := L "Give the element an accessible name";
     helpUrl := L "https://dequeuniversity.com/rules/axe/4.8/button-name";
     wcagTags := [L "wcag2a"; L "wcag412"];
     html := L h;
     context := {| cssSelector := L sel |} |}.

Definition click_button : ViolationWithContext :=
  sample "button-name" (Some critical) "<button>Click</button>" "body > main > button".

Definition submit_button : ViolationWithContext :=
  sample "button-name" (Some critical) "<button>Submit</button>" "body > main > button".

Definition bare_text : ViolationWithContext :=
  sample "region" (Some moderate) "Some text outside any landmark" "body".

Definition pages_ab : list (str * list ViolationWithContext) :=
  [(L "https://example.org/a", [click_button; bare_text]);
   (L "https://example.org/b", [submit_button])].

Definition pages_ba : list (str * list ViolationWithContext) :=
  [(L "https://example.org/b", [submit_button]);
   (L "https://example.org/a", [click_button; bare_text])].

Definition first_group (entries : list (str * list ViolationWithContext))
  : ViolationGroup :=
  hd (new_group [] click_button) (groupViolations entries).

End GrouperSamples.

Module IssuesSamples.
Import Str Grouper Issues.

Definition cfg : GitHubConfig := {| owner := L "acme"; repo := L "site" |}.

Definition logo (sel : string) : ViolationWithContext :=
  {| ruleId := L "image-alt"; impact := Some critical;
     description := L "Images must have alternate text";
     help := L "Add an alt attribute";
     helpUrl := L "https://dequeuniversity.com/rules/axe/4.8/image-alt";
     wcagTags := [L "wcag2a"; L "wcag111"];
     html := L "<img src=" ++ [dquote] ++ L "logo.png" ++ [dquote] ++ L ">";
     context := {| cssSelector := L sel |} |}.

(** The groups of an earlier scan, and of the current one, in which the
    image has moved one level down in the document. *)
Definition groups_before : list ViolationGroup :=
  groupViolations [(L "https://example.org/", [logo "html > body > header > img"])].

Definition groups_now : list ViolationGroup :=
  groupViolations
    [(L "https://example.org/", [logo "html > body > header > div > img"])].

Definition empty_tracker : Tracker := {| issues := []; comments := [] |}.

(** The tracker as the earlier scan left it: one open issue. *)
Definition tracker_before : Tracker := snd (syncIssues cfg groups_before empty_tracker).

End IssuesSamples.

Module CrawlerSamples.
Import Str Crawler.

Definition home : str := L "https://example.org/".

Definition page_b : str := L "https://example.org/b".

Definition page_c : str := L "https://example.org/c".

Definition site (u : str) : PageOutcome :=
  if eqb u home then Loaded 200 (Some (L "Home")) (Some [page_b; page_c])
  else if eqb u page_b then Loaded 200 (Some (L "B")) (Some [page_c; home])
  else if eqb u page_c then Loaded 200 (Some (L "C")) (Some [home; page_b])
  else NavigationFailed.

Definition path_of (u : str) : option str :=
  if starts_with (L "https://example.org") u then Some (skipn 19 u) else None.

Definition site_options : CrawlOptions :=
  {| baseUrl := home; maxPages := Some 10; maxDepth := Some 2;
     includePatterns := None; excludePatterns := None;
     respectRobotsTxt := None |}.

Definition after_turns (n : nat) : State :=
  Nat.iter n (fun st => match crawl_step path_of site site_options [] st with
                        | Some st' => st'
                        | None => st
                        end)
           (initial home).

End CrawlerSamples.

Module StabilitySamples.
Import Str Grouper Stability.

Definition attr (n v : string) : Attr := {| a_name := L n; a_value := L v |}.

Definition instance_of (e : Element) : ViolationWithContext :=
  {| ruleId := L "button-name"; impact := Some critical;
     description := L "Buttons must have discernible text";
     help := L "Give the element an accessible name";
     helpUrl := L "https://dequeuniversity.com/rules/axe/4.8/button-name";
     wcagTags := [L "wcag2a"; L "wcag412"];
     html := outerHTML e;
     context := {| cssSelector := L "body > main > form > button" |} |}.

(** The two buttons of the specification, with an id and a hashed class
    token each. *)
Definition click_element : Element :=
  {| e_tag := L "button";
     e_attrs := [attr "id" "submit-1"; attr "class" "btn css-1a2b3c"; attr "type" "submit"];
     e_rest := L "Click</button>" |}.

Definition submit_element : Element :=
  {| e_tag := L "button";
     e_attrs := [attr "id" "go"; attr "class" "btn x9f8e7d6c5"; attr "type" "submit"];
     e_rest := L "Submit</button>" |}.

(** Two links that differ in their id only; the first id ends with an
    equals sign. *)
Definition odd_link : Element :=
  {| e_tag := L "a";
     e_attrs := [attr "id" "aria-controls="; attr "role" "button"];
     e_rest := L "Open</a>" |}.

Definition plain_link : Element :=
  {| e_tag := L "a";
     e_attrs := [attr "id" "menu"; attr "role" "button"];
     e_rest := L "Open</a>" |}.

Definition two_pages : list (str * list ViolationWithContext) :=
  [(L "https://example.org/a", [instance_of click_element]);
   (L "https://example.org/b", [instance_of submit_element])].

End StabilitySamples.

(* ================================================================== *)
(** * Notions used to state the properties of the crawl *)

Module CrawlSpec.
Import Str Crawler CrawlerSpec.

Section Turn.
Variable pathname : str -> option str.
Variable web : str -> PageOutcome.
Variable maxDepthV : nat.
Variable includeV excludeV disallowedPaths : list str.

(** The tasks a page crawled at depth [d] adds to the queue. *)
Definition new_tasks (vis : list str) (d : nat) (anchors : option (list str))
  : list CrawlTask :=
  if d <? maxDepthV then
    match anchors with
    | Some a =>
        map (fun l => {| t_url := l; t_depth := d + 1 |})
            (filter (fun l => negb (set_has l vis)) (extractLinks a))
    | None => []
    end
  else [].

(** The URL passes the filters of the loop. *)
Definition passes_filters (u : str) : Prop :=
  shouldExclude pathname u excludeV disallowedPaths = false /\
  (includeV = [] \/ matchesAnyPattern u includeV = true).

(** The result records what loading its page gave. *)
Definition records_page (r : CrawlResult) : Prop :=
  200 <= statusCode r < 400 /\
  exists anchors, web (url r) = Loaded (statusCode r) (Some (title r)) anchors.

(** The page or task [(u, d)] is the base at depth 0, or is linked from a
    recorded page one level up. *)
Definition has_parent (base : str) (rs : list CrawlResult) (u : str) (d : nat)
  : Prop :=
  (u = base /\ d = 0) \/
  exists p, In p rs /\ d = depth p + 1 /\ In u (links_of web (url p)).

(** The depths of the recorded pages and of the pending tasks, in order. *)
Definition depths (st : State) : list nat :=
  map depth (results st) ++ map t_depth (toVisit st).

(** The invariants of the loop behind the properties of the result. *)
Definition all_recorded (st : State) : Prop :=
  Forall (fun r => passes_filters (url r) /\ records_page r) (results st).

Definition breadth_first (st : State) : Prop :=
  StronglySorted le (depths st) /\
  match toVisit st with
  | [] => True
  | h :: _ => Forall (fun t => t_depth t <= t_depth h + 1) (toVisit st)
  end.

Definition rooted (base : str) (st : State) : Prop :=
  match results st with
  | [] => toVisit st = [] \/ toVisit st = [{| t_url := base; t_depth := 0 |}]
  | r :: _ => url r = base /\ depth r = 0
  end.

Definition linked (base : str) (st : State) : Prop :=
  Forall (fun r => has_parent base (results st) (url r) (depth r)) (results st) /\
  Forall (fun t => has_parent base (results st) (t_url t) (t_depth t)) (toVisit st).

(** Loading the page gives a status from 200 to 399 and a title. *)
Definition loads (u : str) : Prop :=
  exists status ttl anchors,
    web u = Loaded status (Some ttl) anchors /\ 200 <= status < 400.

(** [within base k u]: the page [u] is [k] links away from the base, along
    pages that pass the filters and load. *)
Inductive within (base : str) : nat -> str -> Prop :=
| within_base : passes_filters base -> loads base -> within base 0 base
| within_link (k : nat) (p q : str) :
    within base k p -> In q (links_of web p) -> passes_filters q -> loads q ->
    within base (S k) q.

(** The invariants behind the completeness of the crawl: the base is
    visited or pending; a visited page that loads is recorded; and a link
    of a recorded page that passes the filters is visited, every record of
    it being at most one level further down, or is pending at most one level
    further down. *)
Definition base_pending (base : str) (st : State) : Prop :=
  passes_filters base ->
  In base (visited st) \/ In {| t_url := base; t_depth := 0 |} (toVisit st).

Definition loaded_recorded (st : State) : Prop :=
  forall u, In u (visited st) -> loads u -> exists r, In r (results st) /\ url r = u.

Definition links_pending (st : State) : Prop :=
  forall r q,
    In r (results st) -> depth r < maxDepthV ->
    In q (links_of web (url r)) -> passes_filters q ->
    (In q (visited st) /\
     forall r', In r' (results st) -> url r' = q -> depth r' <= depth r + 1)
    \/ (~ In q (visited st) /\
        exists t, In t (toVisit st) /\ t_url t = q /\ t_depth t <= depth r + 1).

End Turn.

(** The filters with the options in place. *)
Definition crawl_filters (pathname : str -> option str) (o : CrawlOptions)
    (robots : RobotsFetch) : str -> Prop :=
  passes_filters pathname (default [] (includePatterns o))
    (default defaultExcludePatterns (excludePatterns o)) (disallowedOf o robots).

(** A [robots.txt] with one group for all agents. *)
Definition robots_file (paths : list str) : str :=
  join [ascii_of_nat 10]
       (L "User-agent: *" :: map (fun p => L "Disallow: " ++ p) paths).

(** The pages of the sample site, as a crawl of it returns them. *)
Definition sample_pages : list CrawlResult :=
  [ {| url := CrawlerSamples.home; depth := 0; statusCode := 200; title := L "Home" |};
    {| url := CrawlerSamples.page_b; depth := 1; statusCode := 200; title := L "B" |};
    {| url := CrawlerSamples.page_c; depth := 1; statusCode := 200; title := L "C" |} ].

End CrawlSpec.

(* ================================================================== *)
(** * The listing of the open issues, page by page

    [getExistingA11yIssues] asks for the listing 100 issues at a time and
    stops at the first page that is not full.  The tracker serves the
    pages of one and the same listing. *)

Module Listing.
Import Str Grouper Issues.

(** [issues.listForRepo] with [per_page] and [page] (pages count from 1). *)
Definition listForRepoPage (per_page page : nat) (t : Tracker) : list Issue :=
  firstn per_page (skipn (per_page * (page - 1)) (listForRepo t)).

(** The loop of [getExistingA11yIssues]; [fuel] bounds the number of
    requests, [None] when it runs out. *)
Fixpoint fetchPages (fuel page : nat) (issues : list Issue) (t : Tracker)
  : option (list Issue) :=
  match fuel with
  | O => None
  | S f =>
      let data := listForRepoPage 100 page t in
      let issues := issues ++ data in
      if length data <? 100 then Some issues
      else fetchPages f (page + 1) issues t
  end.

Definition getExistingA11yIssuesPaged (fuel : nat) (t : Tracker)
  : option (list Issue) :=
  fetchPages fuel 1 [] t.

End Listing.

(* ================================================================== *)
(** * Notions used to state the properties of the reconciliation *)

Module SyncSpec.
Import Str Grouper Issues.

(** The issue, closed. *)
Definition mark_closed (j : Issue) : Issue :=
  {| number := number j; title := title j; body := body j;
     state := closed; labels := labels j |}.

(** The body names a signature that is not among the current ones. *)
Definition stale (currentSignatures : list str) (i : Issue) : bool :=
  match embedded_signature (body i) with
  | Some signature => negb (existsb (eqb signature) currentSignatures)
  | None => false
  end.

(** Close the issues whose number is in [ns]. *)
Definition close_all (ns : list nat) (j : Issue) : Issue :=
  if existsb (Nat.eqb (number j)) ns then mark_closed j else j.

(** Same number and same state. *)
Definition same_status (i j : Issue) : Prop :=
  number i = number j /\ state i = state j.

(** The issues of [t'] are new open issues followed by the issues of [t],
    each with its number and state. *)
Definition extends (t t' : Tracker) : Prop :=
  exists news olds,
    issues t' = news ++ olds /\
    Forall2 same_status (issues t) olds /\
    Forall (fun j => ~ In (number j) (map number (issues t)) /\ state j = open) news.

(** The body of an issue up to its last line. *)
Definition summary_head (group : ViolationGroup) : str :=
  firstn (length (generateGroupSummary group)
          - length (L "*" ++ signature_token (g_signature group) ++ L "*" ++ nl))
         (generateGroupSummary group).

Definition first_issue (t : Tracker) : Issue :=
  hd {| number := 0; title := []; body := []; state := closed; labels := [] |}
     (issues t).

End SyncSpec.

(* ================================================================== *)
(** * Notions used to state the properties of the normalisation *)

Module NormalSpec.
Import Str Grouper.

(** Every white-space character is a space followed by a character that is
    not white space, or by nothing. *)
Fixpoint spaced (s : str) : Prop :=
  match s with
  | [] => True
  | c :: t =>
      (is_space c = true ->
       c = " "%char /\ match t with [] => True | d :: _ => is_space d = false end)
      /\ spaced t
  end.

(** The text does not start with white space or with an opening angle
    bracket. *)
Definition plain_text (s : str) : Prop :=
  match s with
  | [] => True
  | c :: _ => is_space c = false /\ c <> "<"%char
  end.

End NormalSpec.

(* ================================================================== *)
(** * The action ([runAction] of [src/action.ts])

    The run of the action: crawl, test every page, group, reconcile.  The
    accessibility test of a page ([runAccessibilityTest]) is an external
    collaborator, given by what it returns for each URL.  Numbers of the
    configuration are natural numbers; a missing one and [NaN] are
    [None]. *)

Module ActionRun.
Import Str Grouper Issues.

Record ActionConfig := {
  websiteUrl : str;
  maxPages : option nat;
  maxDepth : option nat;
  includePatterns : option (list str);
  excludePatterns : option (list str);
  githubToken : str;
  githubOwner : str;
  githubRepo : str;
  contextDepth : option nat
}.

(** What [runAccessibilityTest] gives for a page: it throws, or it returns
    a result whose [violationsWithContext] may be missing. *)
Inductive TestOutcome :=
| TestThrew
| Tested (violationsWithContext : option (list ViolationWithContext)).

(** [x || d] on a number: a missing number, [NaN] and [0] give [d]. *)
Definition or_default (x : option nat) (d : nat) : nat :=
  match x with
  | Some (S n) => S n
  | _ => d
  end.

Definition crawlOptions (config : ActionConfig) : Crawler.CrawlOptions :=
  {| Crawler.baseUrl := websiteUrl config;
     Crawler.maxPages := Some (or_default (maxPages config) 50);
     Crawler.maxDepth := Some (or_default (maxDepth config) 3);
     Crawler.includePatterns := includePatterns config;
     Crawler.excludePatterns := excludePatterns config;
     Crawler.respectRobotsTxt := Some true |}.

(** [violationsByPage.set(url, violations)]: the value of an existing key
    is replaced where it stands. *)
Fixpoint page_set (k : str) (vs : list ViolationWithContext)
    (m : list (str * list ViolationWithContext))
  : list (str * list ViolationWithContext) :=
  match m with
  | [] => [(k, vs)]
  | (k', vs') :: rest =>
      if eqb k k' then (k', vs) :: rest else (k', vs') :: page_set k vs rest
  end.

(** The body of the loop over the pages. *)
Definition test_page (tester : str -> TestOutcome)
    (acc : list (str * list ViolationWithContext) * nat) (page : Crawler.CrawlResult)
  : list (str * list ViolationWithContext) * nat :=
  let '(violationsByPage, totalViolations) := acc in
  match tester (Crawler.url page) with
  | Tested (Some (v :: vs)) =>
      (page_set (Crawler.url page) (v :: vs) violationsByPage,
       totalViolations + length (v :: vs))
  | _ => acc
  end.

(** The figures of the final summary, also written to [GITHUB_OUTPUT]. *)
Record ActionOutput := {
  pages_scanned : nat;
  total_violations : nat;
  unique_violations : nat;
  issues_created : nat;
  issues_updated : nat
}.

Inductive ActionResult :=
| Failed                       (* the crawl threw; the action rejects *)
| NoPages                      (* returned after the crawl *)
| NoViolations                 (* returned after the tests *)
| Completed (out : ActionOutput)
| Unfinished.                  (* the bound on the turns of the crawl was reached *)

Definition is_created (r : IssueResult) : bool :=
  match r_action r with created => true | _ => false end.

Definition is_updated (r : IssueResult) : bool :=
  match r_action r with updated => true | _ => false end.

Definition runAction (pathname : str -> option str)
    (web : str -> Crawler.PageOutcome) (robots : Crawler.RobotsFetch)
    (tester : str -> TestOutcome) (config : ActionConfig) (fuel : nat)
    (t : Tracker) : ActionResult * Tracker :=
  match Crawler.crawlWebsite pathname web robots (crawlOptions config) fuel with
  | Crawler.Threw => (Failed, t)
  | Crawler.OutOfFuel => (Unfinished, t)
  | Crawler.Returned pages =>
      if length pages =? 0 then (NoPages, t)
      else
        let '(violationsByPage, totalViolations) :=
          fold_left (test_page tester) pages ([], 0) in
        if totalViolations =? 0 then (NoViolations, t)
        else
          let groups := groupViolations violationsByPage in
          let '(issueResults, t') :=
            syncIssues {| owner := githubOwner config; repo := githubRepo config |}
                       groups t in
          let created := length (filter is_created issueResults) in
          let updated := length (filter is_updated issueResults) in
          (Completed {| pages_scanned := length pages;
                        total_violations := totalViolations;
                        unique_violations := length groups;
                        issues_created := created;
                        issues_updated := updated |}, t')
  end.

End ActionRun.

(* ================================================================== *)
(** * The identification of the rules ([src/llmClient.ts])

    The two calls to a language model ([identifyWithOpenAI],
    [identifyWithClaude]) are external collaborators, given by what they
    return, [None] when they throw. *)

Module Rules.
Import Str.

Definition AXE_CORE_RULES : list str :=
  [ L "aria-allowed-attr"; L "aria-command-name"; L "aria-conditional-attr";
    L "aria-deprecated-role"; L "aria-dialog-name"; L "aria-hidden-body";
    L "aria-hidden-focus"; L "aria-input-field-name"; L "aria-meter-name";
    L "aria-progressbar-name"; L "aria-required-attr"; L "aria-required-children";
    L "aria-required-parent"; L "aria-roledescription"; L "aria-roles";
    L "aria-toggle-field-name"; L "aria-tooltip-name"; L "aria-treeitem-name";
    L "aria-valid-attr-value"; L "aria-valid-attr"; L "audio-caption";
    L "autocomplete-valid"; L "avoid-inline-spacing"; L "blink"; L "button-name";
    L "bypass"; L "color-contrast"; L "css-orientation-lock"; L "definition-list";
    L "dlitem"; L "document-title"; L "duplicate-id-active"; L "duplicate-id-aria";
    L "duplicate-id"; L "empty-heading"; L "empty-table-header";
    L "focus-order-semantics"; L "form-field-multiple-labels";
    L "frame-focusable-content"; L "frame-tested"; L "frame-title-unique";
    L "frame-title"; L "heading-order"; L "hidden-content"; L "html-has-lang";
    L "html-lang-valid"; L "html-xml-lang-mismatch";
    L "identical-links-same-purpose"; L "image-alt"; L "image-redundant-alt";
    L "input-button-name"; L "input-image-alt"; L "label-content-name-mismatch";
    L "label-title-only"; L "label"; L "landmark-banner-is-top-level";
    L "landmark-complementary-is-top-level"; L "landmark-contentinfo-is-top-level";
    L "landmark-main-is-top-level"; L "landmark-no-duplicate-banner";
    L "landmark-no-duplicate-contentinfo"; L "landmark-no-duplicate-main";
    L "landmark-one-main"; L "landmark-unique"; L "link-in-text-block";
    L "link-name"; L "list"; L "listitem"; L "marquee"; L "meta-refresh";
    L "meta-viewport-large"; L "meta-viewport"; L "nested-interactive";
    L "no-autoplay-audio"; L "object-alt"; L "p-as-heading";
    L "page-has-heading-one"; L "presentation-role-conflict"; L "region";
    L "role-img-alt"; L "scope-attr-valid"; L "scrollable-region-focusable";
    L "select-name"; L "server-side-image-map"; L "skip-link"; L "svg-img-alt";
    L "tabindex"; L "table-duplicate-name"; L "table-fake-caption";
    L "td-has-header"; L "td-headers-attr"; L "th-has-data-cells"; L "valid-lang";
    L "video-caption" ].

(** One [if] of [identifyWithKeywords]: the rule is pushed when the
    condition holds. *)
Definition push_if (cond : bool) (rule : str) (rules : list str) : list str :=
  if cond then rules ++ [rule] else rules.

Definition identifyWithKeywords (description fullContent : str) : list str :=
  let lowerDesc := toLowerCase description in
  let lowerContent := toLowerCase fullContent in
  let rules := [] in
  let rules :=
    push_if (includes lowerDesc (L "required-owned elements")
             || includes lowerDesc (L "roles are designed to contain other roles")
             || includes lowerDesc (L "required owned elements"))
            (L "aria-required-children") rules in
  let rules :=
    push_if (includes lowerDesc (L "role requires a parent")
             || includes lowerDesc (L "must be contained by")
             || includes lowerContent (L "listitem"))
            (L "aria-required-parent") rules in
  let rules :=
    push_if (includes lowerDesc (L "color contrast")
             || includes lowerDesc (L "contrast ratio"))
            (L "color-contrast") rules in
  let rules :=
    push_if (includes lowerDesc (L "alt text")
             || includes lowerDesc (L "alternative text")
             || includes lowerDesc (L "image must have"))
            (L "image-alt") rules in
  let rules :=
    push_if (includes lowerDesc (L "form element")
             || includes lowerDesc (L "input must have")
             || includes lowerDesc (L "label"))
            (L "label") rules in
  let rules :=
    push_if (includes lowerDesc (L "heading order")
             || includes lowerDesc (L "heading levels"))
            (L "heading-order") rules in
  let rules :=
    push_if (includes lowerDesc (L "link text")
             || includes lowerDesc (L "link must have"))
            (L "link-name") rules in
  let rules :=
    push_if (includes lowerDesc (L "button must have")
             || includes lowerDesc (L "button text"))
            (L "button-name") rules in
  rules.

(** [LLMConfig]; the provider is the string found at run time. *)
Record LLMConfig := {
  provider : str;
  azureEndpoint : str;
  apiKey : str;
  deployment : option str;
  model : option str;
  temperature : option nat;
  maxTokens : option nat
}.

(** [!s] for a string: the empty string is falsy. *)
Definition is_empty (s : str) : bool :=
  match s with [] => true | _ => false end.

(** [!s] for an optional string. *)
Definition is_missing (s : option str) : bool :=
  match s with
  | None => true
  | Some s => is_empty s
  end.

Section Identify.
Variable identifyWithOpenAI : LLMConfig -> str -> str -> option (list str).
Variable identifyWithClaude : LLMConfig -> str -> str -> option (list str).

(** The body of the [try]: the rules the model returned, [None] when
    something was thrown. *)
Definition askModel (llmConfig : LLMConfig) (description fullContent : str)
  : option (list str) :=
  if eqb (provider llmConfig) (L "openai") then
    if is_missing (deployment llmConfig) then None
    else if is_empty (azureEndpoint llmConfig) || is_empty (apiKey llmConfig) then None
    else identifyWithOpenAI llmConfig description fullContent
  else if eqb (provider llmConfig) (L "claude") then
    if is_empty (azureEndpoint llmConfig) || is_empty (apiKey llmConfig) then None
    else identifyWithClaude llmConfig description fullContent
  else Some [].

(** The result: the rules and the [usedLLM] flag. *)
Definition identifyAxeRules (description fullContent : str)
    (llmConfig : option LLMConfig) : list str * bool :=
  match llmConfig with
  | None => (identifyWithKeywords description fullContent, false)
  | Some cfg =>
      match askModel cfg description fullContent with
      | None => (identifyWithKeywords description fullContent, false)
      | Some rules =>
          let validRules :=
            filter (fun rule => existsb (eqb rule) AXE_CORE_RULES) rules in
          if length validRules =? 0
          then (identifyWithKeywords description fullContent, false)
          else (validRules, true)
      end
  end.

End Identify.

End Rules.

(* ================================================================== *)
(** * The URLs of a Jira description ([parseJiraMarkdown], [parseIssueForTests]) *)

Module JiraParser.
Import Str.

(** [[^\s)]] *)
Definition not_space_paren (c : ascii) : bool :=
  negb (is_space c) && negb (is_char ")" c).

(** The URL pattern: [http], an optional [s], [://], and a run of one or
    more characters that are neither white space nor a closing
    parenthesis. *)
Definition urlPattern : str -> option nat :=
  first_of [ lit_then (L "https://") (plus_then not_space_paren done);
             lit_then (L "http://") (plus_then not_space_paren done) ].

(** The filter of [parseJiraMarkdown] on the URLs found. *)
Definition is_target (url : str) : bool :=
  let lowerUrl := toLowerCase url in
  negb (includes lowerUrl (L "atlassian.net"))
  && negb (includes lowerUrl (L "siteimprove.com"))
  && negb (includes lowerUrl (L "jira")).

(** The [urls] field of the result of [parseJiraMarkdown]. *)
Definition markdownUrls (content : str) : list str :=
  let urls := gmatch urlPattern content in
  let targetUrls := filter is_target urls in
  Crawler.uniq targetUrls.

(** The [urls] field of the result of [parseIssueForTests]: the URLs of the
    description or, when it has none, the environment's [TARGET_URL] if it
    is set and not empty. *)
Definition issueUrls (description : option str) (TARGET_URL : option str)
  : list str :=
  let description := Crawler.default [] description in
  let urls :=
    match gmatch urlPattern description with
    | [] => match TARGET_URL with
            | Some (c :: t) => [c :: t]
            | _ => []
            end
    | found => found
    end in
  Crawler.uniq urls.

End JiraParser.

(* ================================================================== *)
(** * Sample data of the action and of the parsers *)

Module ActionSamples.
Import Str Grouper Issues ActionRun.

Definition sample_config : ActionConfig :=
  {| websiteUrl := CrawlerSamples.home; maxPages := Some 0; maxDepth := None;
     includePatterns := None; excludePatterns := None;
     githubToken := L "token"; githubOwner := L "acme"; githubRepo := L "site";
     contextDepth := None |}.

(** Two pages of the sample site show the same button without a name. *)
Definition sample_tester (u : str) : TestOutcome :=
  if eqb u CrawlerSamples.home then Tested (Some [GrouperSamples.click_button])
  else if eqb u CrawlerSamples.page_b then Tested (Some [GrouperSamples.submit_button])
  else Tested None.

Definition clean_tester (u : str) : TestOutcome :=
  if eqb u CrawlerSamples.home then Tested (Some []) else Tested None.

Definition sample_run : ActionResult * Tracker :=
  runAction CrawlerSamples.path_of CrawlerSamples.site (Crawler.FetchRejected false)
            sample_tester sample_config 50 IssuesSamples.empty_tracker.

Definition sample_output : ActionOutput :=
  {| pages_scanned := 3; total_violations := 2; unique_violations := 1;
     issues_created := 1; issues_updated := 0 |}.

(** A model that answers with one rule axe knows and one it does not. *)
Definition sample_model (_ : Rules.LLMConfig) (_ _ : str) : option (list str) :=
  Some [L "image-alt"; L "made-up-rule"].

Definition sample_llm : Rules.LLMConfig :=
  {| Rules.provider := L "claude"; Rules.azureEndpoint := L "https://example.org/llm";
     Rules.apiKey := L "key"; Rules.deployment := None; Rules.model := None;
     Rules.temperature := None; Rules.maxTokens := None |}.

Definition sample_description : str :=
  L "See https://example.org/a (and https://jira.example.org/browse/A-1) or http://example.org/b.".

End ActionSamples.

(* ================================================================== *)
(** * The selector path of an element ([getCSSPath] of [src/a11yTester.ts])

    The function runs inside the page; of the document it reads, for the
    element and each of its ancestors, the node name, the id and the node
    names of the element siblings that come before. *)

Module CssPath.
Import Str Grouper.

Record DomElement := {
  nodeName : str;
  id : str;                      (* empty when the element has no id *)
  previousSiblings : list str    (* node names of the previous element siblings *)
}.

(** The rank of the element among its siblings of the same name. *)
Definition nth_of_type (el : DomElement) : nat :=
  1 + length (filter (fun n => eqb (toLowerCase n) (toLowerCase (nodeName el)))
                     (previousSiblings el)).

(** The selector of an element without id. *)
Definition positional (el : DomElement) : str :=
  let selector := toLowerCase (nodeName el) in
  let nth := nth_of_type el in
  if 1 <? nth then selector ++ L ":nth-of-type(" ++ of_nat nth ++ L ")"
  else selector.

(** The loop: [chain] is the current element followed by its ancestors,
    [path] holds the selectors so far; the walk stops at the first element
    with an id. *)
Fixpoint walk (chain : list DomElement) (path : list str) : list str :=
  match chain with
  | [] => path
  | currentEl :: parents =>
      match id currentEl with
      | [] => walk parents (positional currentEl :: path)
      | _ :: _ =>
          (toLowerCase (nodeName currentEl) ++ L "#" ++ id currentEl) :: path
      end
  end.

Definition getCSSPath (chain : list DomElement) : str :=
  join (L " > ") (walk chain []).

(** *** Notions used to state the properties *)

(** A letter, a digit, an underscore or a dash. *)
Definition simple (c : ascii) : bool := is_word c || (code c =? 45).

(** Node name and id are made of such characters, the name not empty. *)
Definition simple_element (el : DomElement) : Prop :=
  nodeName el <> [] /\
  Forall (fun c => simple c = true) (nodeName el) /\
  Forall (fun c => simple c = true) (id el).

(** The text of a selector before its [#]. *)
Definition before_hash (s : str) : str :=
  match index_where (is_char "#") s with
  | Some j => firstn j s
  | None => s
  end.

(** The shape of a selector of the path. *)
Definition selector_shape (s : str) : Prop :=
  exists name tail,
    s = name ++ tail /\ name <> [] /\ Forall (fun c => simple c = true) name /\
    (tail = [] \/
     (exists i, i <> [] /\ Forall (fun c => simple c = true) i /\ tail = L "#" ++ i) \/
     (exists n, tail = L ":nth-of-type(" ++ of_nat n ++ L ")")).

(** A list item of a page, third of its kind, under a list with an id. *)
Definition sample_chain : list DomElement :=
  [ {| nodeName := L "LI"; id := []; previousSiblings := [L "LI"; L "LI"] |};
    {| nodeName := L "UL"; id := []; previousSiblings := [L "P"; L "UL"] |};
    {| nodeName := L "NAV"; id := []; previousSiblings := [] |};
    {| nodeName := L "DIV"; id := L "main-42"; previousSiblings := [L "DIV"] |};
    {| nodeName := L "BODY"; id := []; previousSiblings := [L "HEAD"] |} ].

End CssPath.

(* ================================================================== *)
(** * Facts about strings and sorting *)

Module StrFacts.
Import Str.

Lemma eqb_eq (a b : str) : eqb a b = true <-> a = b.
Proof.
  revert b; induction a as [|x a IH]; intros [|y b]; simpl; split;
    try congruence; try reflexivity.
  - intros H. apply andb_true_iff in H as [Hc Hr].
    apply Ascii.eqb_eq in Hc. apply IH in Hr. congruence.
  - intros H. inversion H; subst. rewrite Ascii.eqb_refl. simpl. now apply IH.
Qed.

Lemma eqb_refl (a : str) : eqb a a = true.
Proof. now apply eqb_eq. Qed.

Lemma eqb_neq (a b : str) : eqb a b = false <-> a <> b.
Proof.
  split.
  - intros H E. apply eqb_eq in E. congruence.
  - intros H. destruct (eqb a b) eqn:E; [|reflexivity].
    apply eqb_eq in E. contradiction.
Qed.

Lemma eqb_sym (a b : str) : eqb a b = eqb b a.
Proof.
  destruct (eqb a b) eqn:E.
  - apply eqb_eq in E. subst. now rewrite eqb_refl.
  - destruct (eqb b a) eqn:E'; [|reflexivity].
    apply eqb_eq in E'. subst. now rewrite eqb_refl in E.
Qed.

Section SortFacts.
Context {A : Type} (le : A -> A -> bool).

Lemma insert_perm (x : A) (l : list A) : Permutation (insert le x l) (x :: l).
Proof.
  induction l as [|y l IH]; simpl; [reflexivity|].
  destruct (le x y); [reflexivity|].
  rewrite IH. apply perm_swap.
Qed.

Lemma sort_perm (l : list A) : Permutation (sort le l) l.
Proof.
  induction l as [|x l IH]; simpl; [reflexivity|].
  unfold sort in IH. rewrite insert_perm. now constructor.
Qed.

Lemma sort_In (l : list A) (x : A) : In x (sort le l) <-> In x l.
Proof.
  split; apply Permutation_in; [|symmetry]; apply sort_perm.
Qed.

Lemma filter_perm (f : A -> bool) (l l' : list A) :
  Permutation l l' -> Permutation (filter f l) (filter f l').
Proof.
  induction 1 as [|x l l' H IH|x y l|l l' l'' H1 IH1 H2 IH2]; simpl.
  - constructor.
  - destruct (f x); [now constructor|exact IH].
  - destruct (f x), (f y); try reflexivity. apply perm_swap.
  - now transitivity (filter f l').
Qed.

(** With a comparator that is total and transitive on the elements at
    hand (those satisfying [P]) the result is sorted. *)
Variable P : A -> Prop.
Hypothesis le_total : forall a b, P a -> P b -> le a b = true \/ le b a = true.
Hypothesis le_trans : forall a b c, P a -> P b -> P c ->
    le a b = true -> le b c = true -> le a c = true.

Lemma insert_sorted (x : A) (l : list A) :
  P x -> Forall P l ->
  StronglySorted (fun a b => le a b = true) l ->
  StronglySorted (fun a b => le a b = true) (insert le x l).
Proof.
  intros Px HP. induction 1 as [|y l Hs IH Hy]; simpl.
  - constructor; constructor.
  - inversion HP as [|? ? Py HPl]; subst.
    destruct (le x y) eqn:E.
    + constructor; [now constructor|].
      constructor; [exact E|].
      rewrite Forall_forall in *. intros z Hz. apply (le_trans x y z); auto.
    + constructor; [now apply IH|].
      rewrite Forall_forall in *. intros z Hz.
      apply (Permutation_in _ (insert_perm x l)) in Hz. destruct Hz as [<-|Hz].
      * destruct (le_total x y Px Py) as [H|H]; congruence.
      * now apply Hy.
Qed.

Lemma sort_sorted (l : list A) :
  Forall P l -> StronglySorted (fun a b => le a b = true) (sort le l).
Proof.
  induction 1 as [|x l Px HP IH]; simpl; [constructor|].
  apply insert_sorted; auto.
  now rewrite (sort_perm l).
Qed.
End SortFacts.

End StrFacts.

(* ================================================================== *)
(** * Facts about grouping *)

Module GrouperFacts.
Import Str Grouper GrouperSpec StrFacts.

(** ** The map of groups *)

Lemma map_has_In (k : str) (m : GroupMap) :
  map_has k m = true <-> In k (map fst m).
Proof.
  induction m as [|[k' g] m IH]; simpl; [split; [discriminate|tauto]|].
  rewrite orb_true_iff, IH, eqb_eq. split; intros [H|H]; auto.
Qed.

Lemma map_set_absent (k : str) (g : ViolationGroup) (m : GroupMap) :
  map_has k m = false -> map_set k g m = m ++ [(k, g)].
Proof.
  induction m as [|[k' g'] m IH]; simpl; [reflexivity|].
  intros H. apply orb_false_iff in H as [H1 H2].
  rewrite H1. now rewrite IH.
Qed.

Lemma map_get_absent_snoc (k : str) (g : ViolationGroup) (m : GroupMap) :
  map_has k m = false -> map_get k (m ++ [(k, g)]) = Some g.
Proof.
  induction m as [|[k' g'] m IH]; simpl.
  - now rewrite eqb_refl.
  - intros H. apply orb_false_iff in H as [H1 H2]. rewrite H1. now apply IH.
Qed.

Lemma map_set_absent_snoc (k : str) (g g' : ViolationGroup) (m : GroupMap) :
  map_has k m = false -> map_set k g' (m ++ [(k, g)]) = m ++ [(k, g')].
Proof.
  induction m as [|[k' g0] m IH]; simpl.
  - now rewrite eqb_refl.
  - intros H. apply orb_false_iff in H as [H1 H2]. rewrite H1. now rewrite IH.
Qed.

Lemma map_present (k : str) (m : GroupMap) :
  map_has k m = true ->
  exists pre g0 post,
    m = pre ++ (k, g0) :: post /\ map_has k pre = false /\
    map_get k m = Some g0 /\
    forall g, map_set k g m = pre ++ (k, g) :: post.
Proof.
  induction m as [|[k' g'] m IH]; simpl; [discriminate|].
  destruct (eqb k k') eqn:E.
  - intros _. apply eqb_eq in E. subst k'.
    exists [], g', m. repeat split; reflexivity.
  - simpl. intros H. destruct (IH H) as (pre & g0 & post & -> & Hpre & Hget & Hset).
    exists ((k', g') :: pre), g0, post. simpl. rewrite E. simpl.
    repeat split; auto. intros g. now rewrite Hset.
Qed.

(** What one turn of the inner loop does to the map. *)
Lemma add_violation_new (u : str) (m : GroupMap) (v : ViolationWithContext) :
  map_has (createViolationSignature v) m = false ->
  add_violation u m v =
    m ++ [(createViolationSignature v,
           bump_total (push_occurrence (occurrence_of u v)
                         (new_group (createViolationSignature v) v)))].
Proof.
  intros H. unfold add_violation. rewrite H.
  rewrite (map_set_absent _ _ _ H), (map_get_absent_snoc _ _ _ H).
  now apply map_set_absent_snoc.
Qed.

Lemma add_violation_old (u : str) (m : GroupMap) (v : ViolationWithContext) :
  map_has (createViolationSignature v) m = true ->
  exists pre g0 post,
    m = pre ++ (createViolationSignature v, g0) :: post /\
    map_has (createViolationSignature v) pre = false /\
    add_violation u m v =
      pre ++ (createViolationSignature v,
              bump_total (push_occurrence (occurrence_of u v) g0)) :: post.
Proof.
  intros H. unfold add_violation. rewrite H.
  destruct (map_present _ _ H) as (pre & g0 & post & Hm & Hpre & Hget & Hset).
  exists pre, g0, post. rewrite Hget, Hset. auto.
Qed.

(** ** The instances of a run, page after page *)

Lemma add_page_items (e : str * list ViolationWithContext) (m : GroupMap) :
  add_page m e = fold_left add_item (map (pair (fst e)) (snd e)) m.
Proof.
  unfold add_page. destruct e as [u vs]. simpl. revert m.
  induction vs as [|v vs IH]; intros m; simpl; [reflexivity|]. now rewrite IH.
Qed.

Lemma fold_pages_items (entries : list (str * list ViolationWithContext)) (m : GroupMap) :
  fold_left add_page entries m = fold_left add_item (items entries) m.
Proof.
  revert m. induction entries as [|e es IH]; intros m; simpl; [reflexivity|].
  rewrite fold_left_app, IH. now rewrite add_page_items.
Qed.

Lemma occs_of_app (k : str) (a b : list Item) :
  occs_of k (a ++ b) = occs_of k a ++ occs_of k b.
Proof. unfold occs_of. now rewrite filter_app, map_app. Qed.

Lemma occs_of_none (k : str) (its : list Item) :
  (forall it, In it its -> sig_of it <> k) -> occs_of k its = [].
Proof.
  unfold occs_of. induction its as [|it its IH]; intros H; simpl; [reflexivity|].
  destruct (eqb k (sig_of it)) eqn:E.
  - apply eqb_eq in E. exfalso. apply (H it); [now left|congruence].
  - apply IH. intros it' Hin. apply H. now right.
Qed.

Lemma first_with_app_l (k : str) (a b : list Item) (it : Item) :
  first_with k a = Some it -> first_with k (a ++ b) = Some it.
Proof.
  unfold first_with. induction a as [|x a IH]; simpl; [discriminate|].
  destruct (eqb k (sig_of x)); auto.
Qed.

Lemma first_with_app_r (k : str) (a b : list Item) :
  (forall it, In it a -> sig_of it <> k) ->
  first_with k (a ++ b) = first_with k b.
Proof.
  unfold first_with. induction a as [|x a IH]; intros H; simpl; [reflexivity|].
  destruct (eqb k (sig_of x)) eqn:E.
  - apply eqb_eq in E. exfalso. apply (H x); [now left|congruence].
  - apply IH. intros it Hin. apply H. now right.
Qed.

Lemma first_with_some (k : str) (its : list Item) (it : Item) :
  first_with k its = Some it -> In it its /\ sig_of it = k.
Proof.
  intros H. apply find_some in H as [H1 H2]. apply eqb_eq in H2. auto.
Qed.

Lemma grouped_nil : grouped [] [].
Proof.
  constructor; simpl; [constructor | tauto | tauto].
Qed.

Lemma group_of_snoc_other (k : str) (v : ViolationWithContext) (its : list Item)
    (it : Item) :
  sig_of it <> k -> group_of k v (its ++ [it]) = group_of k v its.
Proof.
  intros H. unfold group_of. rewrite occs_of_app.
  rewrite (occs_of_none k [it]), app_nil_r; [reflexivity|].
  intros it' [<-|[]]. exact H.
Qed.

Lemma occs_of_snoc_same (its : list Item) (it : Item) :
  occs_of (sig_of it) (its ++ [it])
  = occs_of (sig_of it) its ++ [occurrence_of (fst it) (snd it)].
Proof.
  rewrite occs_of_app. f_equal. unfold occs_of. simpl. now rewrite eqb_refl.
Qed.

Lemma group_of_snoc_same (v0 : ViolationWithContext) (its : list Item) (it : Item) :
  bump_total (push_occurrence (occurrence_of (fst it) (snd it))
                (group_of (sig_of it) v0 its))
  = group_of (sig_of it) v0 (its ++ [it]).
Proof.
  unfold group_of, bump_total, push_occurrence. cbn [g_signature g_ruleId g_impact
    g_description g_help g_helpUrl g_wcagTags g_exampleHtml g_exampleSelector
    g_occurrences g_totalOccurrences].
  rewrite occs_of_snoc_same, length_app. simpl. f_equal. lia.
Qed.

Lemma group_of_first (its : list Item) (it : Item) :
  (forall it', In it' its -> sig_of it' <> sig_of it) ->
  bump_total (push_occurrence (occurrence_of (fst it) (snd it))
                (new_group (sig_of it) (snd it)))
  = group_of (sig_of it) (snd it) (its ++ [it]).
Proof.
  intros H. unfold group_of, bump_total, push_occurrence, new_group. simpl.
  rewrite occs_of_app, (occs_of_none _ its H).
  unfold occs_of. simpl. now rewrite eqb_refl.
Qed.

Lemma grouped_step (its : list Item) (m : GroupMap) (it : Item) :
  grouped its m -> grouped (its ++ [it]) (add_item m it).
Proof.
  intros [Hnd Hent Hcov]. unfold add_item.
  assert (Hother : forall k g, In (k, g) m -> k <> sig_of it ->
            exists it', first_with k (its ++ [it]) = Some it' /\
                        g = group_of k (snd it') (its ++ [it])).
  { intros k g Hin Hk. destruct (Hent k g Hin) as (it' & Hf & ->).
    exists it'. split; [now apply first_with_app_l|].
    symmetry. apply group_of_snoc_other. congruence. }
  destruct (map_has (sig_of it) m) eqn:Hhas.
  - destruct (add_violation_old (fst it) m (snd it) Hhas)
      as (pre & g0 & post & Hm & Hpre & ->).
    fold (sig_of it) in *. subst m.
    assert (Hkeys : map fst (pre ++ (sig_of it,
                       bump_total (push_occurrence (occurrence_of (fst it) (snd it)) g0)) :: post)
                    = map fst (pre ++ (sig_of it, g0) :: post)).
    { now rewrite !map_app. }
    constructor.
    + now rewrite Hkeys.
    + intros k g Hin.
      apply in_app_or in Hin. destruct Hin as [Hin|[Heq|Hin]].
      * apply Hother; [apply in_or_app; now left|].
        intros ->. rewrite map_app in Hnd. simpl in Hnd.
        apply NoDup_remove_2 in Hnd. apply Hnd, in_or_app. left.
        now apply (in_map fst) in Hin.
      * inversion Heq; subst k g.
        destruct (Hent (sig_of it) g0) as (it0 & Hf & ->);
          [apply in_or_app; right; now left|].
        exists it0. split; [now apply first_with_app_l|].
        apply group_of_snoc_same.
      * apply Hother; [apply in_or_app; right; now right|].
        intros ->. rewrite map_app in Hnd. simpl in Hnd.
        apply NoDup_remove_2 in Hnd. apply Hnd, in_or_app. right.
        now apply (in_map fst) in Hin.
    + intros it' Hin. rewrite Hkeys. apply in_app_or in Hin.
      destruct Hin as [Hin|[<-|[]]].
      * now apply Hcov.
      * rewrite map_app. apply in_or_app. right. now left.
  - rewrite (add_violation_new (fst it) m (snd it) Hhas). fold (sig_of it).
    assert (Hfresh : ~ In (sig_of it) (map fst m)).
    { intros H. apply map_has_In in H. congruence. }
    assert (Hnone : forall it', In it' its -> sig_of it' <> sig_of it).
    { intros it' Hin Hs. apply Hfresh. rewrite <- Hs. now apply Hcov. }
    constructor.
    + rewrite map_app. simpl.
      apply (Permutation_NoDup (Permutation_cons_append (map fst m) (sig_of it))).
      now constructor.
    + intros k g Hin.
      apply in_app_or in Hin. destruct Hin as [Hin|[Heq|[]]].
      * apply Hother; [exact Hin|].
        intros ->. apply Hfresh. now apply (in_map fst) in Hin.
      * inversion Heq; subst k g. exists it. split.
        -- rewrite first_with_app_r by exact Hnone.
           unfold first_with. simpl. now rewrite eqb_refl.
        -- now apply group_of_first.
    + intros it' Hin. rewrite map_app. apply in_or_app.
      apply in_app_or in Hin. destruct Hin as [Hin|[<-|[]]].
      * left. now apply Hcov.
      * right. now left.
Qed.

Lemma grouped_fold (rest its : list Item) (m : GroupMap) :
  grouped its m -> grouped (its ++ rest) (fold_left add_item rest m).
Proof.
  revert its m. induction rest as [|it rest IH]; intros its m H; simpl.
  - now rewrite app_nil_r.
  - replace (its ++ it :: rest) with ((its ++ [it]) ++ rest)
      by (now rewrite <- app_assoc).
    apply IH. now apply grouped_step.
Qed.

Lemma grouped_pages (entries : list (str * list ViolationWithContext)) :
  grouped (items entries) (fold_left add_page entries []).
Proof.
  rewrite fold_pages_items. apply (grouped_fold (items entries) [] []), grouped_nil.
Qed.

(** Membership in the result, in terms of the map built by the loop. *)
Lemma in_groupViolations (entries : list (str * list ViolationWithContext))
    (g : ViolationGroup) :
  In g (groupViolations entries) <->
  exists k, In (k, g) (fold_left add_page entries []).
Proof.
  unfold groupViolations. rewrite sort_In, in_map_iff. split.
  - intros ([k g'] & <- & H). now exists k.
  - intros (k & H). now exists (k, g).
Qed.

Lemma group_of_ranked (k : str) (v : ViolationWithContext) (its : list Item) :
  ranked (group_of k v its).
Proof.
  unfold ranked. simpl. destruct (impact v) as [[]|]; vm_compute; eauto.
Qed.

Lemma group_le_total (a b : ViolationGroup) :
  ranked a -> ranked b -> group_le a b = true \/ group_le b a = true.
Proof.
  intros [x Hx] [y Hy]. unfold group_le, compare_groups. rewrite Hx, Hy.
  destruct (Z.eqb_spec (x - y) 0), (Z.eqb_spec (y - x) 0); simpl;
    rewrite ?Z.leb_le; lia.
Qed.

Lemma group_le_trans (a b c : ViolationGroup) :
  ranked a -> ranked b -> ranked c ->
  group_le a b = true -> group_le b c = true -> group_le a c = true.
Proof.
  intros [x Hx] [y Hy] [z Hz]. unfold group_le, compare_groups.
  rewrite Hx, Hy, Hz.
  destruct (Z.eqb_spec (x - y) 0), (Z.eqb_spec (y - z) 0), (Z.eqb_spec (x - z) 0);
    simpl; rewrite ?Z.leb_le; lia.
Qed.

Lemma groupViolations_spec (entries : list (str * list ViolationWithContext))
    (g : ViolationGroup) :
  In g (groupViolations entries) ->
  exists it, first_with (g_signature g) (items entries) = Some it /\
             g = group_of (g_signature g) (snd it) (items entries).
Proof.
  intros H. apply in_groupViolations in H as (k & H).
  destruct (grouped_entry _ _ (grouped_pages entries) k g H) as (it & Hf & Hg).
  assert (g_signature g = k) as -> by (now subst g).
  eauto.
Qed.

Lemma groupViolations_cover (entries : list (str * list ViolationWithContext))
    (it : Item) :
  In it (items entries) ->
  exists g, In g (groupViolations entries) /\ g_signature g = sig_of it.
Proof.
  intros H. apply (grouped_cover _ _ (grouped_pages entries)) in H.
  apply in_map_iff in H as ([k g] & Hk & Hin). simpl in Hk. subst k.
  exists g. split; [apply in_groupViolations; eauto|].
  destruct (grouped_entry _ _ (grouped_pages entries) _ _ Hin) as (it' & _ & ->).
  reflexivity.
Qed.

Lemma groupViolations_nodup (entries : list (str * list ViolationWithContext)) :
  NoDup (map g_signature (groupViolations entries)).
Proof.
  unfold groupViolations.
  apply (Permutation_NoDup (l := map g_signature (map snd (fold_left add_page entries [])))).
  - apply Permutation_map. symmetry. apply sort_perm.
  - pose proof (grouped_pages entries) as G.
    replace (map g_signature (map snd (fold_left add_page entries [])))
      with (map fst (fold_left add_page entries [])); [apply (grouped_nodup _ _ G)|].
    rewrite map_map. apply map_ext_in. intros [k g] Hin. simpl.
    destruct (grouped_entry _ _ G k g Hin) as (it & _ & ->). reflexivity.
Qed.

Lemma in_items (entries : list (str * list ViolationWithContext))
    (u : str) (vs : list ViolationWithContext) (v : ViolationWithContext) :
  In (u, vs) entries -> In v vs -> In (u, v) (items entries).
Proof.
  intros H1 H2. unfold items. apply in_flat_map. exists (u, vs). split; [exact H1|].
  simpl. now apply in_map.
Qed.

Lemma in_occs_of (its : list Item) (it : Item) :
  In it its -> In (occurrence_of (fst it) (snd it)) (occs_of (sig_of it) its).
Proof.
  intros H. unfold occs_of.
  apply (in_map (fun it0 => occurrence_of (fst it0) (snd it0))).
  apply filter_In. split; [exact H|apply eqb_refl].
Qed.

(** Every instance is recorded in the group of its signature. *)
Lemma instance_recorded (entries : list (str * list ViolationWithContext))
    (u : str) (vs : list ViolationWithContext) (v : ViolationWithContext) :
  In (u, vs) entries -> In v vs ->
  exists g, In g (groupViolations entries) /\
            g_signature g = createViolationSignature v /\
            In (occurrence_of u v) (g_occurrences g).
Proof.
  intros H1 H2. pose proof (in_items _ _ _ _ H1 H2) as Hit.
  destruct (groupViolations_cover entries (u, v) Hit) as (g & Hg & Hs).
  exists g. repeat split; auto.
  destruct (groupViolations_spec entries g Hg) as (it & _ & ->).
  simpl. simpl in Hs. rewrite Hs. apply (in_occs_of _ (u, v) Hit).
Qed.

Lemma total_sum_step (m : GroupMap) (it : Item) :
  total_sum (map snd (add_item m it)) = S (total_sum (map snd m)).
Proof.
  unfold add_item, total_sum.
  destruct (map_has (createViolationSignature (snd it)) m) eqn:Hhas.
  - destruct (add_violation_old (fst it) m (snd it) Hhas)
      as (pre & g0 & post & -> & _ & ->).
    rewrite !map_app, !list_sum_app. simpl. lia.
  - rewrite (add_violation_new _ _ _ Hhas).
    rewrite !map_app, !list_sum_app. simpl. lia.
Qed.

Lemma total_sum_fold (its : list Item) (m : GroupMap) :
  total_sum (map snd (fold_left add_item its m)) = length its + total_sum (map snd m).
Proof.
  revert m. induction its as [|it its IH]; intros m; simpl; [reflexivity|].
  rewrite IH, total_sum_step. lia.
Qed.

Lemma length_items (entries : list (str * list ViolationWithContext)) :
  length (items entries) = list_sum (map (fun e => length (snd e)) entries).
Proof.
  unfold items. induction entries as [|e es IH]; [reflexivity|].
  cbn [flat_map map]. rewrite length_app, length_map.
  change (list_sum (?a :: ?l)) with (a + list_sum l). f_equal. exact IH.
Qed.

Lemma total_sum_groupViolations (entries : list (str * list ViolationWithContext)) :
  total_sum (groupViolations entries) = list_sum (map (fun e => length (snd e)) entries).
Proof.
  unfold groupViolations, total_sum.
  rewrite (Permutation_list_sum (Permutation_map _ (sort_perm group_le _))).
  fold (total_sum (map snd (fold_left add_page entries []))).
  rewrite fold_pages_items, total_sum_fold, length_items. simpl.
  unfold total_sum. simpl. lia.
Qed.

End GrouperFacts.

(* ================================================================== *)
(** * Properties of the signature engine *)

Module GrouperClaims.
Import Str Grouper GrouperSpec GrouperSamples StrFacts GrouperFacts.

(** ** Counter and occurrence list *)

(** C10: every group returned by [groupViolations] has a [totalOccurrences]
    equal to the length of its [occurrences], and at least 1. *)
Theorem total_is_occurrence_count
    (entries : list (str * list ViolationWithContext)) (g : ViolationGroup) :
  In g (groupViolations entries) ->
  g_totalOccurrences g = length (g_occurrences g) /\ 1 <= g_totalOccurrences g.
Proof.
  intros H. destruct (groupViolations_spec entries g H) as (it & Hf & Hg).
  rewrite Hg. simpl. split; [reflexivity|].
  apply first_with_some in Hf as [Hin Hs].
  pose proof (in_occs_of _ _ Hin) as Hocc. rewrite Hs in Hocc.
  destruct (occs_of (g_signature g) (items entries)); [destruct Hocc|simpl; lia].
Qed.

Lemma total_is_occurrence_count_witness :
  In (first_group pages_ab) (groupViolations pages_ab) /\
  g_totalOccurrences (first_group pages_ab)
    = length (g_occurrences (first_group pages_ab)) /\
  1 <= g_totalOccurrences (first_group pages_ab).
Proof.
  assert (H : In (first_group pages_ab) (groupViolations pages_ab))
    by (vm_compute; left; reflexivity).
  split; [exact H|].
  exact (total_is_occurrence_count pages_ab (first_group pages_ab) H).
Defined.

(** ** No instance is dropped *)

(** C8: the [totalOccurrences] of the returned groups add up to the number
    of instances of the input, every instance is recorded as an occurrence
    of the group of its signature, and an instance whose opening tag cannot
    be parsed gets the hash of its rule and of the first 100 characters of
    its normalized HTML as its signature. *)
Theorem no_instance_dropped (entries : list (str * list ViolationWithContext)) :
  list_sum (map g_totalOccurrences (groupViolations entries))
    = list_sum (map (fun e => length (snd e)) entries)
  /\ (forall u vs v, In (u, vs) entries -> In v vs ->
        exists g, In g (groupViolations entries) /\
                  g_signature g = createViolationSignature v /\
                  In (occurrence_of u v) (g_occurrences g))
  /\ (forall v, elementMatch (normalizeHtml (html v)) = None ->
        createViolationSignature v
        = MD5.digest (ruleId v ++ L ":" ++ substring0 100 (normalizeHtml (html v)))).
Proof.
  split; [apply total_sum_groupViolations|]. split.
  - apply instance_recorded.
  - intros v H. unfold createViolationSignature. now rewrite H.
Qed.

Lemma no_instance_dropped_witness :
  list_sum (map g_totalOccurrences (groupViolations pages_ab)) = 3 /\
  elementMatch (normalizeHtml (html bare_text)) = None /\
  createViolationSignature bare_text
  = MD5.digest (L "region:some text outside any landmark").
Proof.
  destruct (no_instance_dropped pages_ab) as (Hsum & _ & Hfall).
  split; [exact Hsum|].
  assert (Hnone : elementMatch (normalizeHtml (html bare_text)) = None)
    by (vm_compute; reflexivity).
  split; [exact Hnone|].
  exact (Hfall bare_text Hnone).
Defined.

(** ** The selector pattern *)

(** C5, evaluated on the code: the pattern of a selector whose last
    segments carry [:nth-of-type(n)] keeps the positional qualifier (the
    expression that is meant to remove it only removes a colon followed by
    digits), so two siblings of the same shape get different patterns. *)
Theorem selectorPattern_keeps_nth_of_type :
  selectorPattern (L "html > body > div#main > ul:nth-of-type(2) > li")
    = L "div > ul:nth-of-type(2) > li"
  /\ selectorPattern (L "html > body > div#main > ul:nth-of-type(3) > li")
    = L "div > ul:nth-of-type(3) > li"
  /\ selectorPattern (L "html > body > div#main > ul:2 > li")
    = L "div > ul > li".
Proof. repeat split; vm_compute; reflexivity. Qed.

(** ** Iteration order *)

(** C3, as stated, fails: the same two pages in the other order give
    another array (another representative HTML, another order of the
    occurrences). *)
Lemma groupViolations_depends_on_order :
  Permutation pages_ab pages_ba /\
  groupViolations pages_ab <> groupViolations pages_ba.
Proof.
  split; [apply perm_swap|].
  intros H. apply (f_equal (map g_exampleHtml)) in H.
  vm_compute in H. discriminate H.
Qed.

Lemma occs_of_perm (k : str) (a b : list Item) :
  Permutation a b -> Permutation (occs_of k a) (occs_of k b).
Proof.
  intros H. unfold occs_of. apply Permutation_map. now apply filter_perm.
Qed.

Lemma items_perm (e1 e2 : list (str * list ViolationWithContext)) :
  Permutation e1 e2 -> Permutation (items e1) (items e2).
Proof. intros H. unfold items. now apply Permutation_flat_map. Qed.

Lemma sig_total_transfer (e1 e2 : list (str * list ViolationWithContext))
    (x : str * nat) :
  Permutation e1 e2 ->
  In x (map sig_total (groupViolations e1)) ->
  In x (map sig_total (groupViolations e2)).
Proof.
  intros HP H. apply in_map_iff in H as (g & <- & Hg).
  destruct (groupViolations_spec e1 g Hg) as (it & Hf & Hgeq).
  apply first_with_some in Hf as [Hin Hs].
  apply (Permutation_in _ (items_perm _ _ HP)) in Hin.
  destruct (groupViolations_cover e2 it Hin) as (g2 & Hg2 & Hs2).
  apply in_map_iff. exists g2. split; [|exact Hg2].
  destruct (groupViolations_spec e2 g2 Hg2) as (it2 & _ & Hg2eq).
  unfold sig_total. rewrite Hs2, Hs. f_equal.
  rewrite Hgeq, Hg2eq. simpl. rewrite Hs2, Hs.
  apply Permutation_length. apply occs_of_perm. symmetry. now apply items_perm.
Qed.

Lemma sig_total_nodup (e : list (str * list ViolationWithContext)) :
  NoDup (map sig_total (groupViolations e)).
Proof.
  apply (NoDup_map_inv fst). rewrite map_map. simpl.
  apply groupViolations_nodup.
Qed.

Lemma groupViolations_sorted (e : list (str * list ViolationWithContext)) :
  StronglySorted (fun a b => group_le a b = true) (groupViolations e).
Proof.
  unfold groupViolations.
  apply (sort_sorted group_le ranked group_le_total group_le_trans).
  apply Forall_forall. intros g Hg.
  assert (Hin : In g (groupViolations e)) by (unfold groupViolations; now apply sort_In).
  destruct (groupViolations_spec e g Hin) as (it & _ & ->). apply group_of_ranked.
Qed.

(** C3, amended: the result is a function of the entries in their
    iteration order, each group taking its representative fields from the
    first instance with its signature and listing its occurrences in the
    order met; for the same entries in another order the result has the
    same signatures with the same [totalOccurrences] and, signature by
    signature, the same occurrences up to their order; both results are
    sorted by impact and then by decreasing [totalOccurrences]. *)
Theorem groupViolations_up_to_order
    (e1 e2 : list (str * list ViolationWithContext)) :
  Permutation e1 e2 ->
  (forall g, In g (groupViolations e1) ->
     exists it, first_with (g_signature g) (items e1) = Some it /\
                g = group_of (g_signature g) (snd it) (items e1))
  /\ Permutation (map sig_total (groupViolations e1))
                 (map sig_total (groupViolations e2))
  /\ (forall g1 g2, In g1 (groupViolations e1) -> In g2 (groupViolations e2) ->
        g_signature g1 = g_signature g2 ->
        Permutation (g_occurrences g1) (g_occurrences g2))
  /\ StronglySorted (fun a b => group_le a b = true) (groupViolations e1)
  /\ StronglySorted (fun a b => group_le a b = true) (groupViolations e2).
Proof.
  intros HP. split; [apply groupViolations_spec|]. split; [|split].
  - apply NoDup_Permutation; try apply sig_total_nodup.
    intros x. split; apply sig_total_transfer; [exact HP|now symmetry].
  - intros g1 g2 H1 H2 Hs.
    destruct (groupViolations_spec e1 g1 H1) as (it1 & _ & ->).
    destruct (groupViolations_spec e2 g2 H2) as (it2 & _ & ->).
    simpl in *. rewrite Hs. apply occs_of_perm. now apply items_perm.
  - split; apply groupViolations_sorted.
Qed.

Lemma groupViolations_up_to_order_witness :
  Permutation pages_ab pages_ba /\
  Permutation (map sig_total (groupViolations pages_ab))
              (map sig_total (groupViolations pages_ba)).
Proof.
  assert (HP : Permutation pages_ab pages_ba) by apply perm_swap.
  split; [exact HP|].
  exact (proj1 (proj2 (groupViolations_up_to_order pages_ab pages_ba HP))).
Defined.

End GrouperClaims.

(* ================================================================== *)
(** * Properties of the reconciliation engine *)

Module IssuesClaims.
Import Str Grouper Issues IssuesSpec IssuesSamples StrFacts.

(** ** Matching *)

Lemma findMatchingIssue_none (g : ViolationGroup) (l : list Issue) :
  findMatchingIssue g l = None <-> forall i, In i l -> carries g i = false.
Proof.
  unfold carries, embeds_token, title_names_rule.
  induction l as [|i l IH]; simpl; [tauto|].
  destruct (includes (body i) (signature_token (g_signature g))) eqn:E1.
  - split; [discriminate|]. intros H. specialize (H i (or_introl eq_refl)).
    rewrite E1 in H. discriminate.
  - destruct (includes (title i) (g_ruleId g)) eqn:E2.
    + split; [discriminate|]. intros H. specialize (H i (or_introl eq_refl)).
      rewrite E1, E2 in H. discriminate.
    + rewrite IH. split.
      * intros H j [<-|Hj]; [now rewrite E1, E2|now apply H].
      * intros H j Hj. apply H. now right.
Qed.

Lemma findMatchingIssue_some (g : ViolationGroup) (l : list Issue) (i : Issue) :
  findMatchingIssue g l = Some i ->
  exists pre post, l = pre ++ i :: post /\
    (forall j, In j pre -> carries g j = false) /\ carries g i = true.
Proof.
  unfold carries, embeds_token, title_names_rule.
  induction l as [|x l IH]; simpl; [discriminate|].
  destruct (includes (body x) (signature_token (g_signature g))) eqn:E1.
  - intros [= <-]. exists [], l. simpl. rewrite E1. repeat split; tauto.
  - destruct (includes (title x) (g_ruleId g)) eqn:E2.
    + intros [= <-]. exists [], l. simpl. rewrite E1, E2. repeat split; tauto.
    + intros H. destruct (IH H) as (pre & post & -> & Hpre & Hi).
      exists (x :: pre), post. repeat split; auto.
      intros j [<-|Hj]; [now rewrite E1, E2|now apply Hpre].
Qed.

Lemma length_modify (n : nat) (f : Issue -> Issue) (t : Tracker) :
  length (issues (modify n f t)) = length (issues t).
Proof. unfold modify. simpl. apply length_map. Qed.

Lemma count_created_app (a b : list IssueResult) :
  count_created (a ++ b) = count_created a + count_created b.
Proof. unfold count_created. now rewrite filter_app, length_app. Qed.

Lemma sync_fold (c : GitHubConfig) (existing : list Issue)
    (groups : list ViolationGroup) (acc : list IssueResult) (t : Tracker) :
  exists rs,
    fst (fold_left (sync_group c existing) groups (acc, t)) = acc ++ rs /\
    Forall2 (result_for existing) groups rs /\
    length (issues (snd (fold_left (sync_group c existing) groups (acc, t))))
      = length (issues t) + count_created rs.
Proof.
  revert acc t. induction groups as [|g gs IH]; intros acc t; simpl.
  - exists []. rewrite app_nil_r.
    split; [reflexivity|split; [apply Forall2_nil|unfold count_created; simpl; lia]].
  - destruct (findMatchingIssue g existing) as [i|] eqn:E.
    + destruct (IH (acc ++ [fst (updateIssue c (number i) g t)])
                   (snd (updateIssue c (number i) g t))) as (rs & H1 & H2 & H3).
      exists (fst (updateIssue c (number i) g t) :: rs).
      unfold updateIssue in *. simpl in *. rewrite H1, <- app_assoc. simpl.
      split; [reflexivity|split].
      * constructor; [|exact H2]. unfold result_for. rewrite E. simpl. auto.
      * rewrite H3. rewrite length_map. unfold count_created. simpl. lia.
    + destruct (IH (acc ++ [fst (createIssue c g t)])
                   (snd (createIssue c g t))) as (rs & H1 & H2 & H3).
      exists (fst (createIssue c g t) :: rs).
      unfold createIssue in *. simpl in *. rewrite H1, <- app_assoc. simpl.
      split; [reflexivity|split].
      * constructor; [|exact H2]. unfold result_for. rewrite E. simpl. auto.
      * rewrite H3. unfold count_created. simpl. lia.
Qed.

Lemma length_closeResolved (existing : list Issue) (groups : list ViolationGroup)
    (t : Tracker) :
  length (issues (closeResolvedIssues existing groups t)) = length (issues t).
Proof.
  unfold closeResolvedIssues. revert t.
  induction existing as [|i l IH]; intros t; simpl; [reflexivity|].
  rewrite IH. unfold close_if_resolved.
  destruct (embedded_signature (body i)); [|reflexivity].
  destruct (negb _); [|reflexivity].
  simpl. apply length_map.
Qed.


(** C2, evaluated on the code: the tracker holds the open issue of an
    earlier scan for the same rule; the first run matches it by its title,
    rewrites its body and then closes it, its former body naming a signature
    that is no longer current; the second run with the same groups finds no
    open issue and creates one. *)
Theorem second_run_creates_again :
  let run1 := syncIssues cfg groups_now tracker_before in
  let run2 := syncIssues cfg groups_now (snd run1) in
  open_count tracker_before = 1 /\
  map r_action (fst run1) = [updated] /\ open_count (snd run1) = 0 /\
  map r_action (fst run2) = [created] /\ count_created (fst run2) = 1 /\
  open_count (snd run2) = 1.
Proof. vm_compute. repeat split; reflexivity. Qed.

End IssuesClaims.

(* ================================================================== *)
(** * Properties of the crawler *)

Module CrawlerFacts.
Import Str Crawler CrawlerSpec StrFacts.

Lemma set_has_In (x : str) (s : list str) : set_has x s = true <-> In x s.
Proof.
  unfold set_has. rewrite existsb_exists. split.
  - intros (y & Hy & E). apply eqb_eq in E. now subst.
  - intros H. exists x. split; [exact H|apply eqb_refl].
Qed.

Lemma set_has_not_In (x : str) (s : list str) : set_has x s = false <-> ~ In x s.
Proof.
  rewrite <- set_has_In. destruct (set_has x s); split; congruence.
Qed.

Section Loop.
Variable pathname : str -> option str.
Variable web : str -> PageOutcome.
Variable maxPagesV maxDepthV : nat.
Variable includeV excludeV disallowedPaths : list str.

Let step' := step pathname web maxPagesV maxDepthV includeV excludeV disallowedPaths.
Let run' := run pathname web maxPagesV maxDepthV includeV excludeV disallowedPaths.

(** ** What a turn of the loop does *)

(** The queue after a turn is the rest of the queue, possibly followed by
    links that were not in the visited set. *)
Lemma enqueue_links_spec (vis : list str) (d : nat) (links : list str)
    (q : list CrawlTask) :
  exists added,
    enqueue_links vis d links q = q ++ added /\
    (forall t, In t added -> In (t_url t) links /\ ~ In (t_url t) vis /\ t_depth t = d + 1) /\
    exists kept, added = map (fun l => {| t_url := l; t_depth := d + 1 |}) kept /\
                 kept = filter (fun l => negb (set_has l vis)) links.
Proof.
  unfold enqueue_links. revert q. induction links as [|l ls IH]; intros q; simpl.
  - exists []. rewrite app_nil_r. split; [reflexivity|]. split; [intros t []|].
    exists []. auto.
  - destruct (set_has l vis) eqn:E; simpl.
    + destruct (IH q) as (added & H1 & H2 & kept & H3 & H4).
      exists added. split; [exact H1|]. split.
      * intros t Ht. destruct (H2 t Ht) as (Ha & Hb & Hc). auto.
      * exists kept. auto.
    + destruct (IH (q ++ [{| t_url := l; t_depth := d + 1 |}]))
        as (added & H1 & H2 & kept & H3 & H4).
      exists ({| t_url := l; t_depth := d + 1 |} :: added).
      rewrite H1, <- app_assoc. split; [reflexivity|]. split.
      * intros t [<-|Ht]; simpl.
        -- repeat split; auto. now apply set_has_not_In.
        -- destruct (H2 t Ht) as (Ha & Hb & Hc). auto.
      * exists (l :: kept). simpl. rewrite H3, H4. auto.
Qed.

(** The shape of the state after [visit]. *)
Lemma visit_spec (u : str) (d : nat) (st : State) :
  visited (visit web maxDepthV u d st) = visited st /\
  (results (visit web maxDepthV u d st) = results st \/
   exists status ttl,
     results (visit web maxDepthV u d st)
     = results st ++ [{| url := u; depth := d; statusCode := status; title := ttl |}]) /\
  exists added,
    toVisit (visit web maxDepthV u d st) = toVisit st ++ added /\
    (forall t, In t added -> ~ In (t_url t) (visited st)) /\
    (added = [] \/
     exists status ttl a,
       web u = Loaded status ttl (Some a) /\ d < maxDepthV /\
       added = map (fun l => {| t_url := l; t_depth := d + 1 |})
                   (filter (fun l => negb (set_has l (visited st))) (extractLinks a))).
Proof.
  assert (Hsame : forall q : list CrawlTask, exists added : list CrawlTask,
            q = q ++ added /\
            (forall t, In t added -> ~ In (t_url t) (visited st)) /\
            (added = [] \/
             exists status ttl a,
               web u = Loaded status ttl (Some a) /\ d < maxDepthV /\
               added = map (fun l => {| t_url := l; t_depth := d + 1 |})
                         (filter (fun l => negb (set_has l (visited st))) (extractLinks a)))).
  { intros q. exists []. rewrite app_nil_r.
    split; [reflexivity|]. split; [intros t []|now left]. }
  unfold visit.
  destruct (web u) as [|status ttl anchors] eqn:Ew.
  { split; [reflexivity|]. split; [now left|apply Hsame]. }
  destruct ((200 <=? status) && (status <? 400)).
  2:{ split; [reflexivity|]. split; [now left|apply Hsame]. }
  destruct ttl as [ttl|].
  2:{ split; [reflexivity|]. split; [now left|apply Hsame]. }
  destruct (d <? maxDepthV) eqn:Ed.
  2:{ split; [reflexivity|]. split; [right; eexists _, _; reflexivity|simpl; apply Hsame]. }
  destruct anchors as [a|].
  2:{ split; [reflexivity|]. split; [right; eexists _, _; reflexivity|simpl; apply Hsame]. }
  split; [reflexivity|]. split; [right; eexists _, _; reflexivity|]. simpl.
  destruct (enqueue_links_spec (visited st) d (extractLinks a) (toVisit st))
    as (added & H1 & H2 & kept & H3 & H4).
  exists added. split; [exact H1|]. split.
  - intros t Ht. now destruct (H2 t Ht) as (_ & Hb & _).
  - right. exists status, (Some ttl), a. apply Nat.ltb_lt in Ed.
    split; [reflexivity|]. split; [exact Ed|]. now rewrite H3, H4.
Qed.

(** The cases of [step]. *)
Lemma step_cases (st st' : State) :
  step' st = Some st' ->
  exists task rest,
    toVisit st = task :: rest /\ length (results st) < maxPagesV /\
    (st' = {| visited := visited st; toVisit := rest; results := results st |}
     \/ (~ In (t_url task) (visited st) /\ t_depth task <= maxDepthV /\
         st' = visit web maxDepthV (t_url task) (t_depth task)
                 {| visited := visited st ++ [t_url task];
                    toVisit := rest; results := results st |})).
Proof.
  unfold step', step. destruct (toVisit st) as [|task rest]; [discriminate|].
  destruct (length (results st) <? maxPagesV) eqn:El; [|discriminate].
  apply Nat.ltb_lt in El. intros H. exists task, rest.
  split; [reflexivity|]. split; [exact El|].
  simpl in H.
  destruct (set_has (t_url task) (visited st)) eqn:Ev; [left; congruence|].
  destruct (maxDepthV <? t_depth task) eqn:Ed; [left; congruence|].
  destruct (shouldExclude pathname (t_url task) excludeV disallowedPaths);
    [left; congruence|].
  destruct ((0 <? length includeV) && negb (matchesAnyPattern (t_url task) includeV));
    [left; congruence|].
  right. apply set_has_not_In in Ev. apply Nat.ltb_ge in Ed.
  repeat split; auto. injection H as <-. unfold set_add.
  apply set_has_not_In in Ev. now rewrite Ev.
Qed.

(** ** The bounds *)

Lemma step_bounded (st st' : State) :
  step' st = Some st' -> bounded maxPagesV maxDepthV st -> bounded maxPagesV maxDepthV st'.
Proof.
  intros H [Hl Hd]. destruct (step_cases st st' H) as (task & rest & Hq & Hlt & [->|(Hv & Hdep & ->)]).
  - split; assumption.
  - destruct (visit_spec (t_url task) (t_depth task)
                {| visited := visited st ++ [t_url task]; toVisit := rest;
                   results := results st |}) as (_ & Hr & _).
    simpl in Hr. unfold bounded.
    destruct Hr as [Hr|(status & ttl & Hr)]; rewrite Hr.
    + split; assumption.
    + split.
      * rewrite length_app. simpl. lia.
      * apply Forall_app. split; [exact Hd|]. constructor; [exact Hdep|constructor].
Qed.

Lemma run_bounded (fuel : nat) (st st' : State) :
  run' fuel st = Some st' -> bounded maxPagesV maxDepthV st -> bounded maxPagesV maxDepthV st'.
Proof.
  unfold run'. revert st. induction fuel as [|f IH]; intros st; simpl.
  - destruct (step _ _ _ _ _ _ _ st) eqn:E; [discriminate|]. now intros [= <-].
  - destruct (step _ _ _ _ _ _ _ st) as [s1|] eqn:E; [|now intros [= <-]].
    intros H Hb. apply (IH s1 H). now apply (step_bounded st s1).
Qed.

Lemma cost_pos (b : nat) (u : str) : 1 <= cost web b u.
Proof. destruct b; simpl; lia. Qed.

Lemma queue_cost_app (a b : list CrawlTask) :
  queue_cost web maxDepthV (a ++ b) = queue_cost web maxDepthV a + queue_cost web maxDepthV b.
Proof. unfold queue_cost. now rewrite map_app, list_sum_app. Qed.

Lemma list_sum_filter_le (f : str -> nat) (p : str -> bool) (l : list str) :
  list_sum (map f (filter p l)) <= list_sum (map f l).
Proof.
  induction l as [|x l IH]; simpl; [lia|].
  destruct (p x); simpl; lia.
Qed.

Lemma step_decreases (st st' : State) :
  step' st = Some st' -> queue_cost web maxDepthV (toVisit st') < queue_cost web maxDepthV (toVisit st).
Proof.
  intros H. destruct (step_cases st st' H) as (task & rest & Hq & _ & [->|(_ & Hdep & ->)]);
    rewrite Hq; simpl.
  - unfold queue_cost, task_cost. simpl.
    pose proof (cost_pos (maxDepthV - t_depth task) (t_url task)). lia.
  - destruct (visit_spec (t_url task) (t_depth task)
                {| visited := visited st ++ [t_url task]; toVisit := rest;
                   results := results st |}) as (_ & _ & added & -> & _ & Hadd).
    simpl. rewrite queue_cost_app.
    change (queue_cost web maxDepthV (task :: rest)) with (task_cost web maxDepthV task + queue_cost web maxDepthV rest).
    destruct Hadd as [->|(status & ttl & a & Hw & Hd & ->)].
    + unfold queue_cost at 2. simpl.
      pose proof (cost_pos (maxDepthV - t_depth task) (t_url task)).
      unfold task_cost. lia.
    + unfold task_cost at 1.
      destruct (maxDepthV - t_depth task) as [|b] eqn:Eb; [lia|].
      simpl. unfold links_of. rewrite Hw.
      unfold queue_cost. rewrite map_map. unfold task_cost. simpl.
      replace (maxDepthV - (t_depth task + 1)) with b by lia.
      pose proof (list_sum_filter_le (cost web b)
                    (fun l => negb (set_has l (visited st ++ [t_url task])))
                    (extractLinks a)).
      change (fun x : str => cost web b x) with (cost web b). lia.
Qed.

Lemma run_terminates (fuel : nat) (st : State) :
  queue_cost web maxDepthV (toVisit st) <= fuel -> exists st', run' fuel st = Some st'.
Proof.
  unfold run'. revert st. induction fuel as [|f IH]; intros st Hc; simpl.
  - destruct (step _ _ _ _ _ _ _ st) as [s1|] eqn:E; [|eauto].
    apply step_decreases in E. lia.
  - destruct (step _ _ _ _ _ _ _ st) as [s1|] eqn:E; [|eauto].
    apply IH. apply step_decreases in E. lia.
Qed.

(** ** No URL is admitted twice *)

Lemma step_admitted_once (st st' : State) :
  step' st = Some st' -> admitted_once st -> admitted_once st'.
Proof.
  intros H (Hv & Hr & Hi).
  destruct (step_cases st st' H) as (task & rest & Hq & _ & [->|(Hnv & _ & ->)]).
  - repeat split; assumption.
  - destruct (visit_spec (t_url task) (t_depth task)
                {| visited := visited st ++ [t_url task]; toVisit := rest;
                   results := results st |}) as (Hvis & Hres & _).
    simpl in Hvis, Hres.
    assert (Hv' : NoDup (visited st ++ [t_url task])).
    { apply (Permutation_NoDup (Permutation_cons_append _ _)). now constructor. }
    unfold admitted_once. rewrite Hvis.
    destruct Hres as [->|(status & ttl & ->)].
    + repeat split; auto. intros x Hx. apply in_or_app. left. now apply Hi.
    + rewrite map_app. simpl. repeat split; auto.
      * apply (Permutation_NoDup (Permutation_cons_append _ _)).
        constructor; [|exact Hr]. intros Hin. apply Hnv. now apply Hi.
      * intros x Hx. apply in_app_or in Hx. apply in_or_app.
        destruct Hx as [Hx|[<-|[]]]; [left; now apply Hi|right; now left].
Qed.

Lemma reachable_admitted_once (st0 st : State) :
  reachable pathname web maxPagesV maxDepthV includeV excludeV disallowedPaths st0 st ->
  admitted_once st0 -> admitted_once st.
Proof.
  induction 1 as [|s s' _ IH Hs]; intros H0; [exact H0|].
  apply (step_admitted_once s s' Hs). now apply IH.
Qed.

(** A task joins the queue only when its URL is not in the visited set. *)
Lemma step_enqueues_unvisited (st st' : State) (t : CrawlTask) :
  step' st = Some st' -> In t (toVisit st') ->
  In t (toVisit st) \/ ~ In (t_url t) (visited st').
Proof.
  intros H Hin.
  destruct (step_cases st st' H) as (task & rest & Hq & _ & [->|(_ & _ & ->)]).
  - left. rewrite Hq. now right.
  - destruct (visit_spec (t_url task) (t_depth task)
                {| visited := visited st ++ [t_url task]; toVisit := rest;
                   results := results st |}) as (Hvis & _ & added & Hadd & Hun & _).
    rewrite Hadd in Hin. rewrite Hvis. simpl in *.
    apply in_app_or in Hin. destruct Hin as [Hin|Hin].
    + left. rewrite Hq. now right.
    + right. now apply Hun.
Qed.

End Loop.
End CrawlerFacts.

Module CrawlerClaims.
Import Str Crawler CrawlerSpec CrawlerSamples StrFacts CrawlerFacts.

(** ** A state of the sample site after two turns *)

Lemma reachable_after_two : crawl_reachable path_of site site_options [] (after_turns 2).
Proof.
  unfold crawl_reachable.
  apply (reach_step _ _ _ _ _ _ _ _ (after_turns 1)); [|vm_compute; reflexivity].
  apply (reach_step _ _ _ _ _ _ _ _ (after_turns 0)); [|vm_compute; reflexivity].
  apply reach_start.
Qed.

(** ** The queue *)




(** ** The bounds *)

(** C7: whatever the site and the options, the array [crawlWebsite] returns
    has at most [maxPages] elements, each of depth at most [maxDepth]; and it
    does return one (the loop ends) whenever the base URL is a valid URL. *)
Theorem crawl_bound (pathname : str -> option str) (web : str -> PageOutcome)
    (robots : RobotsFetch) (o : CrawlOptions) :
  (forall fuel pages,
     crawlWebsite pathname web robots o fuel = Returned pages ->
     length pages <= effMaxPages o /\
     Forall (fun r => depth r <= effMaxDepth o) pages)
  /\ (pathname (baseUrl o) <> None ->
      exists fuel pages, crawlWebsite pathname web robots o fuel = Returned pages).
Proof.
  unfold crawlWebsite, crawl_with. split.
  - intros fuel pages. destruct (pathname (baseUrl o)); [|discriminate].
    destruct (run _ _ _ _ _ _ _ fuel _) as [st|] eqn:E; [|discriminate].
    intros [= <-]. eapply run_bounded; [exact E|].
    split; simpl; [lia|constructor].
  - intros Hp. destruct (pathname (baseUrl o)); [|contradiction].
    destruct (run_terminates pathname web (effMaxPages o) (effMaxDepth o)
                (default [] (includePatterns o))
                (default defaultExcludePatterns (excludePatterns o))
                (disallowedOf o robots)
                (queue_cost web (effMaxDepth o) (toVisit (initial (baseUrl o))))
                (initial (baseUrl o)) (le_n _)) as (st & Hst).
    eexists _, (results st). now rewrite Hst.
Qed.

Lemma crawl_bound_witness :
  path_of (baseUrl site_options) <> None /\
  exists fuel pages,
    crawlWebsite path_of site (FetchRejected true) site_options fuel = Returned pages /\
    length pages <= 10 /\ Forall (fun r => depth r <= 2) pages.
Proof.
  assert (Hp : path_of (baseUrl site_options) <> None) by (vm_compute; discriminate).
  split; [exact Hp|].
  destruct (crawl_bound path_of site (FetchRejected true) site_options) as [Hb Ht].
  destruct (Ht Hp) as (fuel & pages & Hr).
  exists fuel, pages. split; [exact Hr|]. exact (Hb fuel pages Hr).
Defined.

(** ** robots.txt *)

(** C9: when [robots.txt] cannot be had, [fetchRobotsTxt] gives no
    disallowed path and the crawl is the crawl without any restriction from
    [robots.txt]: the same as with an empty [robots.txt]. *)
Theorem robots_failure_degrades (pathname : str -> option str)
    (web : str -> PageOutcome) (o : CrawlOptions) (r : RobotsFetch) (fuel : nat) :
  robots_unavailable r ->
  fetchRobotsTxt r = [] /\
  crawlWebsite pathname web r o fuel = crawl_with pathname web o [] fuel /\
  crawlWebsite pathname web r o fuel
  = crawlWebsite pathname web (Responded 200 (Some [])) o fuel.
Proof.
  intros H.
  assert (Hr : fetchRobotsTxt r = []).
  { destruct r as [b|status text]; simpl in *; [reflexivity|].
    destruct H as [-> | ->]; simpl; [reflexivity|].
    now destruct (negb (response_ok status)). }
  split; [exact Hr|].
  unfold crawlWebsite, disallowedOf. rewrite Hr.
  change (fetchRobotsTxt (Responded 200 (Some []))) with (@nil str).
  now destruct (default true (respectRobotsTxt o)).
Qed.

Lemma robots_failure_degrades_witness :
  robots_unavailable (Responded 503 (Some (L "Disallow: /"))) /\
  fetchRobotsTxt (Responded 503 (Some (L "Disallow: /"))) = [] /\
  crawlWebsite path_of site (Responded 503 (Some (L "Disallow: /"))) site_options 20
  = crawl_with path_of site site_options [] 20.
Proof.
  assert (H : robots_unavailable (Responded 503 (Some (L "Disallow: /"))))
    by (left; reflexivity).
  split; [exact H|].
  destruct (robots_failure_degrades path_of site site_options _ 20 H) as (H1 & H2 & _).
  split; [exact H1|exact H2].
Defined.

End CrawlerClaims.

(* ================================================================== *)
(** * Facts about scanning and replacing *)

Module RegexFacts.
Import Str Grouper StrFacts.

Section Gsub.
Variable m : str -> option nat.
Variable r : str -> str.

Lemma gsub_from_skipn (k : nat) (s : str) :
  gsub_from m r k s = gsub m r (skipn k s).
Proof.
  revert k. induction s as [|c t IH]; intros k.
  - now destruct k.
  - destruct k as [|k]; [reflexivity|]. simpl. apply IH.
Qed.

Lemma gsub_nomatch (c : ascii) (t : str) :
  m (c :: t) = None -> gsub m r (c :: t) = c :: gsub m r t.
Proof. intros H. unfold gsub. simpl. now rewrite H. Qed.

Lemma gsub_match (c : ascii) (t : str) (k : nat) :
  m (c :: t) = Some (S k) ->
  gsub m r (c :: t) = r (firstn (S k) (c :: t)) ++ gsub m r (skipn (S k) (c :: t)).
Proof.
  intros H. unfold gsub at 1. simpl. rewrite H. f_equal. apply gsub_from_skipn.
Qed.

(** No match starts inside [A]: [A] is copied. *)
Lemma gsub_skip_prefix (A B : str) :
  (forall A1 A2, A = A1 ++ A2 -> A2 <> [] -> m (A2 ++ B) = None) ->
  gsub m r (A ++ B) = A ++ gsub m r B.
Proof.
  induction A as [|a A IH]; intros H; [reflexivity|].
  simpl. rewrite gsub_nomatch.
  - f_equal. apply IH. intros A1 A2 -> Hne. apply (H (a :: A1) A2); auto.
  - apply (H [] (a :: A)); [reflexivity|discriminate].
Qed.

(** A match that is exactly [A]. *)
Lemma gsub_match_prefix (A B : str) :
  A <> [] -> m (A ++ B) = Some (length A) ->
  gsub m r (A ++ B) = r A ++ gsub m r B.
Proof.
  intros Hne H. destruct A as [|a A]; [contradiction|].
  change ((a :: A) ++ B) with (a :: (A ++ B)) in *.
  change (length (a :: A)) with (S (length A)) in H.
  rewrite (gsub_match a (A ++ B) (length A) H).
  cbn [firstn skipn].
  rewrite firstn_app, skipn_app, Nat.sub_diag, firstn_all, skipn_all. simpl.
  now rewrite app_nil_r.
Qed.
End Gsub.

(** With a constant replacement, what holds of every character of the
    string and of the replacement holds of every character of the result. *)
Lemma gsub_const_Forall (m : str -> option nat) (rep : str) (P : ascii -> Prop)
    (s : str) :
  Forall P s -> Forall P rep -> Forall P (gsub m (fun _ => rep) s).
Proof.
  intros Hs Hr. unfold gsub. generalize 0 as k.
  induction Hs as [|c t Hc Ht IH]; intros k; simpl; [constructor|].
  destruct k as [|k]; [|apply IH].
  destruct (m (c :: t)) as [[|j]|].
  - constructor; auto.
  - apply Forall_app. split; auto.
  - constructor; auto.
Qed.

(** ** Runs of characters *)

Lemma span_le (f : ascii -> bool) (s : str) : span f s <= length s.
Proof. induction s as [|c t IH]; simpl; [lia|]. destruct (f c); simpl; lia. Qed.

Lemma span_app_stop (f : ascii -> bool) (a b : str) (c : ascii) :
  f c = false -> span f (a ++ c :: b) = span f a.
Proof.
  intros H. induction a as [|x a IH]; simpl; [now rewrite H|].
  destruct (f x); [now rewrite IH|reflexivity].
Qed.

Lemma span_all (f : ascii -> bool) (a b : str) :
  Forall (fun c => f c = true) a -> span f (a ++ b) = length a + span f b.
Proof.
  induction 1 as [|x a Hx Ha IH]; simpl; [reflexivity|]. now rewrite Hx, IH.
Qed.

Lemma span_none (f : ascii -> bool) (c : ascii) (t : str) :
  f c = false -> span f (c :: t) = 0.
Proof. intros H. simpl. now rewrite H. Qed.

Lemma index_where_app_hit (f : ascii -> bool) (a b : str) (c : ascii) :
  Forall (fun x => f x = false) a -> f c = true ->
  index_where f (a ++ c :: b) = Some (length a).
Proof.
  intros Ha Hc. induction Ha as [|x a Hx Ha IH]; simpl; [now rewrite Hc|].
  now rewrite Hx, IH.
Qed.

(** The position of the first hit does not depend on what follows it. *)
Lemma index_where_app_indep (f : ascii -> bool) (a b b' : str) (c : ascii) :
  f c = true ->
  index_where f (a ++ c :: b) = index_where f (a ++ c :: b') /\
  exists j, index_where f (a ++ c :: b) = Some j /\ j <= length a.
Proof.
  intros Hc. induction a as [|x a [IH1 (j & IH2 & IH3)]]; simpl.
  - rewrite Hc. split; [reflexivity|]. exists 0. auto.
  - destruct (f x).
    + split; [reflexivity|]. exists 0. split; [reflexivity|lia].
    + rewrite IH1. split; [reflexivity|].
      rewrite <- IH1, IH2. exists (S j). simpl. split; [reflexivity|lia].
Qed.

(** ** The white-space pass *)

Lemma re_spaces_space (c : ascii) (t : str) :
  is_space c = true -> Grouper.re_spaces (c :: t) = Some (S (span is_space t)).
Proof.
  intros H. unfold Grouper.re_spaces, plus_then. simpl. rewrite H. simpl.
  f_equal. lia.
Qed.

Lemma re_spaces_other (c : ascii) (t : str) :
  is_space c = false -> Grouper.re_spaces (c :: t) = None.
Proof.
  intros H. unfold Grouper.re_spaces, plus_then. simpl. now rewrite H.
Qed.

Lemma squeeze_from_app (A B : str) (c : ascii) (k : nat) :
  is_space c = false -> k <= length A ->
  gsub_from Grouper.re_spaces (fun _ => L " ") k (A ++ c :: B)
  = gsub_from Grouper.re_spaces (fun _ => L " ") k A ++ c :: squeeze B.
Proof.
  intros Hc. revert k. induction A as [|a A IH]; intros k Hk.
  - assert (k = 0) as -> by (simpl in Hk; lia).
    simpl. now rewrite (re_spaces_other _ _ Hc).
  - destruct k as [|k].
    + cbn [app gsub_from]. destruct (is_space a) eqn:Ea.
      * rewrite !(re_spaces_space _ _ Ea), (span_app_stop _ _ _ _ Hc).
        rewrite <- app_assoc. f_equal. apply IH. apply span_le.
      * rewrite !(re_spaces_other _ _ Ea). cbn [app]. f_equal. apply IH. lia.
    + cbn [app gsub_from]. apply IH. simpl in Hk. lia.
Qed.

Lemma squeeze_app (A B : str) (c : ascii) :
  is_space c = false -> squeeze (A ++ c :: B) = squeeze A ++ c :: squeeze B.
Proof. intros H. apply squeeze_from_app; [exact H|lia]. Qed.

Lemma squeeze_cons_other (c : ascii) (t : str) :
  is_space c = false -> squeeze (c :: t) = c :: squeeze t.
Proof. intros H. apply (squeeze_app [] t c H). Qed.

Lemma squeeze_plain (A B : str) :
  Forall (fun c => is_space c = false) A -> squeeze (A ++ B) = A ++ squeeze B.
Proof.
  induction 1 as [|a A Ha HA IH]; [reflexivity|].
  simpl. rewrite (squeeze_cons_other _ _ Ha). now rewrite IH.
Qed.

(** A single space before a character that is not white space. *)
Lemma squeeze_space_then (c : ascii) (t : str) :
  is_space c = false -> squeeze (" "%char :: c :: t) = " "%char :: squeeze (c :: t).
Proof.
  intros H. unfold squeeze.
  rewrite (gsub_match _ _ " "%char (c :: t) 0).
  - reflexivity.
  - rewrite re_spaces_space by reflexivity. now rewrite (span_none _ _ _ H).
Qed.

(** ** Trimming *)

Lemma trimStart_app_stop (a b : str) (c : ascii) :
  is_space c = false -> trimStart (a ++ c :: b) = trimStart a ++ c :: b.
Proof.
  intros H. unfold trimStart. rewrite (span_app_stop _ _ _ _ H).
  rewrite skipn_app.
  replace (span is_space a - length a) with 0 by (pose proof (span_le is_space a); lia).
  reflexivity.
Qed.

Lemma trimEnd_app_stop (a b : str) (c : ascii) :
  is_space c = false -> trimEnd (a ++ c :: b) = a ++ c :: trimEnd b.
Proof.
  intros H. unfold trimEnd. rewrite rev_app_distr. simpl.
  rewrite <- app_assoc. simpl. rewrite (trimStart_app_stop _ _ _ H).
  rewrite rev_app_distr. simpl. rewrite rev_involutive, <- app_assoc. reflexivity.
Qed.

Lemma trim_tagged (c d : ascii) (a b : str) :
  is_space c = false -> is_space d = false ->
  trim (c :: a ++ d :: b) = c :: a ++ d :: trimEnd b.
Proof.
  intros Hc Hd. unfold trim.
  change (c :: a ++ d :: b) with ((c :: a) ++ d :: b).
  rewrite (trimEnd_app_stop _ _ _ Hd). simpl.
  unfold trimStart. now rewrite (span_none _ _ _ Hc).
Qed.

End RegexFacts.

Module StabilityFacts.
Import Str Grouper StrFacts RegexFacts Stability.

(** ** The matcher combinators *)

Lemma starts_with_iff (p s : str) :
  starts_with p s = true <-> exists rest, s = p ++ rest.
Proof.
  revert s. induction p as [|x p IH]; intros s; simpl.
  - split; [intros _; now exists s|reflexivity].
  - destruct s as [|y s]; [split; [discriminate|intros (rest & H); discriminate]|].
    rewrite andb_true_iff, Ascii.eqb_eq, IH. split.
    + intros [-> (rest & ->)]. now exists rest.
    + intros (rest & H). inversion H; subst. split; [reflexivity|now exists rest].
Qed.

Lemma skipn_length_app (a b : str) : skipn (length a) (a ++ b) = b.
Proof. rewrite skipn_app, skipn_all, Nat.sub_diag. reflexivity. Qed.

Lemma firstn_length_app (a b : str) : firstn (length a) (a ++ b) = a.
Proof. rewrite firstn_app, firstn_all, Nat.sub_diag. simpl. apply app_nil_r. Qed.

Lemma lit_then_iff (lit : str) (k : str -> option nat) (s : str) (j : nat) :
  lit_then lit k s = Some j <->
  exists rest j', s = lit ++ rest /\ k rest = Some j' /\ j = length lit + j'.
Proof.
  unfold lit_then. destruct (starts_with lit s) eqn:E.
  - apply starts_with_iff in E as (rest & ->). rewrite skipn_length_app. split.
    + destruct (k rest) as [j'|] eqn:Ek; [|discriminate]. simpl. intros [= <-]. eauto.
    + intros (rest' & j' & H & Hk & ->). apply app_inv_head in H. subst rest'.
      now rewrite Hk.
  - split; [discriminate|]. intros (rest & j' & -> & _).
    assert (starts_with lit (lit ++ rest) = true) by (apply starts_with_iff; eauto).
    congruence.
Qed.

Lemma after_class_iff (f : ascii -> bool) (k : str -> option nat) (s : str) (j : nat) :
  after_class f k s = Some j <->
  exists c t j', s = c :: t /\ f c = true /\ k t = Some j' /\ j = S j'.
Proof.
  unfold after_class. destruct s as [|c t].
  - split; [discriminate|]. intros (? & ? & ? & H & _). discriminate.
  - destruct (f c) eqn:E.
    + split.
      * destruct (k t) as [j'|] eqn:Ek; [|discriminate]. simpl. intros [= <-].
        exists c, t, j'. auto.
      * intros (c' & t' & j' & H & _ & Hk & ->). inversion H; subst. now rewrite Hk.
    + split; [discriminate|]. intros (c' & t' & j' & H & Hf & _).
      inversion H; subst. congruence.
Qed.

Lemma index_where_some (f : ascii -> bool) (s : str) (j : nat) :
  index_where f s = Some j ->
  exists a c b, s = a ++ c :: b /\ Forall (fun x => f x = false) a /\
                f c = true /\ j = length a.
Proof.
  revert j. induction s as [|x s IH]; intros j; simpl; [discriminate|].
  destruct (f x) eqn:E.
  - intros [= <-]. exists [], x, s. repeat split; auto.
  - destruct (index_where f s) as [i|]; [|discriminate]. simpl. intros [= <-].
    destruct (IH i eq_refl) as (a & c & b & -> & Ha & Hc & ->).
    exists (x :: a), c, b. repeat split; auto.
Qed.

Lemma is_dquote (c : ascii) : is_char dquote c = true <-> c = dquote.
Proof. unfold is_char. rewrite Ascii.eqb_eq. split; congruence. Qed.

Lemma quoted_hit (val rest : str) :
  nodq val -> quoted (dquote :: val ++ dquote :: rest) = Some (length val + 2).
Proof.
  intros H. unfold quoted.
  replace (is_char dquote dquote) with true by (symmetry; now apply is_dquote).
  rewrite (index_where_app_hit _ _ _ _ H); [reflexivity|now apply is_dquote].
Qed.

Lemma quoted_some (s : str) (k : nat) :
  quoted s = Some k ->
  exists val rest, s = dquote :: val ++ dquote :: rest /\ nodq val /\
                   k = length val + 2.
Proof.
  unfold quoted. destruct s as [|c t]; [discriminate|].
  destruct (is_char dquote c) eqn:E; [|discriminate].
  apply is_dquote in E. subst c.
  destruct (index_where (is_char dquote) t) as [j|] eqn:Ei; [|discriminate].
  simpl. intros [= <-].
  destruct (index_where_some _ _ _ Ei) as (a & c & b & -> & Ha & Hc & ->).
  apply is_dquote in Hc. subst c. exists a, b. auto.
Qed.

Lemma eq_quoted_hit (val rest : str) :
  nodq val ->
  eq_quoted ("="%char :: dquote :: val ++ dquote :: rest) = Some (length val + 3).
Proof.
  intros H. unfold eq_quoted. apply lit_then_iff.
  exists (dquote :: val ++ dquote :: rest), (length val + 2).
  split; [reflexivity|]. split; [now apply quoted_hit|simpl; lia].
Qed.

Lemma eq_quoted_some (s : str) (k : nat) :
  eq_quoted s = Some k ->
  exists val rest, s = "="%char :: dquote :: val ++ dquote :: rest /\ nodq val /\
                   k = length val + 3.
Proof.
  unfold eq_quoted. intros H. apply lit_then_iff in H as (r1 & j & -> & Hq & ->).
  apply quoted_some in Hq as (val & rest & -> & Hv & ->).
  exists val, rest. repeat split; auto; try (simpl; lia).
Qed.

Lemma lit_then_app (a b : str) (k : str -> option nat) (s : str) :
  lit_then (a ++ b) k s = lit_then a (lit_then b k) s.
Proof.
  destruct (lit_then (a ++ b) k s) as [j|] eqn:E.
  - symmetry. apply lit_then_iff in E as (rest & j' & -> & Hk & ->).
    apply lit_then_iff. exists (b ++ rest), (length b + j').
    rewrite <- app_assoc. split; [reflexivity|]. split.
    + apply lit_then_iff. eauto.
    + rewrite length_app. lia.
  - destruct (lit_then a (lit_then b k) s) as [j|] eqn:E'; [|reflexivity].
    apply lit_then_iff in E' as (r1 & j1 & -> & H1 & ->).
    apply lit_then_iff in H1 as (r2 & j2 & -> & H2 & ->).
    assert (lit_then (a ++ b) k (a ++ b ++ r2) = Some (length (a ++ b) + j2)).
    { apply lit_then_iff. exists r2, j2. now rewrite <- app_assoc. }
    congruence.
Qed.

Lemma plus_then_hit (f : ascii -> bool) (k : str -> option nat) (y rest : str) :
  y <> [] -> Forall (fun c => f c = true) y -> span f rest = 0 ->
  plus_then f k (y ++ rest) = option_map (fun j => length y + j) (k rest).
Proof.
  intros Hne Hy Hr. unfold plus_then. rewrite (span_all _ _ _ Hy), Hr, Nat.add_0_r.
  destruct (length y) as [|n] eqn:El.
  - destruct y; [contradiction|discriminate].
  - rewrite <- El. now rewrite skipn_length_app.
Qed.

Lemma span_firstn (f : ascii -> bool) (s : str) :
  Forall (fun c => f c = true) (firstn (span f s) s).
Proof.
  induction s as [|c t IH]; simpl; [constructor|].
  destruct (f c) eqn:E; simpl; [now constructor|constructor].
Qed.

Lemma plus_then_some (f : ascii -> bool) (k : str -> option nat) (s : str) (j : nat) :
  plus_then f k s = Some j ->
  exists y rest j', s = y ++ rest /\ y <> [] /\ Forall (fun c => f c = true) y /\
                    k rest = Some j' /\ j = length y + j'.
Proof.
  unfold plus_then. destruct (span f s) as [|n] eqn:E; [discriminate|].
  destruct (k (skipn (S n) s)) as [j'|] eqn:Ek; [|discriminate]. simpl. intros [= <-].
  exists (firstn (S n) s), (skipn (S n) s), j'.
  split; [symmetry; apply firstn_skipn|]. split.
  - destruct s; [discriminate|]. simpl. discriminate.
  - split; [rewrite <- E; apply span_firstn|]. split; [exact Ek|].
    rewrite length_firstn. pose proof (span_le f s). lia.
Qed.

(** ** The four expressions *)

Lemma nodq_lit_id : nodq (L "id").
Proof. repeat constructor. Qed.

Lemma attr_re_aria : attr_re re_aria_controls P_aria.
Proof.
  unfold re_aria_controls.
  change (L "aria-controls=") with (L "aria-controls" ++ L "=").
  constructor.
  - intros s k H. rewrite lit_then_app in H.
    apply lit_then_iff in H as (r1 & j & -> & Hq & ->).
    apply eq_quoted_some in Hq as (val & rest & -> & Hv & ->).
    exists (L "aria-controls"), val, rest. repeat split; auto; try (simpl; lia).
  - intros p val rest -> Hv. rewrite lit_then_app. apply lit_then_iff.
    exists ("="%char :: dquote :: val ++ dquote :: rest), (length val + 3).
    split; [reflexivity|]. split; [now apply eq_quoted_hit|simpl; lia].
  - intros p ->. split; [repeat constructor|discriminate].
Qed.

Lemma attr_re_spaced (name : str) :
  nodq name ->
  attr_re (after_class is_space (lit_then (name ++ L "=") quoted))
          (fun p => exists w, is_space w = true /\ p = w :: name).
Proof.
  intros Hn. constructor.
  - intros s k H. apply after_class_iff in H as (w & t & j & -> & Hw & Hk & ->).
    rewrite lit_then_app in Hk.
    apply lit_then_iff in Hk as (r1 & j1 & -> & Hq & ->).
    apply eq_quoted_some in Hq as (val & rest & -> & Hv & ->).
    exists (w :: name), val, rest. repeat split; eauto; try (simpl; lia).
  - intros p val rest (w & Hw & ->) Hv. apply after_class_iff.
    exists w, (name ++ "="%char :: dquote :: val ++ dquote :: rest),
           (length name + (length val + 3)).
    split; [reflexivity|]. split; [exact Hw|]. split; [|simpl; lia].
    rewrite lit_then_app. apply lit_then_iff.
    exists ("="%char :: dquote :: val ++ dquote :: rest), (length val + 3).
    split; [reflexivity|]. split; [now apply eq_quoted_hit|reflexivity].
  - intros p (w & Hw & ->). split; [|discriminate].
    constructor; [|exact Hn].
    destruct (is_char dquote w) eqn:E; [|reflexivity].
    apply is_dquote in E. subst w. discriminate.
Qed.

Lemma attr_re_id : attr_re re_id P_id.
Proof. apply (attr_re_spaced (L "id")). repeat constructor. Qed.

Lemma attr_re_class : attr_re re_class P_class.
Proof. apply (attr_re_spaced (L "class")). repeat constructor. Qed.

Lemma lower_dash_nodq (y : str) :
  Forall (fun c => is_lower_dash c = true) y -> nodq y.
Proof.
  apply Forall_impl. intros c H.
  destruct (is_char dquote c) eqn:E; [|reflexivity].
  apply is_dquote in E. subst c. discriminate.
Qed.

Lemma attr_re_data : attr_re re_data P_data.
Proof.
  unfold re_data. constructor.
  - intros s k H. apply after_class_iff in H as (w & t & j & -> & Hw & Hk & ->).
    apply lit_then_iff in Hk as (r1 & j1 & -> & Hp & ->).
    apply plus_then_some in Hp as (y & r2 & j2 & -> & Hne & Hy & Hq & ->).
    apply eq_quoted_some in Hq as (val & rest & -> & Hv & ->).
    exists (w :: L "data-" ++ y), val, rest. split.
    + unfold attr_text. simpl. reflexivity.
    + split; [simpl; rewrite ?length_app; simpl; lia|].
      split; [exists w, y; auto|exact Hv].
  - intros p val rest (w & y & Hw & -> & Hne & Hy) Hv. apply after_class_iff.
    exists w, (L "data-" ++ y ++ "="%char :: dquote :: val ++ dquote :: rest),
           (5 + (length y + (length val + 3))).
    split; [unfold attr_text; simpl; reflexivity|].
    split; [exact Hw|]. split; [|simpl; rewrite ?length_app; simpl; lia].
    apply lit_then_iff.
    exists (y ++ "="%char :: dquote :: val ++ dquote :: rest),
           (length y + (length val + 3)).
    split; [reflexivity|]. split; [|reflexivity].
    rewrite (plus_then_hit _ _ _ _ Hne Hy); [|reflexivity].
    fold eq_quoted.
    now rewrite (eq_quoted_hit _ _ Hv).
  - intros p (w & y & Hw & -> & Hne & Hy). split; [|discriminate].
    constructor.
    + destruct (is_char dquote w) eqn:E; [|reflexivity].
      apply is_dquote in E. subst w. discriminate.
    + apply Forall_app. split; [repeat constructor|now apply lower_dash_nodq].
Qed.

(** ** Strings without a double quote *)

Lemma nodq_app (a b : str) : nodq (a ++ b) <-> nodq a /\ nodq b.
Proof. apply Forall_app. Qed.

Lemma split_first_dq (a a' b b' : str) :
  nodq a -> nodq a' -> a ++ dquote :: b = a' ++ dquote :: b' -> a = a' /\ b = b'.
Proof.
  intros Ha. revert a'. induction Ha as [|x a Hx Ha IH]; intros a' Ha' H.
  - destruct a' as [|y a']; simpl in H.
    + inversion H. auto.
    + inversion Ha' as [|? ? Hy _]; subst. inversion H; subst.
      assert (is_char dquote dquote = true) by now apply is_dquote. congruence.
  - destruct a' as [|y a']; simpl in H.
    + inversion H; subst.
      assert (is_char dquote dquote = true) by now apply is_dquote. congruence.
    + inversion Ha'; subst. inversion H; subst.
      destruct (IH a' ltac:(assumption) ltac:(assumption)) as [-> ->]. auto.
Qed.

Lemma suffix_snoc (A1 A2 X : str) (c : ascii) :
  A1 ++ A2 = X ++ [c] -> A2 <> [] -> exists x, A2 = x ++ [c] /\ X = A1 ++ x.
Proof.
  intros H Hne. destruct (exists_last Hne) as (x & c' & ->).
  rewrite app_assoc in H. apply app_inj_tail in H as [<- <-]. eauto.
Qed.

Lemma ends_in_eq_snoc (a : str) (c : ascii) : ends_in_eq (a ++ [c]) = is_char "=" c.
Proof. unfold ends_in_eq. now rewrite rev_app_distr. Qed.

Lemma ends_in_eq_suffix (a x : str) :
  ends_in_eq (a ++ x) = false -> ends_in_eq x = false.
Proof.
  destruct x as [|c x] using rev_ind; [reflexivity|].
  rewrite app_assoc, !ends_in_eq_snoc. auto.
Qed.

(** ** Scanning an attribute *)

Section Scan.
Variable m : str -> option nat.
Variable r : str -> str.
Variable P : str -> Prop.
Hypothesis HP : attr_re m P.

Lemma no_match_in_value (x B : str) :
  nodq x -> ends_in_eq x = false -> m (x ++ dquote :: B) = None.
Proof.
  intros Hx He. destruct (m (x ++ dquote :: B)) as [k|] eqn:E; [|reflexivity].
  destruct (re_sound _ _ HP _ _ E) as (p & val & rest & Hs & _ & Hp & _).
  destruct (re_prefix _ _ HP p Hp) as [Hpq _].
  unfold attr_text in Hs.
  change (p ++ "="%char :: dquote :: val ++ dquote :: rest)
    with (p ++ ["="%char] ++ dquote :: val ++ dquote :: rest) in Hs.
  rewrite app_assoc in Hs.
  apply split_first_dq in Hs as [-> _]; auto.
  - now rewrite ends_in_eq_snoc in He.
  - apply nodq_app. split; [exact Hpq|repeat constructor].
Qed.

Lemma no_match_at_quote (s : str) : m (dquote :: s) = None.
Proof.
  destruct (m (dquote :: s)) as [k|] eqn:E; [|reflexivity].
  destruct (re_sound _ _ HP _ _ E) as (p & val & rest & Hs & _ & Hp & _).
  destruct (re_prefix _ _ HP p Hp) as [Hpq Hne].
  destruct p as [|c p]; [contradiction|].
  inversion Hs; subst. inversion Hpq; subst.
  assert (is_char dquote dquote = true) by now apply is_dquote. congruence.
Qed.

Lemma no_match_at_eq (s : str) : m ("="%char :: dquote :: s) = None.
Proof.
  destruct (m ("="%char :: dquote :: s)) as [k|] eqn:E; [|reflexivity].
  destruct (re_sound _ _ HP _ _ E) as (p & val & rest & Hs & _ & Hp & _).
  destruct (re_prefix _ _ HP p Hp) as [Hpq Hne].
  destruct p as [|c [|c' p]]; [contradiction| |].
  - inversion Hs.
  - inversion Hs; subst. inversion Hpq as [|? ? _ Hpq']; subst.
    inversion Hpq'; subst.
    assert (is_char dquote dquote = true) by now apply is_dquote. congruence.
Qed.

Lemma match_at_name (N v B : str) (k : nat) :
  nodq N -> nodq v -> m (attr_text N v B) = Some k -> P N.
Proof.
  intros HN Hv E.
  destruct (re_sound _ _ HP _ _ E) as (p & val & rest & Hs & _ & Hp & _).
  destruct (re_prefix _ _ HP p Hp) as [Hpq _].
  unfold attr_text in Hs.
  change (N ++ "="%char :: dquote :: v ++ dquote :: B)
    with (N ++ ["="%char] ++ dquote :: v ++ dquote :: B) in Hs.
  change (p ++ "="%char :: dquote :: val ++ dquote :: rest)
    with (p ++ ["="%char] ++ dquote :: val ++ dquote :: rest) in Hs.
  rewrite !app_assoc in Hs.
  apply split_first_dq in Hs as [Hs _].
  - apply app_inj_tail in Hs as [-> _]. exact Hp.
  - apply nodq_app. split; [exact HN|repeat constructor].
  - apply nodq_app. split; [exact Hpq|repeat constructor].
Qed.

Lemma scan_value (v B : str) :
  value_ok v ->
  gsub m r ("="%char :: dquote :: v ++ dquote :: B)
  = "="%char :: dquote :: v ++ dquote :: gsub m r B.
Proof.
  intros [Hv He].
  rewrite gsub_nomatch by apply no_match_at_eq.
  rewrite gsub_nomatch by apply no_match_at_quote.
  do 2 f_equal.
  change (v ++ dquote :: B) with (v ++ [dquote] ++ B).
  rewrite app_assoc, gsub_skip_prefix; [now rewrite <- app_assoc|].
  intros A1 A2 H Hne. symmetry in H.
  destruct (suffix_snoc _ _ _ _ H Hne) as (x & -> & ->).
  rewrite <- app_assoc. apply no_match_in_value.
  - now apply nodq_app in Hv as [_ Hx].
  - now apply ends_in_eq_suffix in He.
Qed.

(** No suffix of [N] is a prefix the expression looks for: the attribute is
    copied. *)
Lemma scan_attr_copy (N v B : str) :
  nodq N -> value_ok v ->
  (forall N1 N2, N = N1 ++ N2 -> N2 <> [] -> ~ P N2) ->
  gsub m r (attr_text N v B) = N ++ "="%char :: dquote :: v ++ dquote :: gsub m r B.
Proof.
  intros HN Hv Hno. unfold attr_text. rewrite gsub_skip_prefix.
  - f_equal. now apply scan_value.
  - intros N1 N2 -> Hne.
    destruct (m (N2 ++ "="%char :: dquote :: v ++ dquote :: B)) as [k|] eqn:E;
      [|reflexivity].
    exfalso. apply (Hno N1 N2 eq_refl Hne).
    apply (match_at_name N2 v B k); auto.
    + now apply nodq_app in HN as [_ H2].
    + apply Hv.
Qed.

(** [N] ends with a prefix [p] the expression looks for, and nowhere
    earlier: the attribute from [p] on is replaced. *)
Lemma scan_attr_replace (N1 p v B : str) :
  nodq N1 -> value_ok v -> P p ->
  (forall A1 A2, N1 = A1 ++ A2 -> A2 <> [] -> ~ P (A2 ++ p)) ->
  gsub m r (attr_text (N1 ++ p) v B)
  = N1 ++ r (p ++ "="%char :: dquote :: v ++ [dquote]) ++ gsub m r B.
Proof.
  intros HN Hv Hp Hno. unfold attr_text. rewrite <- app_assoc.
  destruct (re_prefix _ _ HP p Hp) as [Hpq Hpne].
  rewrite gsub_skip_prefix.
  - f_equal.
    replace (p ++ "="%char :: dquote :: v ++ dquote :: B)
      with ((p ++ "="%char :: dquote :: v ++ [dquote]) ++ B)
      by (rewrite <- !app_assoc; simpl; now rewrite <- app_assoc).
    apply gsub_match_prefix.
    + destruct p; [contradiction|discriminate].
    + replace ((p ++ "="%char :: dquote :: v ++ [dquote]) ++ B)
        with (attr_text p v B)
        by (unfold attr_text; rewrite <- !app_assoc; simpl; now rewrite <- app_assoc).
      rewrite (re_complete _ _ HP p v B Hp (proj1 Hv)). f_equal.
      rewrite !length_app. simpl. rewrite length_app. simpl. lia.
  - intros A1 A2 -> Hne.
    destruct (m (A2 ++ p ++ "="%char :: dquote :: v ++ dquote :: B)) as [k|] eqn:E;
      [|reflexivity].
    exfalso. apply (Hno A1 A2 eq_refl Hne).
    rewrite app_assoc in E. apply (match_at_name (A2 ++ p) v B k); auto.
    + apply nodq_app. split; [now apply nodq_app in HN as [_ H2]|exact Hpq].
    + apply Hv.
Qed.
End Scan.

Lemma chunk_app (n v B : str) : chunk n v ++ B = attr_text (" "%char :: n) v B.
Proof.
  unfold chunk, attr_text. simpl. rewrite <- app_assoc. simpl.
  now rewrite <- app_assoc.
Qed.

Lemma chunk_text (n v : str) :
  (" "%char :: n) ++ "="%char :: dquote :: v ++ [dquote] = chunk n v.
Proof. reflexivity. Qed.

Lemma outerHTML_body (e : Element) :
  outerHTML e = ("<"%char :: e_tag e) ++ body (e_attrs e) (e_rest e).
Proof. unfold outerHTML, opening, body. simpl. now rewrite <- app_assoc. Qed.

(** ** The expressions that start with white space *)

Section Spaced.
Variable m : str -> option nat.
Variable r : str -> str.
Variable P : str -> Prop.
Variable nb : str -> bool.
Hypothesis HP : attr_re m P.
Hypothesis Hsp : forall p, P p -> exists w t, p = w :: t /\ is_space w = true.
Hypothesis Hnb : forall n, P (" "%char :: n) <-> nb n = true.

Lemma no_match_nonspace (c : ascii) (s : str) :
  is_space c = false -> m (c :: s) = None.
Proof.
  intros Hc. destruct (m (c :: s)) as [k|] eqn:E; [|reflexivity].
  destruct (re_sound _ _ HP _ _ E) as (p & val & rest & Hs & _ & Hp & _).
  destruct (Hsp p Hp) as (w & t & -> & Hw). inversion Hs; subst. congruence.
Qed.

Lemma scan_nospace (A B : str) :
  nospace A -> gsub m r (A ++ B) = A ++ gsub m r B.
Proof.
  induction 1 as [|c A Hc HA IH]; [reflexivity|].
  simpl. rewrite gsub_nomatch by now apply no_match_nonspace. now rewrite IH.
Qed.

Lemma scan_chunk_spaced (n v B : str) :
  name_ok n -> value_ok v ->
  gsub m r (chunk n v ++ B)
  = (if nb n then r (chunk n v) else chunk n v) ++ gsub m r B.
Proof.
  intros [Hnq Hns] Hv. rewrite chunk_app.
  assert (Hq : nodq (" "%char :: n)) by (constructor; [reflexivity|exact Hnq]).
  destruct (nb n) eqn:E.
  - apply Hnb in E.
    change (attr_text (" "%char :: n) v B) with (attr_text ([] ++ " "%char :: n) v B).
    rewrite (scan_attr_replace m r P HP [] (" "%char :: n) v B); auto.
    + constructor.
    + intros A1 A2 H. now destruct A1, A2.
  - rewrite (scan_attr_copy m r P HP (" "%char :: n) v B); auto.
    + unfold chunk. simpl. rewrite <- app_assoc. simpl. now rewrite <- app_assoc.
    + intros N1 N2 H Hne HPN.
      destruct N1 as [|c N1]; simpl in H.
      * subst N2. apply Hnb in HPN. congruence.
      * inversion H; subst.
        destruct (Hsp N2 HPN) as (w & t & -> & Hw).
        apply Forall_app in Hns as [_ Hns]. inversion Hns; subst. congruence.
Qed.

Lemma scan_body_spaced (attrs : list Attr) (T : str) :
  Forall attr_ok attrs ->
  gsub m r (body attrs T)
  = flat_map (fun a => if nb (a_name a) then r (render_attr a) else render_attr a)
             attrs
    ++ ">"%char :: gsub m r T.
Proof.
  unfold body. induction 1 as [|a attrs [Hn Hv] Hs IH]; cbn [flat_map].
  - apply gsub_nomatch. now apply no_match_nonspace.
  - rewrite <- !app_assoc. unfold render_attr at 1.
    rewrite (scan_chunk_spaced _ _ _ Hn Hv). now rewrite IH.
Qed.

Lemma scan_html_spaced (tag : str) (attrs : list Attr) (T : str) :
  name_ok tag -> Forall attr_ok attrs ->
  gsub m r (("<"%char :: tag) ++ body attrs T)
  = ("<"%char :: tag)
    ++ flat_map (fun a => if nb (a_name a) then r (render_attr a) else render_attr a)
                attrs
    ++ ">"%char :: gsub m r T.
Proof.
  intros [_ Ht] Ha. rewrite scan_nospace.
  - now rewrite scan_body_spaced.
  - constructor; [reflexivity|exact Ht].
Qed.
End Spaced.

(** ** The [aria-controls] expression *)

Lemma ends_with_iff (suffix s : str) :
  ends_with suffix s = true <-> exists pre, s = pre ++ suffix.
Proof.
  unfold ends_with. rewrite starts_with_iff. split.
  - intros (rest & H). exists (rev rest).
    rewrite <- (rev_involutive s), H, rev_app_distr, rev_involutive. reflexivity.
  - intros (pre & ->). exists (rev pre). apply rev_app_distr.
Qed.

Lemma no_aria_first (c : ascii) (s : str) :
  c <> "a"%char -> re_aria_controls (c :: s) = None.
Proof.
  intros Hc. destruct (re_aria_controls (c :: s)) as [k|] eqn:E; [|reflexivity].
  destruct (re_sound _ _ attr_re_aria _ _ E) as (p & val & rest & Hs & _ & -> & _).
  inversion Hs. congruence.
Qed.

(** No match starts in a stretch without double quote that is followed by
    a space or by a closing angle bracket. *)
Lemma no_aria_before (A2 B : str) (c : ascii) :
  nodq A2 -> (c = " "%char \/ c = ">"%char) ->
  re_aria_controls (A2 ++ c :: B) = None.
Proof.
  intros Hq Hc.
  destruct (re_aria_controls (A2 ++ c :: B)) as [k|] eqn:E; [|reflexivity].
  destruct (re_sound _ _ attr_re_aria _ _ E) as (p & val & rest & Hs & _ & -> & _).
  exfalso. unfold attr_text in Hs.
  change (L "aria-controls" ++ "="%char :: dquote :: val ++ dquote :: rest)
    with (L "aria-controls=" ++ dquote :: val ++ dquote :: rest) in Hs.
  change (A2 ++ c :: B) with (A2 ++ [c] ++ B) in Hs. rewrite app_assoc in Hs.
  apply app_eq_app in Hs as (l & [[H1 H2]|[H1 H2]]).
  - destruct l as [|x l].
    + rewrite app_nil_r in H1. change (L "aria-controls=") with (L "aria-controls" ++ ["="%char]) in H1.
      apply app_inj_tail in H1 as [_ H1]. destruct Hc; subst c; discriminate.
    + simpl in H2. injection H2 as Hx _. subst x.
      assert (Hin : nodq (L "aria-controls=" ++ dquote :: l)).
      { rewrite <- H1. apply nodq_app. split; [exact Hq|].
        constructor; [|constructor]. destruct Hc; subst c; reflexivity. }
      apply nodq_app in Hin as [_ Hin]. inversion Hin; subst.
      assert (is_char dquote dquote = true) by now apply is_dquote. congruence.
  - assert (Hin : In c (L "aria-controls=")).
    { rewrite H1. apply in_or_app. left. apply in_or_app. right. now left. }
    simpl in Hin. destruct Hc; subst c;
      repeat (destruct Hin as [Hin|Hin]; [discriminate|]); destruct Hin.
Qed.

Lemma scan_chunk_aria (n v B : str) :
  name_ok n -> value_ok v ->
  gsub re_aria_controls r_aria (chunk n v ++ B)
  = render_attr (aria_attr {| a_name := n; a_value := v |})
    ++ gsub re_aria_controls r_aria B.
Proof.
  intros [Hnq Hns] Hv. rewrite chunk_app.
  destruct (ends_with (L "aria-controls") n) eqn:E.
  - assert (Ha : aria_attr {| a_name := n; a_value := v |}
                 = {| a_name := n; a_value := [] |})
      by (unfold aria_attr; cbn [a_name a_value]; now rewrite E).
    rewrite Ha. clear Ha.
    apply ends_with_iff in E as (n1 & ->).
    change (" "%char :: n1 ++ L "aria-controls")
      with ((" "%char :: n1) ++ L "aria-controls").
    rewrite (scan_attr_replace _ r_aria _ attr_re_aria); auto.
    + unfold render_attr, chunk, r_aria. simpl.
      rewrite <- !app_assoc. reflexivity.
    + constructor; [reflexivity|]. now apply nodq_app in Hnq as [H1 _].
    + reflexivity.
    + intros A1 A2 _ Hne HPA. unfold P_aria in HPA.
      apply (f_equal (@length ascii)) in HPA. rewrite length_app in HPA.
      destruct A2; [contradiction|simpl in HPA; lia].
  - assert (Ha : aria_attr {| a_name := n; a_value := v |}
                 = {| a_name := n; a_value := v |})
      by (unfold aria_attr; cbn [a_name a_value]; now rewrite E).
    rewrite Ha. clear Ha.
    rewrite (scan_attr_copy _ r_aria _ attr_re_aria); auto.
    + unfold render_attr, chunk. simpl. rewrite <- app_assoc. simpl.
      now rewrite <- app_assoc.
    + constructor; [reflexivity|exact Hnq].
    + intros N1 N2 H Hne HPN. unfold P_aria in HPN. subst N2.
      destruct N1 as [|c N1]; simpl in H; [discriminate|].
      injection H as _ Hn.
      assert (Hw : ends_with (L "aria-controls") n = true)
        by (apply ends_with_iff; exists N1; exact Hn).
      congruence.
Qed.

Lemma aria_attr_ok (a : Attr) : attr_ok a -> attr_ok (aria_attr a).
Proof.
  intros [Hn Hv]. unfold aria_attr.
  destruct (ends_with _ _); [|now split].
  split; [exact Hn|]. split; [constructor|reflexivity].
Qed.

Lemma body_starts (attrs : list Attr) (T : str) :
  exists c B, body attrs T = c :: B /\ (c = " "%char \/ c = ">"%char).
Proof.
  unfold body. destruct attrs as [|a attrs]; simpl; eauto.
Qed.

Lemma scan_html_aria (tag : str) (attrs : list Attr) (T : str) :
  name_ok tag -> Forall attr_ok attrs ->
  gsub re_aria_controls r_aria (("<"%char :: tag) ++ body attrs T)
  = ("<"%char :: tag) ++ body (map aria_attr attrs) (gsub re_aria_controls r_aria T).
Proof.
  intros [Hq _] Ha. rewrite gsub_skip_prefix.
  - f_equal. unfold body.
    induction Ha as [|a attrs [Hn Hv] Hs IH]; cbn [flat_map map].
    + apply gsub_nomatch. now apply no_aria_first.
    + rewrite <- !app_assoc. unfold render_attr at 1.
      rewrite (scan_chunk_aria _ _ _ Hn Hv). rewrite IH.
      now destruct a.
  - intros A1 A2 H Hne.
    destruct (body_starts attrs T) as (c & B & -> & Hc).
    apply no_aria_before; [|exact Hc].
    assert (nodq ("<"%char :: tag)) by (constructor; [reflexivity|exact Hq]).
    rewrite H in H0. now apply nodq_app in H0 as [_ H2].
Qed.

(** ** The three other passes *)

Lemma spaced_id (p : str) : P_id p -> exists w t, p = w :: t /\ is_space w = true.
Proof. intros (w & Hw & ->). eauto. Qed.

Lemma spaced_class (p : str) : P_class p -> exists w t, p = w :: t /\ is_space w = true.
Proof. intros (w & Hw & ->). eauto. Qed.

Lemma spaced_data (p : str) : P_data p -> exists w t, p = w :: t /\ is_space w = true.
Proof. intros (w & y & Hw & -> & _). eauto. Qed.

Lemma name_id (n : str) : P_id (" "%char :: n) <-> eqb n (L "id") = true.
Proof.
  rewrite eqb_eq. split.
  - intros (w & _ & H). now inversion H.
  - intros ->. exists " "%char. auto.
Qed.

Lemma name_class (n : str) : P_class (" "%char :: n) <-> eqb n (L "class") = true.
Proof.
  rewrite eqb_eq. split.
  - intros (w & _ & H). now inversion H.
  - intros ->. exists " "%char. auto.
Qed.

Lemma name_data (n : str) : P_data (" "%char :: n) <-> is_data_name n = true.
Proof.
  unfold is_data_name. rewrite !andb_true_iff, Nat.leb_le, forallb_forall, <- Forall_forall.
  split.
  - intros (w & y & _ & H & Hne & Hy). injection H as _ Hn. subst n.
    split; [split|exact Hy].
    + apply starts_with_iff. exists y. reflexivity.
    + destruct y; [contradiction|simpl; lia].
  - intros [[H1 H2] H3]. apply starts_with_iff in H1 as (y & ->).
    change (skipn 5 (L "data-" ++ y)) with y in *.
    exists " "%char, y. split; [reflexivity|]. split; [reflexivity|].
    split; [|exact H3]. destruct y; [simpl in H2; lia|discriminate].
Qed.

Lemma id_attr_ok (a : Attr) : attr_ok a -> attr_ok (id_attr a).
Proof.
  intros [Hn Hv]. unfold id_attr.
  destruct (eqb _ _); [|now split].
  split; [exact Hn|]. split; [constructor|reflexivity].
Qed.

(** Dropping attributes before rendering is rendering them as nothing. *)
Lemma kept_text (render : Attr -> str) (attrs : list Attr) :
  flat_map render (filter keep_attr attrs)
  = flat_map (fun a => if keep_attr a then render a else []) attrs.
Proof.
  induction attrs as [|a attrs IH]; [reflexivity|].
  cbn [filter flat_map]. destruct (keep_attr a); cbn [flat_map]; now rewrite IH.
Qed.

Lemma id_pass_text (attrs : list Attr) :
  flat_map (fun a => if eqb (a_name a) (L "id") then r_id (render_attr a)
                     else render_attr a) attrs
  = flat_map render_attr (map id_attr attrs).
Proof.
  induction attrs as [|a l IH]; [reflexivity|].
  cbn [flat_map map]. rewrite IH. f_equal. unfold id_attr.
  destruct (eqb (a_name a) (L "id")) eqn:E; [|reflexivity].
  apply eqb_eq in E. unfold render_attr. simpl. now rewrite E.
Qed.

Lemma data_pass_text (attrs : list Attr) :
  flat_map (fun a => if is_data_name (a_name a) then r_data (render_attr a)
                     else render_attr a) attrs
  = flat_map render_attr (filter keep_attr attrs).
Proof.
  rewrite kept_text. apply flat_map_ext. intros a.
  unfold keep_attr. now destruct (is_data_name (a_name a)).
Qed.

Lemma class_pass_text (attrs : list Attr) :
  flat_map (fun a => if eqb (a_name a) (L "class") then replace_class (render_attr a)
                     else render_attr a) attrs
  = flat_map class_text attrs.
Proof.
  apply flat_map_ext. intros a. unfold class_text.
  destruct (eqb (a_name a) (L "class")) eqn:E; [|reflexivity].
  apply eqb_eq in E. unfold render_attr, replace_class, chunk. rewrite E.
  change (skipn 8 (" "%char :: L "class" ++ "="%char :: dquote :: a_value a ++ [dquote]))
    with (a_value a ++ [dquote]).
  rewrite removelast_last. now destruct (clean_classes (a_value a)).
Qed.

(** [strip_dynamic] on the text of an element: the opening tag becomes the
    tag name followed by [stripped_attrs], whatever the rest. *)
Lemma strip_dynamic_html (tag : str) (attrs : list Attr) (T : str) :
  name_ok tag -> Forall attr_ok attrs ->
  exists T',
    strip_dynamic (("<"%char :: tag) ++ body attrs T)
    = ("<"%char :: tag) ++ stripped_attrs attrs ++ ">"%char :: T'.
Proof.
  intros Ht Ha. unfold strip_dynamic.
  change (fun _ : str => L "aria-controls=" ++ QQ) with r_aria.
  change (fun _ : str => L " id=" ++ QQ) with r_id.
  change (fun _ : str => @nil ascii) with r_data.
  rewrite (scan_html_aria tag attrs T Ht Ha).
  assert (Ha1 : Forall attr_ok (map aria_attr attrs)).
  { apply Forall_map. eapply Forall_impl; [|exact Ha]. apply aria_attr_ok. }
  rewrite (scan_html_spaced re_id r_id P_id (fun n => eqb n (L "id"))
             attr_re_id spaced_id name_id tag _ _ Ht Ha1).
  rewrite id_pass_text.
  assert (Ha2 : Forall attr_ok (map id_attr (map aria_attr attrs))).
  { apply Forall_map. eapply Forall_impl; [|exact Ha1]. apply id_attr_ok. }
  fold (body (map id_attr (map aria_attr attrs))
             (gsub re_id r_id (gsub re_aria_controls r_aria T))).
  rewrite (scan_html_spaced re_data r_data P_data is_data_name
             attr_re_data spaced_data name_data tag _ _ Ht Ha2).
  rewrite data_pass_text.
  assert (Ha3 : Forall attr_ok (filter keep_attr (map id_attr (map aria_attr attrs)))).
  { apply Forall_forall. intros a Hin. apply filter_In in Hin as [Hin _].
    rewrite Forall_forall in Ha2. now apply Ha2. }
  fold (body (filter keep_attr (map id_attr (map aria_attr attrs)))
             (gsub re_data r_data (gsub re_id r_id (gsub re_aria_controls r_aria T)))).
  rewrite (scan_html_spaced re_class replace_class P_class (fun n => eqb n (L "class"))
             attr_re_class spaced_class name_class tag _ _ Ht Ha3).
  rewrite class_pass_text. unfold stripped_attrs. eauto.
Qed.

(** ** White space and case on the text of an element *)

Ltac all_chars c :=
  destruct c as [[] [] [] [] [] [] [] []]; reflexivity.

Lemma lower_char_space (c : ascii) : is_space (lower_char c) = is_space c.
Proof. all_chars c. Qed.

Lemma lower_char_dq (c : ascii) : is_char dquote (lower_char c) = is_char dquote c.
Proof. all_chars c. Qed.

Lemma lower_char_eq (c : ascii) : is_char "=" (lower_char c) = is_char "=" c.
Proof. all_chars c. Qed.

Lemma lower_char_word (c : ascii) : is_word (lower_char c) = is_word c.
Proof. all_chars c. Qed.

Lemma lower_nodq (s : str) : nodq s -> nodq (toLowerCase s).
Proof.
  intros H. apply Forall_map. eapply Forall_impl; [|exact H].
  intros c Hc. now rewrite lower_char_dq.
Qed.

Lemma lower_nospace (s : str) : nospace s -> nospace (toLowerCase s).
Proof.
  intros H. apply Forall_map. eapply Forall_impl; [|exact H].
  intros c Hc. now rewrite lower_char_space.
Qed.

Lemma lower_ends_in_eq (s : str) : ends_in_eq (toLowerCase s) = ends_in_eq s.
Proof.
  unfold ends_in_eq, toLowerCase. rewrite <- map_rev.
  destruct (rev s); simpl; [reflexivity|apply lower_char_eq].
Qed.

Lemma lower_chunk (n v : str) :
  toLowerCase (chunk n v) = chunk (toLowerCase n) (toLowerCase v).
Proof.
  unfold toLowerCase, chunk. simpl. rewrite map_app. simpl. rewrite map_app.
  reflexivity.
Qed.

Lemma lower_body (attrs : list Attr) (T : str) :
  toLowerCase (body attrs T)
  = body (map (fun a => {| a_name := toLowerCase (a_name a);
                           a_value := toLowerCase (a_value a) |}) attrs)
         (toLowerCase T).
Proof.
  unfold body. induction attrs as [|a l IH]; [reflexivity|].
  cbn [flat_map map]. rewrite <- !app_assoc.
  unfold toLowerCase in *. rewrite map_app, IH. f_equal.
  apply lower_chunk.
Qed.

Lemma squeeze_nodq (s : str) : nodq s -> nodq (squeeze s).
Proof. intros H. apply gsub_const_Forall; [exact H|repeat constructor]. Qed.

(** After the white-space pass a string that ended with white space ends
    with a space. *)
Lemma squeeze_from_last_space (v : str) (c : ascii) (k : nat) :
  is_space c = true -> k <= length v ->
  exists u, gsub_from re_spaces (fun _ => L " ") k (v ++ [c]) = u ++ [" "%char].
Proof.
  intros Hc. revert k. induction v as [|a v IH]; intros k Hk.
  - assert (k = 0) as -> by (simpl in Hk; lia).
    exists []. simpl. now rewrite (re_spaces_space _ _ Hc).
  - destruct k as [|k]; [|apply IH; simpl in Hk; lia].
    cbn [app gsub_from]. destruct (is_space a) eqn:Ea.
    + rewrite (re_spaces_space _ _ Ea).
      destruct (Nat.le_gt_cases (span is_space (v ++ [c])) (length v)) as [Hle|Hgt].
      * destruct (IH _ Hle) as (u & ->). exists (" "%char :: u). reflexivity.
      * exists []. rewrite gsub_from_skipn, skipn_all2; [reflexivity|].
        rewrite length_app. simpl. lia.
    + rewrite (re_spaces_other _ _ Ea).
      destruct (IH 0 (Nat.le_0_l _)) as (u & ->). exists (a :: u). reflexivity.
Qed.

Lemma squeeze_ends_in_eq (v : str) :
  ends_in_eq v = false -> ends_in_eq (squeeze v) = false.
Proof.
  destruct v as [|c v0] using rev_ind; [reflexivity|]. clear IHv0.
  rewrite ends_in_eq_snoc. intros Hc.
  destruct (is_space c) eqn:Es.
  - destruct (squeeze_from_last_space v0 c 0 Es (Nat.le_0_l _)) as (u & Hu).
    unfold squeeze, gsub. rewrite Hu. now rewrite ends_in_eq_snoc.
  - rewrite (squeeze_app v0 [] c Es).
    change (squeeze v0 ++ c :: squeeze []) with (squeeze v0 ++ [c]).
    now rewrite ends_in_eq_snoc.
Qed.

Lemma collapse_attr_ok (a : Attr) : attr_ok a -> attr_ok (collapse_attr a).
Proof.
  intros [[Hq Hs] [Hvq Hve]]. unfold collapse_attr. split; split; simpl.
  - now apply lower_nodq.
  - now apply lower_nospace.
  - now apply lower_nodq, squeeze_nodq.
  - rewrite lower_ends_in_eq. now apply squeeze_ends_in_eq.
Qed.

Lemma squeeze_chunk (n v B : str) :
  name_ok n ->
  squeeze (chunk n v ++ B) = chunk n (squeeze v) ++ squeeze B.
Proof.
  intros [_ Hs]. rewrite !chunk_app. unfold attr_text.
  set (R := "="%char :: dquote :: v ++ dquote :: B).
  change ((" "%char :: n) ++ R) with (" "%char :: (n ++ R)).
  assert (Hx : exists c t, n ++ R = c :: t /\ is_space c = false).
  { destruct Hs as [|c n Hc Hn]; simpl; [unfold R|]; eauto. }
  destruct Hx as (c & t & Hx & Hc).
  rewrite Hx, (squeeze_space_then _ _ Hc), <- Hx. simpl. f_equal.
  rewrite (squeeze_plain n R Hs). f_equal. unfold R.
  rewrite !squeeze_cons_other by reflexivity. do 2 f_equal.
  apply squeeze_app. reflexivity.
Qed.

Lemma squeeze_body (attrs : list Attr) (T : str) :
  Forall attr_ok attrs ->
  squeeze (body attrs T)
  = body (map (fun a => {| a_name := a_name a; a_value := squeeze (a_value a) |}) attrs)
         (squeeze T).
Proof.
  unfold body. induction 1 as [|a l [Hn _] Hl IH]; cbn [flat_map map].
  - now apply squeeze_cons_other.
  - rewrite <- !app_assoc. unfold render_attr at 1.
    rewrite (squeeze_chunk _ _ _ Hn), IH. reflexivity.
Qed.

Lemma trim_html (tag : str) (attrs : list Attr) (T : str) :
  trim (("<"%char :: tag) ++ body attrs T)
  = ("<"%char :: tag) ++ body attrs (trimEnd T).
Proof.
  unfold body. simpl. rewrite !app_assoc.
  rewrite trim_tagged by reflexivity. reflexivity.
Qed.

Lemma lower_html (tag : str) (attrs : list Attr) (T : str) :
  toLowerCase (("<"%char :: tag) ++ body attrs T)
  = ("<"%char :: toLowerCase tag)
    ++ body (map (fun a => {| a_name := toLowerCase (a_name a);
                              a_value := toLowerCase (a_value a) |}) attrs)
            (toLowerCase T).
Proof.
  rewrite <- lower_body. unfold toLowerCase. now rewrite map_app.
Qed.

(** [collapse] on the text of an element. *)
Lemma collapse_html (e : Element) :
  element_ok e ->
  exists T',
    collapse (outerHTML e)
    = ("<"%char :: toLowerCase (e_tag e)) ++ body (map collapse_attr (e_attrs e)) T'.
Proof.
  intros (_ & [_ Hts] & Ha). rewrite outerHTML_body. unfold collapse.
  fold (squeeze (("<"%char :: e_tag e) ++ body (e_attrs e) (e_rest e))).
  rewrite squeeze_plain by (constructor; [reflexivity|exact Hts]).
  rewrite (squeeze_body _ _ Ha), trim_html, lower_html, map_map.
  exists (toLowerCase (trimEnd (squeeze (e_rest e)))). reflexivity.
Qed.

Lemma collapsed_ok (e : Element) :
  element_ok e ->
  name_ok (toLowerCase (e_tag e)) /\
  Forall attr_ok (map collapse_attr (e_attrs e)) /\
  exists c t, toLowerCase (e_tag e) = c :: t /\ is_word c = true.
Proof.
  intros ((c & t & Ht & Hc) & [Hq Hs] & Ha). split; [|split].
  - split; [now apply lower_nodq|now apply lower_nospace].
  - apply Forall_map. eapply Forall_impl; [|exact Ha]. apply collapse_attr_ok.
  - rewrite Ht. exists (lower_char c), (toLowerCase t).
    split; [reflexivity|]. now rewrite lower_char_word.
Qed.

(** ** Parsing the opening tag *)

(** What [elementMatch] returns depends on the text up to the first closing
    angle bracket only. *)
Lemma elementMatch_indep (A X Y : str) :
  elementMatch ("<"%char :: A ++ ">"%char :: X)
  = elementMatch ("<"%char :: A ++ ">"%char :: Y).
Proof.
  unfold elementMatch.
  replace (is_char "<" "<") with true by reflexivity.
  rewrite !(span_app_stop is_word A _ ">"%char eq_refl).
  destruct (span is_word A) as [|n] eqn:E; [reflexivity|].
  pose proof (span_le is_word A) as Hle. rewrite E in Hle.
  rewrite !skipn_app, !firstn_app.
  replace (S n - length A) with 0 by lia. rewrite !skipn_O, !firstn_O, !app_nil_r.
  destruct (index_where_app_indep (is_char ">") (skipn (S n) A) X Y ">"%char eq_refl)
    as (H1 & j & H2 & H3).
  rewrite <- H1, H2. rewrite !firstn_app.
  replace (j - length (skipn (S n) A)) with 0 by lia.
  now rewrite !firstn_O, !app_nil_r.
Qed.

Lemma elementMatch_some (c : ascii) (A X : str) :
  is_word c = true -> elementMatch ("<"%char :: (c :: A) ++ ">"%char :: X) <> None.
Proof.
  intros Hc. unfold elementMatch.
  replace (is_char "<" "<") with true by reflexivity.
  rewrite (span_app_stop is_word (c :: A) X ">"%char eq_refl).
  assert (Hs : span is_word (c :: A) = S (span is_word A)) by (simpl; now rewrite Hc).
  rewrite Hs.
  pose proof (span_le is_word A) as Hle.
  rewrite skipn_app.
  replace (S (span is_word A) - length (c :: A)) with 0 by (simpl; lia).
  rewrite skipn_O.
  destruct (index_where_app_indep (is_char ">")
              (skipn (S (span is_word A)) (c :: A)) X X ">"%char eq_refl)
    as (_ & i & -> & _).
  discriminate.
Qed.

(** ** The attributes after both steps *)

Lemma stripped_attrs_flat (l : list Attr) : stripped_attrs l = flat_map strip1 l.
Proof.
  unfold stripped_attrs. rewrite kept_text.
  induction l as [|a l IH]; [reflexivity|].
  cbn [map flat_map]. now rewrite IH.
Qed.

Lemma strip1_id (v : str) :
  strip1 {| a_name := L "id"; a_value := v |} = chunk (L "id") [].
Proof. reflexivity. Qed.

Lemma strip1_class (v : str) :
  strip1 {| a_name := L "class"; a_value := v |}
  = match clean_classes v with
    | [] => []
    | c => L " class=" ++ [dquote] ++ c ++ [dquote]
    end.
Proof. reflexivity. Qed.

Lemma clean_kept (v : str) :
  clean_classes (toLowerCase (squeeze v)) = join (L " ") (kept_classes v).
Proof. reflexivity. Qed.

Lemma strip1_same (a b : Attr) :
  same_attr a b -> strip1 (collapse_attr a) = strip1 (collapse_attr b).
Proof.
  destruct a as [n va], b as [n' vb]. unfold same_attr, collapse_attr.
  cbn [a_name a_value].
  intros [<- [<- | [Hid | [Hc Hk]]]]; [reflexivity| |].
  - rewrite Hid. now rewrite !strip1_id.
  - rewrite Hc. now rewrite !strip1_class, !clean_kept, Hk.
Qed.

Lemma stripped_same (l1 l2 : list Attr) :
  Forall2 same_attr l1 l2 ->
  stripped_attrs (map collapse_attr l1) = stripped_attrs (map collapse_attr l2).
Proof.
  rewrite !stripped_attrs_flat.
  induction 1 as [|a b l1 l2 Hab Hl IH]; [reflexivity|].
  cbn [map flat_map]. now rewrite IH, (strip1_same a b Hab).
Qed.

(** The normalized HTML of a well-formed element. *)
Lemma normalizeHtml_html (e : Element) :
  element_ok e ->
  exists c t T',
    toLowerCase (e_tag e) = c :: t /\ is_word c = true /\
    normalizeHtml (outerHTML e)
    = "<"%char :: ((c :: t) ++ stripped_attrs (map collapse_attr (e_attrs e)))
                  ++ ">"%char :: T'.
Proof.
  intros He. destruct (collapsed_ok e He) as (Hn & Ha & c & t & Ht & Hc).
  destruct (collapse_html e He) as (T1 & H1).
  destruct (strip_dynamic_html _ _ T1 Hn Ha) as (T2 & H2).
  exists c, t, T2. split; [exact Ht|]. split; [exact Hc|].
  unfold normalizeHtml. rewrite H1, H2, Ht. simpl. now rewrite <- app_assoc.
Qed.

Lemma signature_same_shape (e1 e2 : Element) (v1 v2 : ViolationWithContext) :
  html v1 = outerHTML e1 -> html v2 = outerHTML e2 ->
  element_ok e1 -> element_ok e2 -> same_shape e1 e2 ->
  ruleId v1 = ruleId v2 -> impact v1 = impact v2 ->
  selectorPattern (cssSelector (context v1))
  = selectorPattern (cssSelector (context v2)) ->
  createViolationSignature v1 = createViolationSignature v2.
Proof.
  intros Hh1 Hh2 He1 He2 [Htag Hattrs] Hr Hi Hsel.
  destruct (normalizeHtml_html e1 He1) as (c1 & t1 & T1 & Ht1 & Hc1 & N1).
  destruct (normalizeHtml_html e2 He2) as (c2 & t2 & T2 & Ht2 & Hc2 & N2).
  rewrite <- Htag, Ht1 in Ht2. injection Ht2 as <- <-.
  rewrite <- (stripped_same _ _ Hattrs) in N2.
  unfold createViolationSignature. rewrite Hh1, Hh2, N1, N2.
  rewrite (elementMatch_indep _ T2 T1).
  destruct (elementMatch _) as [[tagName attributes]|] eqn:E.
  - unfold signatureData. now rewrite Hr, Hi, Hsel.
  - exfalso. revert E.
    change ("<"%char :: ((c1 :: t1) ++ stripped_attrs (map collapse_attr (e_attrs e1)))
              ++ ">"%char :: T1)
      with ("<"%char :: (c1 :: (t1 ++ stripped_attrs (map collapse_attr (e_attrs e1))))
              ++ ">"%char :: T1).
    now apply elementMatch_some.
Qed.

End StabilityFacts.

Module StabilityClaims.
Import Str Grouper GrouperSpec StrFacts GrouperFacts Stability StabilitySamples StabilityFacts.

Lemma NoDup_map_eq {A B : Type} (f : A -> B) (l : list A) (x y : A) :
  NoDup (map f l) -> In x l -> In y l -> f x = f y -> x = y.
Proof.
  induction l as [|a l IH]; simpl; [tauto|].
  intros Hnd Hx Hy Hf. inversion Hnd as [|? ? Hnotin Hnd']; subst.
  destruct Hx as [->|Hx], Hy as [->|Hy]; auto.
  - exfalso. apply Hnotin. rewrite Hf. now apply in_map.
  - exfalso. apply Hnotin. rewrite <- Hf. now apply in_map.
Qed.



Lemma click_element_ok : element_ok click_element.
Proof.
  split; [exists "b"%char, (L "utton"); split; reflexivity|].
  split; [split; repeat constructor|].
  repeat constructor.
Qed.

Lemma submit_element_ok : element_ok submit_element.
Proof.
  split; [exists "b"%char, (L "utton"); split; reflexivity|].
  split; [split; repeat constructor|].
  repeat constructor.
Qed.

Lemma click_submit_same_shape : same_shape click_element submit_element.
Proof.
  split; [reflexivity|]. constructor; [|constructor; [|constructor; [|constructor]]].
  - split; [reflexivity|]. right. left. reflexivity.
  - split; [reflexivity|]. right. right. split; vm_compute; reflexivity.
  - split; [reflexivity|]. now left.
Qed.


End StabilityClaims.

(* ================================================================== *)
(** * The order and the origin of the crawled pages *)

Module CrawlFacts.
Import Str Crawler CrawlerSpec CrawlSpec StrFacts CrawlerFacts.

Lemma sorted_app (a b : list nat) :
  StronglySorted le (a ++ b) <->
  StronglySorted le a /\ StronglySorted le b /\
  (forall x y, In x a -> In y b -> x <= y).
Proof.
  induction a as [|h a IH]; simpl.
  - split; [intros H; repeat split; [constructor|exact H|intros x y []]|tauto].
  - split.
    + intros H. apply StronglySorted_inv in H as [Hs Hf].
      apply IH in Hs as (Ha & Hb & Hab).
      rewrite Forall_forall in Hf.
      repeat split; auto.
      * constructor; [exact Ha|]. apply Forall_forall. intros x Hx.
        apply Hf, in_or_app. now left.
      * intros x y [<-|Hx] Hy; [apply Hf, in_or_app; now right|now apply Hab].
    + intros (Ha & Hb & Hab). apply StronglySorted_inv in Ha as [Ha Hf].
      constructor.
      * apply IH. repeat split; auto.
      * rewrite Forall_forall in *. intros x Hx. apply in_app_or in Hx as [Hx|Hx]; auto.
Qed.

Lemma uniq_from (l s : list str) :
  NoDup s ->
  NoDup (fold_left (fun s x => set_add x s) l s) /\
  (forall u, In u (fold_left (fun s x => set_add x s) l s) <-> In u s \/ In u l) /\
  (NoDup (s ++ l) -> fold_left (fun s x => set_add x s) l s = s ++ l).
Proof.
  revert s. induction l as [|x l IH]; intros s Hs; simpl.
  - split; [exact Hs|]. split; [tauto|]. now rewrite app_nil_r.
  - change (set_add x s) with (if set_has x s then s else s ++ [x]).
    destruct (set_has x s) eqn:E.
    + destruct (IH s Hs) as (H1 & H2 & H3). split; [exact H1|]. split.
      * intros u. rewrite H2. apply set_has_In in E.
        split; [tauto|]. intros [H|[<-|H]]; auto.
      * intros Hn. apply set_has_In in E. apply NoDup_remove_2 in Hn.
        exfalso. apply Hn. apply in_or_app. now left.
    + assert (Hs' : NoDup (s ++ [x])).
      { apply (Permutation_NoDup (Permutation_cons_append _ _)).
        constructor; [now apply set_has_not_In|exact Hs]. }
      destruct (IH (s ++ [x]) Hs') as (H1 & H2 & H3). split; [exact H1|]. split.
      * intros u. rewrite H2, in_app_iff. simpl. tauto.
      * intros Hn. rewrite <- app_assoc in H3. exact (H3 Hn).
Qed.

Section Loop.
Variable pathname : str -> option str.
Variable web : str -> PageOutcome.
Variable maxPagesV maxDepthV : nat.
Variable includeV excludeV disallowedPaths : list str.

Let step' := step pathname web maxPagesV maxDepthV includeV excludeV disallowedPaths.
Let run' := run pathname web maxPagesV maxDepthV includeV excludeV disallowedPaths.
Let reachable' :=
  reachable pathname web maxPagesV maxDepthV includeV excludeV disallowedPaths.

(** What [visit] does: nothing, or it records the page and queues its
    links. *)
Lemma visit_cases (u : str) (d : nat) (st : State) :
  visit web maxDepthV u d st = st \/
  exists status ttl anchors,
    web u = Loaded status (Some ttl) anchors /\ 200 <= status < 400 /\
    visit web maxDepthV u d st
    = {| visited := visited st;
         toVisit := toVisit st ++ new_tasks maxDepthV (visited st) d anchors;
         results := results st ++
           [{| url := u; depth := d; statusCode := status; title := ttl |}] |}.
Proof.
  unfold visit, new_tasks.
  destruct (web u) as [|status ttl anchors] eqn:Ew; [now left|].
  destruct ((200 <=? status) && (status <? 400)) eqn:Es; [|now left].
  destruct ttl as [ttl|]; [|now left].
  right. exists status, ttl, anchors.
  apply andb_true_iff in Es as [E1 E2].
  apply Nat.leb_le in E1. apply Nat.ltb_lt in E2.
  split; [reflexivity|]. split; [lia|].
  destruct (d <? maxDepthV).
  - destruct anchors as [a|]; simpl.
    + f_equal.
      destruct (enqueue_links_spec (visited st) d (extractLinks a) (toVisit st))
        as (added & H1 & _ & kept & H3 & H4).
      rewrite H1, H3, H4. reflexivity.
    + now rewrite app_nil_r.
  - simpl. now rewrite app_nil_r.
Qed.

(** The three outcomes of a turn of the loop: the task is skipped, the page
    is admitted but not recorded, or it is recorded. *)
Lemma step_shapes (st st' : State) :
  step' st = Some st' ->
  exists task rest,
    toVisit st = task :: rest /\ length (results st) < maxPagesV /\
    (st' = {| visited := visited st; toVisit := rest; results := results st |}
     \/ (~ In (t_url task) (visited st) /\
         st' = {| visited := visited st ++ [t_url task]; toVisit := rest;
                  results := results st |})
     \/ (~ In (t_url task) (visited st) /\ t_depth task <= maxDepthV /\
         passes_filters pathname includeV excludeV disallowedPaths (t_url task) /\
         exists status ttl anchors,
           web (t_url task) = Loaded status (Some ttl) anchors /\
           200 <= status < 400 /\
           st' = {| visited := visited st ++ [t_url task];
                    toVisit := rest ++ new_tasks maxDepthV (visited st ++ [t_url task])
                                         (t_depth task) anchors;
                    results := results st ++
                      [{| url := t_url task; depth := t_depth task;
                          statusCode := status; title := ttl |}] |})).
Proof.
  unfold step', step. destruct (toVisit st) as [|task rest]; [discriminate|].
  destruct (length (results st) <? maxPagesV) eqn:El; [|discriminate].
  apply Nat.ltb_lt in El. intros H. exists task, rest.
  split; [reflexivity|]. split; [exact El|].
  simpl in H.
  destruct (set_has (t_url task) (visited st)) eqn:Ev; [left; congruence|].
  destruct (maxDepthV <? t_depth task) eqn:Ed; [left; congruence|].
  destruct (shouldExclude pathname (t_url task) excludeV disallowedPaths) eqn:Ex;
    [left; congruence|].
  destruct ((0 <? length includeV) && negb (matchesAnyPattern (t_url task) includeV))
    eqn:Ei; [left; congruence|].
  right. injection H as <-.
  pose proof Ev as Ev'. apply set_has_not_In in Ev'. apply Nat.ltb_ge in Ed.
  unfold set_add. simpl. rewrite Ev.
  destruct (visit_cases (t_url task) (t_depth task)
              {| visited := visited st ++ [t_url task]; toVisit := rest;
                 results := results st |})
    as [->|(status & ttl & anchors & Hw & Hs & ->)].
  - left. split; [exact Ev'|reflexivity].
  - right. split; [exact Ev'|]. split; [exact Ed|]. split.
    + split; [exact Ex|].
      destruct (matchesAnyPattern (t_url task) includeV); [now right|left].
      rewrite andb_true_r in Ei. apply Nat.ltb_ge in Ei.
      apply length_zero_iff_nil. lia.
    + exists status, ttl, anchors. simpl. auto.
Qed.

Lemma in_new_tasks (vis : list str) (d : nat) (anchors : option (list str))
    (t : CrawlTask) :
  In t (new_tasks maxDepthV vis d anchors) ->
  t_depth t = d + 1 /\ d < maxDepthV /\
  exists a, anchors = Some a /\ In (t_url t) (extractLinks a).
Proof.
  unfold new_tasks. destruct (d <? maxDepthV) eqn:Ed; [|intros []].
  apply Nat.ltb_lt in Ed.
  destruct anchors as [a|]; [|intros []].
  intros H. apply in_map_iff in H as (l & <- & Hl). apply filter_In in Hl as [Hl _].
  simpl. eauto.
Qed.

(** ** An invariant of the loop is an invariant of the run *)

Lemma run_reachable (fuel : nat) (st st' : State) :
  run' fuel st = Some st' -> reachable' st st'.
Proof.
  unfold run', reachable'.
  assert (G : forall fuel s, reachable' st s ->
            run pathname web maxPagesV maxDepthV includeV excludeV
                disallowedPaths fuel s = Some st' -> reachable' st st').
  { clear fuel. induction fuel as [|f IH]; intros s Hr; simpl.
    - destruct (step _ _ _ _ _ _ _ s) eqn:E; [discriminate|]. now intros [= <-].
    - destruct (step _ _ _ _ _ _ _ s) as [s1|] eqn:E; [|now intros [= <-]].
      apply IH. eapply reach_step; eauto. }
  apply G. apply reach_start.
Qed.

(** ** The recorded pages pass the filters *)

Lemma step_all_recorded (st st' : State) :
  step' st = Some st' ->
  all_recorded pathname web includeV excludeV disallowedPaths st ->
  all_recorded pathname web includeV excludeV disallowedPaths st'.
Proof.
  intros H Hinv.
  destruct (step_shapes st st' H)
    as (task & rest & Hq & _ & [->|[(_ & ->)|(_ & _ & Hf & status & ttl & anchors & Hw & Hs & ->)]]);
    try exact Hinv.
  unfold all_recorded. simpl. apply Forall_app. split; [exact Hinv|].
  constructor; [|constructor]. simpl. split; [exact Hf|].
  split; [exact Hs|]. now exists anchors.
Qed.

(** ** Breadth first *)

Lemma sorted_const (c : nat) (l : list nat) :
  (forall y, In y l -> y = c) -> StronglySorted le l.
Proof.
  induction l as [|x l IH]; intros H; constructor.
  - apply IH. intros y Hy. apply H. now right.
  - apply Forall_forall. intros y Hy.
    rewrite (H x (or_introl eq_refl)), (H y (or_intror Hy)). lia.
Qed.

Lemma step_breadth_first (st st' : State) :
  step' st = Some st' -> breadth_first st -> breadth_first st'.
Proof.
  intros H [Hs Hq].
  destruct (step_shapes st st' H) as (task & rest & Eq & _ & Hcases).
  unfold depths in Hs. rewrite Eq in Hs, Hq. simpl in Hs.
  apply sorted_app in Hs as (Ha & Hb & Hab).
  apply StronglySorted_inv in Hb as [Hb Hd].
  rewrite Forall_forall in Hd, Hq.
  assert (Hrest : match rest with
                  | [] => True
                  | h :: _ => Forall (fun t => t_depth t <= t_depth h + 1) rest
                  end).
  { destruct rest as [|h r]; [exact I|]. apply Forall_forall. intros t Ht.
    specialize (Hq t (or_intror Ht)).
    specialize (Hd (t_depth h) (or_introl eq_refl)). lia. }
  assert (Hskip : StronglySorted le (map depth (results st) ++ map t_depth rest)).
  { apply sorted_app. repeat split; auto. intros x y Hx Hy. apply Hab; [exact Hx|now right]. }
  destruct Hcases as [->|[(_ & ->)|(_ & _ & _ & status & ttl & anchors & _ & _ & ->)]];
    try (split; [exact Hskip|exact Hrest]).
  assert (Hnew : forall y, In y (map t_depth (new_tasks maxDepthV
                    (visited st ++ [t_url task]) (t_depth task) anchors)) ->
                 y = t_depth task + 1).
  { intros y Hy. apply in_map_iff in Hy as (t & <- & Ht).
    now apply in_new_tasks in Ht as (Ht & _). }
  split.
  - unfold depths. simpl. rewrite !map_app. simpl.
    apply sorted_app. split; [|split].
    + apply sorted_app. repeat split; auto.
      * constructor; constructor.
      * intros x y Hx [<-|[]]. apply Hab; [exact Hx|now left].
    + apply sorted_app. repeat split; auto.
      * eapply sorted_const, Hnew.
      * intros x y Hx Hy. rewrite (Hnew y Hy).
        apply in_map_iff in Hx as (t & <- & Ht). apply (Hq t). now right.
    + intros x y Hx Hy. apply in_app_or in Hx, Hy.
      assert (Hxd : x <= t_depth task).
      { destruct Hx as [Hx|[<-|[]]]; [|lia]. apply Hab; [exact Hx|now left]. }
      destruct Hy as [Hy|Hy].
      * specialize (Hd y Hy). lia.
      * rewrite (Hnew y Hy). lia.
  - cbn [toVisit]. destruct rest as [|h r]; cbn [app].
    + clear H. revert Hnew.
      generalize (new_tasks maxDepthV (visited st ++ [t_url task]) (t_depth task) anchors).
      intros [|n ns] Hnew; [exact I|].
      apply Forall_forall. intros t Ht.
      assert (Hn : t_depth n = t_depth task + 1) by (apply Hnew; now left).
      assert (Htd : t_depth t = t_depth task + 1) by (apply Hnew; now apply in_map).
      lia.
    + apply Forall_forall. intros t [<-|Ht]; [lia|].
      specialize (Hd (t_depth h) (or_introl eq_refl)).
      apply in_app_or in Ht as [Ht|Ht].
      * specialize (Hq t (or_intror (or_intror Ht))). lia.
      * assert (Htd : t_depth t = t_depth task + 1) by (apply Hnew; now apply in_map).
        lia.
Qed.

(** ** The base page comes first *)

Lemma step_rooted (base : str) (st st' : State) :
  step' st = Some st' -> rooted base st -> rooted base st'.
Proof.
  intros H Hr.
  destruct (step_shapes st st' H) as (task & rest & Eq & _ & Hcases).
  unfold rooted in *.
  destruct (results st) as [|r rs] eqn:Er.
  - rewrite Eq in Hr. destruct Hr as [Hr|Hr]; [discriminate|].
    injection Hr as -> ->.
    destruct Hcases as [->|[(_ & ->)|(_ & _ & _ & status & ttl & anchors & _ & _ & ->)]];
      simpl; rewrite ?Er; simpl; auto.
  - destruct Hcases as [->|[(_ & ->)|(_ & _ & _ & status & ttl & anchors & _ & _ & ->)]];
      simpl; rewrite ?Er; simpl; auto.
Qed.

(** ** Every page is linked from a page one level up *)

Lemma has_parent_more (base : str) (rs rs' : list CrawlResult) (u : str) (d : nat) :
  incl rs rs' -> has_parent web base rs u d -> has_parent web base rs' u d.
Proof.
  intros Hi [H|(p & Hp & Hd & Hl)]; [now left|right].
  exists p. auto.
Qed.

Lemma step_linked (base : str) (st st' : State) :
  step' st = Some st' -> linked web base st -> linked web base st'.
Proof.
  intros H [Hr Hq].
  destruct (step_shapes st st' H) as (task & rest & Eq & _ & Hcases).
  rewrite Eq in Hq. apply Forall_cons_iff in Hq as [Ht Hq].
  destruct Hcases as [->|[(_ & ->)|(_ & _ & _ & status & ttl & anchors & Hw & _ & ->)]];
    try (split; assumption).
  set (r := {| url := t_url task; depth := t_depth task;
               statusCode := status; title := ttl |}).
  assert (Hi : incl (results st) (results st ++ [r])) by (apply incl_appl, incl_refl).
  split; simpl.
  - apply Forall_app. split.
    + eapply Forall_impl; [|exact Hr]. intros x. apply has_parent_more, Hi.
    + constructor; [|constructor]. simpl. eapply has_parent_more; eauto.
  - apply Forall_app. split.
    + eapply Forall_impl; [|exact Hq]. intros x. apply has_parent_more, Hi.
    + apply Forall_forall. intros t Hin.
      apply in_new_tasks in Hin as (Hd & _ & a & -> & Hl).
      right. exists r. split; [apply in_or_app; right; now left|].
      split; [exact Hd|]. simpl. unfold links_of. now rewrite Hw.
Qed.

(** ** From the turns to the run *)

Lemma reachable_invariant (P : State -> Prop) (st0 st : State) :
  (forall s s', step' s = Some s' -> P s -> P s') ->
  reachable' st0 st -> P st0 -> P st.
Proof.
  intros Hstep. induction 1 as [|s s' _ IH Hs]; intros H0; [exact H0|].
  apply (Hstep s s' Hs). now apply IH.
Qed.

Lemma run_invariant (P : State -> Prop) (fuel : nat) (st0 st : State) :
  (forall s s', step' s = Some s' -> P s -> P s') ->
  run' fuel st0 = Some st -> P st0 -> P st.
Proof.
  intros Hstep Hrun. apply (reachable_invariant P st0 st Hstep).
  now apply (run_reachable fuel).
Qed.

End Loop.

(** The state a crawl returns from. *)
Lemma crawl_returns (pathname : str -> option str) (web : str -> PageOutcome)
    (robots : RobotsFetch) (o : CrawlOptions) (fuel : nat) (pages : list CrawlResult) :
  crawlWebsite pathname web robots o fuel = Returned pages ->
  exists st,
    run pathname web (effMaxPages o) (effMaxDepth o)
        (default [] (includePatterns o))
        (default defaultExcludePatterns (excludePatterns o))
        (disallowedOf o robots) fuel (initial (baseUrl o)) = Some st /\
    results st = pages.
Proof.
  unfold crawlWebsite, crawl_with.
  destruct (pathname (baseUrl o)); [|discriminate].
  destruct (run _ _ _ _ _ _ _ fuel _) as [st|]; [|discriminate].
  intros [= <-]. eauto.
Qed.

Lemma sample_crawl :
  crawlWebsite CrawlerSamples.path_of CrawlerSamples.site (FetchRejected true)
               CrawlerSamples.site_options 20 = Returned sample_pages.
Proof. vm_compute. reflexivity. Qed.

End CrawlFacts.

Module CrawlClaims.
Import Str Crawler CrawlerSpec CrawlerSamples CrawlSpec StrFacts CrawlerFacts CrawlFacts.

Lemma pages_recorded (pathname : str -> option str)
    (web : str -> PageOutcome) (robots : RobotsFetch) (o : CrawlOptions)
    (fuel : nat) (pages : list CrawlResult) :
  crawlWebsite pathname web robots o fuel = Returned pages ->
  Forall (fun r => crawl_filters pathname o robots (url r) /\ records_page web r) pages.
Proof.
  intros H. destruct (crawl_returns _ _ _ _ _ _ H) as (st & Hrun & <-).
  apply (run_invariant _ _ _ _ _ _ _
           (all_recorded pathname web (default [] (includePatterns o))
              (default defaultExcludePatterns (excludePatterns o))
              (disallowedOf o robots)) fuel _ st
           (step_all_recorded _ _ _ _ _ _ _) Hrun).
  constructor.
Qed.

(** Every page [crawlWebsite] returns passed the filters of the loop (it
    matches no exclude pattern, its path starts with no disallowed path of
    [robots.txt], and it matches an include pattern when there are any), and
    records the status, between 200 and 399, and the title its page gave. *)
Theorem crawled_pages_pass_filters (pathname : str -> option str)
    (web : str -> PageOutcome) (robots : RobotsFetch) (o : CrawlOptions)
    (fuel : nat) (pages : list CrawlResult) :
  crawlWebsite pathname web robots o fuel = Returned pages ->
  Forall (fun r => crawl_filters pathname o robots (url r) /\ records_page web r) pages.
Proof.
  apply pages_recorded.
Qed.

Lemma crawled_pages_pass_filters_witness :
  Forall (fun r => crawl_filters path_of site_options (FetchRejected true) (url r)
                   /\ records_page site r) sample_pages.
Proof.
  exact (crawled_pages_pass_filters path_of site (FetchRejected true) site_options 20
           sample_pages sample_crawl).
Defined.

(** The pages are returned breadth first: along the array the depths never
    decrease. *)
Theorem crawl_is_breadth_first (pathname : str -> option str)
    (web : str -> PageOutcome) (robots : RobotsFetch) (o : CrawlOptions)
    (fuel : nat) (pages : list CrawlResult) :
  crawlWebsite pathname web robots o fuel = Returned pages ->
  StronglySorted le (map depth pages).
Proof.
  intros H. destruct (crawl_returns _ _ _ _ _ _ H) as (st & Hrun & <-).
  assert (Hb : breadth_first st).
  { apply (run_invariant _ _ _ _ _ _ _ breadth_first fuel _ st
             (step_breadth_first _ _ _ _ _ _ _) Hrun).
    split; simpl; [|repeat constructor].
    unfold depths. simpl. repeat constructor. }
  destruct Hb as [Hs _]. unfold depths in Hs.
  now apply sorted_app in Hs as (Hs & _).
Qed.

Lemma crawl_is_breadth_first_witness :
  StronglySorted le (map depth sample_pages).
Proof.
  exact (crawl_is_breadth_first path_of site (FetchRejected true) site_options 20
           sample_pages sample_crawl).
Defined.

(** When [crawlWebsite] returns pages at all, the first one is the base URL
    at depth 0: nothing is crawled unless the base page itself is admitted
    and loads. *)
Theorem crawl_starts_at_base (pathname : str -> option str)
    (web : str -> PageOutcome) (robots : RobotsFetch) (o : CrawlOptions)
    (fuel : nat) (pages : list CrawlResult) :
  crawlWebsite pathname web robots o fuel = Returned pages ->
  pages = [] \/
  exists r rest, pages = r :: rest /\ url r = baseUrl o /\ depth r = 0 /\
                 crawl_filters pathname o robots (baseUrl o) /\
                 exists anchors, web (baseUrl o) = Loaded (statusCode r) (Some (title r)) anchors.
Proof.
  intros H. pose proof (pages_recorded pathname web robots o fuel pages H) as Hf.
  destruct (crawl_returns _ _ _ _ _ _ H) as (st & Hrun & <-).
  assert (Hr : rooted (baseUrl o) st).
  { apply (run_invariant _ _ _ _ _ _ _ (rooted (baseUrl o)) fuel _ st
             (step_rooted _ _ _ _ _ _ _ (baseUrl o)) Hrun).
    right. reflexivity. }
  unfold rooted in Hr. destruct (results st) as [|r rest]; [now left|right].
  destruct Hr as [Hu Hd]. exists r, rest.
  apply Forall_inv in Hf as [Hp [_ Hl]]. rewrite Hu in Hp, Hl. auto.
Qed.

Lemma crawl_starts_at_base_witness :
  exists r rest, sample_pages = r :: rest /\ url r = home /\ depth r = 0.
Proof.
  destruct (crawl_starts_at_base path_of site (FetchRejected true) site_options 20
              sample_pages sample_crawl) as [H|(r & rest & H & Hu & Hd & _)].
  - discriminate H.
  - exists r, rest. auto.
Defined.

(** Every page returned is the base URL at depth 0 or, at depth [d + 1], the
    target of a link found on a returned page of depth [d]. *)
Theorem crawled_pages_are_linked (pathname : str -> option str)
    (web : str -> PageOutcome) (robots : RobotsFetch) (o : CrawlOptions)
    (fuel : nat) (pages : list CrawlResult) :
  crawlWebsite pathname web robots o fuel = Returned pages ->
  Forall (fun r => has_parent web (baseUrl o) pages (url r) (depth r)) pages.
Proof.
  intros H. destruct (crawl_returns _ _ _ _ _ _ H) as (st & Hrun & <-).
  assert (Hl : linked web (baseUrl o) st).
  { apply (run_invariant _ _ _ _ _ _ _ (linked web (baseUrl o)) fuel _ st
             (step_linked _ _ _ _ _ _ _ (baseUrl o)) Hrun).
    split; simpl; constructor; [|constructor]. now left. }
  exact (proj1 Hl).
Qed.

Lemma crawled_pages_are_linked_witness :
  Forall (fun r => has_parent site home sample_pages (url r) (depth r)) sample_pages.
Proof.
  exact (crawled_pages_are_linked path_of site (FetchRejected true) site_options 20
           sample_pages sample_crawl).
Defined.

(** ** [extractLinks] *)


End CrawlClaims.

(* ================================================================== *)
(** * Properties of the [robots.txt] parser *)

Module RobotsFacts.
Import Str Crawler CrawlerSpec CrawlSpec StrFacts RegexFacts.

(** ** Trimming *)

Lemma trimStart_head (s : str) :
  trimStart s = [] \/ exists c t, trimStart s = c :: t /\ is_space c = false.
Proof.
  unfold trimStart. induction s as [|c t IH]; simpl; [now left|].
  destruct (is_space c) eqn:E; simpl; [exact IH|].
  right. eauto.
Qed.

Lemma trimStart_suffix (s : str) : exists w, s = w ++ trimStart s.
Proof.
  unfold trimStart. exists (firstn (span is_space s) s).
  now rewrite firstn_skipn.
Qed.

Lemma trimEnd_last (s : str) :
  trimEnd s = [] \/ exists t d, trimEnd s = t ++ [d] /\ is_space d = false.
Proof.
  unfold trimEnd. destruct (trimStart_head (rev s)) as [->|(c & t & -> & Hc)].
  - now left.
  - right. exists (rev t), c. simpl. auto.
Qed.

Lemma trimEnd_prefix (s : str) : exists w, s = trimEnd s ++ w.
Proof.
  unfold trimEnd. destruct (trimStart_suffix (rev s)) as (w & Hw).
  exists (rev w). rewrite <- rev_app_distr, <- Hw. now rewrite rev_involutive.
Qed.

(** A trimmed string is empty or starts and ends with a character that is
    not white space. *)
Lemma trim_shape (s : str) :
  trim s = [] \/
  (exists c t, trim s = c :: t /\ is_space c = false) /\
  (exists t d, trim s = t ++ [d] /\ is_space d = false).
Proof.
  unfold trim.
  destruct (trimStart_head (trimEnd s)) as [->|(c & t & Hs & Hc)]; [now left|].
  right. split; [eauto|].
  destruct (trimEnd_last s) as [E|(t' & d & E & Hd)].
  - rewrite E in Hs. discriminate Hs.
  - destruct (trimStart_suffix (trimEnd s)) as (w & Hw).
    rewrite Hs in *. rewrite E in Hw.
    destruct (exists_last (l := c :: t)) as (t2 & d2 & E2); [discriminate|].
    rewrite E2 in Hw |- *. rewrite app_assoc in Hw.
    apply app_inj_tail in Hw as [_ <-]. eauto.
Qed.

Lemma trim_fixed (p : str) (c d : ascii) (t t' : str) :
  p = c :: t -> p = t' ++ [d] -> is_space c = false -> is_space d = false ->
  trim p = p.
Proof.
  intros Hp Hq Hc Hd. unfold trim.
  assert (He : trimEnd p = p).
  { rewrite Hq. rewrite (trimEnd_app_stop t' [] d Hd). reflexivity. }
  rewrite He, Hp. unfold trimStart. now rewrite (span_none _ _ _ Hc).
Qed.

Lemma trim_idempotent (s : str) : trim (trim s) = trim s.
Proof.
  destruct (trim_shape s) as [->|[(c & t & H1 & Hc) (t' & d & H2 & Hd)]];
    [reflexivity|].
  eapply trim_fixed; eauto.
Qed.

Lemma trim_fixed_shape (p : str) :
  trim p = p -> p <> [] ->
  (exists c t, p = c :: t /\ is_space c = false) /\
  (exists t d, p = t ++ [d] /\ is_space d = false).
Proof.
  intros H Hne. destruct (trim_shape p) as [E|E]; rewrite H in E; [contradiction|exact E].
Qed.

Lemma In_trimStart (c : ascii) (s : str) : In c (trimStart s) -> In c s.
Proof.
  destruct (trimStart_suffix s) as (w & Hw). intros H. rewrite Hw.
  apply in_or_app. now right.
Qed.

Lemma In_trim (c : ascii) (s : str) : In c (trim s) -> In c s.
Proof.
  unfold trim. intros H. apply In_trimStart in H.
  destruct (trimEnd_prefix s) as (w & Hw). rewrite Hw. apply in_or_app. now left.
Qed.

Lemma In_skipn {A} (x : A) (n : nat) (l : list A) : In x (skipn n l) -> In x l.
Proof.
  intros H. rewrite <- (firstn_skipn n l). apply in_or_app. now right.
Qed.

(** ** Splitting at a character *)

Lemma starts_with_char (c0 c : ascii) (t : str) :
  starts_with [c0] (c :: t) = Ascii.eqb c0 c.
Proof. simpl. apply andb_true_r. Qed.

Lemma split_from_pieces (c0 : ascii) (s cur : str) :
  ~ In c0 cur ->
  Forall (fun piece => ~ In c0 piece) (split_from [c0] 0 cur s).
Proof.
  revert cur. induction s as [|c t IH]; intros cur Hc.
  - constructor; [|constructor]. now rewrite <- in_rev.
  - cbn [split_from]. rewrite starts_with_char.
    destruct (Ascii.eqb_spec c0 c) as [<-|Hne].
    + constructor; [now rewrite <- in_rev|]. simpl. apply IH. intros [].
    + apply IH. intros [H|H]; [now subst|contradiction].
Qed.

Lemma split_pieces (c0 : ascii) (s : str) :
  Forall (fun piece => ~ In c0 piece) (split [c0] s).
Proof. apply split_from_pieces. intros []. Qed.

Lemma split_from_plain (c0 : ascii) (a cur : str) :
  ~ In c0 a -> split_from [c0] 0 cur a = [rev cur ++ a].
Proof.
  revert cur. induction a as [|c a IH]; intros cur Ha.
  - simpl. now rewrite app_nil_r.
  - cbn [split_from]. rewrite starts_with_char.
    destruct (Ascii.eqb_spec c0 c) as [<-|Hne]; [exfalso; apply Ha; now left|].
    rewrite IH by (intros H; apply Ha; now right).
    simpl. now rewrite <- app_assoc.
Qed.

Lemma split_from_sep (c0 : ascii) (a b cur : str) :
  ~ In c0 a ->
  split_from [c0] 0 cur (a ++ c0 :: b) = (rev cur ++ a) :: split_from [c0] 0 [] b.
Proof.
  revert cur. induction a as [|c a IH]; intros cur Ha.
  - cbn [app split_from]. rewrite starts_with_char, Ascii.eqb_refl.
    simpl. now rewrite app_nil_r.
  - cbn [app split_from]. rewrite starts_with_char.
    destruct (Ascii.eqb_spec c0 c) as [<-|Hne]; [exfalso; apply Ha; now left|].
    rewrite IH by (intros H; apply Ha; now right).
    simpl. now rewrite <- app_assoc.
Qed.

(** Splitting what was joined gives the pieces back. *)
Lemma split_join (c0 : ascii) (x : str) (l : list str) :
  Forall (fun piece => ~ In c0 piece) (x :: l) ->
  split [c0] (join [c0] (x :: l)) = x :: l.
Proof.
  unfold split. revert x. induction l as [|y l IH]; intros x H.
  - apply Forall_inv in H. simpl. now rewrite split_from_plain.
  - pose proof (Forall_inv H) as Hx. apply Forall_inv_tail in H.
    change (join [c0] (x :: y :: l)) with (x ++ c0 :: join [c0] (y :: l)).
    rewrite split_from_sep by exact Hx. simpl. f_equal. now apply IH.
Qed.

(** ** The lines of the file *)

Lemma robots_line_paths (Q : str -> Prop) (acc : bool * list str) (line : str) :
  Forall Q (snd acc) ->
  (starts_with (L "Disallow:") (trim line) = true ->
   trim (skipn 9 (trim line)) <> [] -> Q (trim (skipn 9 (trim line)))) ->
  Forall Q (snd (robots_line acc line)).
Proof.
  destruct acc as [flag paths]. intros Hacc Hq. unfold robots_line.
  destruct ((if starts_with (L "User-agent:") (trim line)
             then includes (trim line) (L "*") else flag)
            && starts_with (L "Disallow:") (trim line)) eqn:E; [|exact Hacc].
  apply andb_true_iff in E as [_ E].
  change (length (L "Disallow:")) with 9.
  destruct (trim (skipn 9 (trim line))) as [|c t] eqn:Ep; [exact Hacc|].
  simpl. apply Forall_app. split; [exact Hacc|].
  constructor; [|constructor]. apply Hq; [exact E|discriminate].
Qed.

Lemma robots_fold_paths (Q : str -> Prop) (lines : list str) (acc : bool * list str) :
  Forall Q (snd acc) ->
  (forall line, In line lines ->
     starts_with (L "Disallow:") (trim line) = true ->
     trim (skipn 9 (trim line)) <> [] -> Q (trim (skipn 9 (trim line)))) ->
  Forall Q (snd (fold_left robots_line lines acc)).
Proof.
  revert acc. induction lines as [|line lines IH]; intros acc Hacc Hq; [exact Hacc|].
  cbn [fold_left]. apply IH.
  - apply robots_line_paths; [exact Hacc|]. apply Hq. now left.
  - intros l Hl. apply Hq. now right.
Qed.

(** As long as no line names all agents, nothing is collected. *)
Lemma robots_fold_off (lines : list str) :
  (forall line, In line lines ->
     starts_with (L "User-agent:") (trim line) = true ->
     includes (trim line) (L "*") = false) ->
  fold_left robots_line lines (false, []) = (false, []).
Proof.
  induction lines as [|line lines IH]; intros H; [reflexivity|].
  cbn [fold_left].
  assert (E : robots_line (false, []) line = (false, [])).
  { unfold robots_line.
    destruct (starts_with (L "User-agent:") (trim line)) eqn:E; [|reflexivity].
    rewrite (H line (or_introl eq_refl) E). reflexivity. }
  rewrite E. apply IH. intros l Hl. apply H. now right.
Qed.

(** A [Disallow] line of the file [robots_file]. *)
Lemma robots_line_disallow (paths : list str) (p : str) :
  p <> [] -> trim p = p ->
  robots_line (true, paths) (L "Disallow: " ++ p) = (true, paths ++ [p]).
Proof.
  intros Hne Ht.
  destruct (trim_fixed_shape p Ht Hne) as [(c & t & Hp & Hc) (t' & d & Hq & Hd)].
  assert (E : trim (L "Disallow: " ++ p) = L "Disallow: " ++ p).
  { apply (trim_fixed _ "D"%char d (L "isallow: " ++ p) (L "Disallow: " ++ t'));
      try reflexivity; try assumption.
    rewrite Hq at 1. now rewrite app_assoc. }
  unfold robots_line. rewrite E.
  change (starts_with (L "User-agent:") (L "Disallow: " ++ p)) with false.
  change (starts_with (L "Disallow:") (L "Disallow: " ++ p)) with true.
  change (skipn (length (L "Disallow:")) (L "Disallow: " ++ p)) with (" "%char :: p).
  assert (E2 : trim (" "%char :: p) = p).
  { unfold trim.
    replace (trimEnd (" "%char :: p)) with (" "%char :: p).
    - unfold trimStart. rewrite Hp. simpl. now rewrite Hc.
    - rewrite Hq. change (" "%char :: t' ++ [d]) with ((" "%char :: t') ++ [d]).
      now rewrite (trimEnd_app_stop _ [] d Hd). }
  rewrite E2. simpl. destruct p; [contradiction|reflexivity].
Qed.

Lemma robots_fold_disallow (paths acc : list str) :
  Forall (fun p => p <> [] /\ trim p = p) paths ->
  fold_left robots_line (map (fun p => L "Disallow: " ++ p) paths) (true, acc)
  = (true, acc ++ paths).
Proof.
  revert acc. induction paths as [|p ps IH]; intros acc H; cbn [map fold_left].
  - now rewrite app_nil_r.
  - pose proof (Forall_inv H) as [Hne Ht]. apply Forall_inv_tail in H.
    rewrite (robots_line_disallow acc p Hne Ht), IH by exact H.
    now rewrite <- app_assoc.
Qed.

End RobotsFacts.

Module RobotsClaims.
Import Str Crawler CrawlerSpec CrawlSpec StrFacts RegexFacts RobotsFacts.

(** Every path [fetchRobotsTxt] takes from a [robots.txt] is the trimmed
    text that follows [Disallow:] on one of its lines; it is never empty (a
    [Disallow:] with nothing after it excludes nothing), has no white space
    at either end and holds no line feed. *)
Theorem robots_paths_are_trimmed (text p : str) :
  In p (parseRobots text) ->
  p <> [] /\ trim p = p /\ ~ In (ascii_of_nat 10) p /\
  exists line, In line (split [ascii_of_nat 10] text) /\
               starts_with (L "Disallow:") (trim line) = true /\
               p = trim (skipn 9 (trim line)).
Proof.
  unfold parseRobots.
  set (lines := split [ascii_of_nat 10] text).
  set (Q := fun p : str =>
              p <> [] /\
              exists line, In line lines /\
                           starts_with (L "Disallow:") (trim line) = true /\
                           p = trim (skipn 9 (trim line))).
  assert (H : Forall Q (snd (fold_left robots_line lines (false, [])))).
  { apply robots_fold_paths; [constructor|].
    intros line Hl Hs Hne. split; [exact Hne|]. exists line. auto. }
  intros Hin. rewrite Forall_forall in H.
  destruct (H p Hin) as (Hne & line & Hl & Hs & Hp).
  split; [exact Hne|]. split; [rewrite Hp; apply trim_idempotent|]. split.
  - intros Hnl. rewrite Hp in Hnl.
    apply In_trim, In_skipn, In_trim in Hnl.
    pose proof (split_pieces (ascii_of_nat 10) text) as Hp'.
    rewrite Forall_forall in Hp'. exact (Hp' line Hl Hnl).
  - exists line. auto.
Qed.

Lemma robots_paths_are_trimmed_witness :
  L "/private" <> [] /\ trim (L "/private") = L "/private".
Proof.
  assert (H : In (L "/private")
                 (parseRobots (L "User-agent: *" ++ [ascii_of_nat 10]
                               ++ L "Disallow:   /private  " ++ [ascii_of_nat 10]
                               ++ L "Disallow:")))
    by (vm_compute; left; reflexivity).
  destruct (robots_paths_are_trimmed _ _ H) as (H1 & H2 & _).
  split; [exact H1|exact H2].
Defined.

(** Parsing gives back the paths of a [robots.txt] made of one group for
    all agents: the line [User-agent: *] followed by one [Disallow: ] line
    for each path (paths that are not empty, have no white space at either
    end and hold no line feed). *)
Theorem robots_file_round_trip (paths : list str) :
  Forall (fun p => p <> [] /\ trim p = p /\ ~ In (ascii_of_nat 10) p) paths ->
  parseRobots (robots_file paths) = paths
  /\ fetchRobotsTxt (Responded 200 (Some (robots_file paths))) = paths.
Proof.
  intros H.
  assert (E : parseRobots (robots_file paths) = paths).
  { unfold parseRobots, robots_file. rewrite split_join.
    - cbn [fold_left].
      change (robots_line (false, []) (L "User-agent: *")) with (true, @nil str).
      rewrite robots_fold_disallow; [reflexivity|].
      eapply Forall_impl; [|exact H]. intros p (H1 & H2 & _). auto.
    - constructor; [vm_compute; intuition discriminate|].
      apply Forall_map. eapply Forall_impl; [|exact H].
      intros p (_ & _ & Hnl) Hin. apply in_app_or in Hin as [Hin|Hin]; [|contradiction].
      vm_compute in Hin. intuition discriminate. }
  split; [exact E|]. simpl. exact E.
Qed.

Lemma robots_file_round_trip_witness :
  parseRobots (robots_file [L "/private/"; L "/tmp"]) = [L "/private/"; L "/tmp"].
Proof.
  apply (robots_file_round_trip [L "/private/"; L "/tmp"]).
  repeat constructor; try discriminate; vm_compute; intuition discriminate.
Defined.

(** A [robots.txt] whose [User-agent:] lines all name specific agents (none
    holds an asterisk) restricts nothing: its [Disallow] lines are left
    out. *)
Theorem robots_for_other_agents_ignored (text : str) :
  (forall line, In line (split [ascii_of_nat 10] text) ->
     starts_with (L "User-agent:") (trim line) = true ->
     includes (trim line) (L "*") = false) ->
  parseRobots text = [].
Proof.
  intros H. unfold parseRobots. now rewrite robots_fold_off.
Qed.

Lemma robots_for_other_agents_ignored_witness :
  parseRobots (L "User-agent: Googlebot" ++ [ascii_of_nat 10] ++ L "Disallow: /") = [].
Proof.
  apply robots_for_other_agents_ignored.
  intros line Hin. vm_compute in Hin.
  destruct Hin as [<-|[<-|[]]]; vm_compute; intros; congruence.
Defined.

End RobotsClaims.

(* ================================================================== *)
(** * Properties of the listing and of the closing of issues *)

Module SyncFacts.
Import Str Grouper Issues IssuesSpec Listing SyncSpec StrFacts.

(** ** The pages of the listing *)

Lemma firstn_plus {A} (a b : nat) (l : list A) :
  firstn (a + b) l = firstn a l ++ firstn b (skipn a l).
Proof.
  revert l. induction a as [|a IH]; intros l; [reflexivity|].
  destruct l as [|x l]; simpl; [now rewrite firstn_nil|]. now rewrite IH.
Qed.

Lemma fetchPages_done (t : Tracker) (fuel page : nat) (acc : list Issue) :
  1 <= page ->
  acc = firstn (100 * (page - 1)) (listForRepo t) ->
  length (listForRepo t) < 100 * (page - 1) + 100 * fuel ->
  100 * (page - 1) <= length (listForRepo t) ->
  fetchPages fuel page acc t = Some (listForRepo t).
Proof.
  revert page acc. induction fuel as [|f IH]; intros page acc Hp Hacc Hlt Hle; [lia|].
  cbn [fetchPages]. unfold listForRepoPage.
  set (all := listForRepo t) in *. set (off := 100 * (page - 1)) in *.
  assert (Hlen : length (firstn 100 (skipn off all)) = Nat.min 100 (length all - off)).
  { now rewrite length_firstn, length_skipn. }
  destruct (length (firstn 100 (skipn off all)) <? 100) eqn:E.
  - apply Nat.ltb_lt in E. f_equal. rewrite Hacc.
    rewrite (firstn_all2 (skipn off all)).
    + apply firstn_skipn.
    + rewrite length_skipn. lia.
  - apply Nat.ltb_ge in E.
    assert (Eo : 100 * (page + 1 - 1) = off + 100) by (unfold off; lia).
    apply IH; rewrite ?Eo; try lia.
    rewrite Hacc. symmetry. apply firstn_plus.
Qed.

Lemma fetchPages_short (t : Tracker) (fuel page : nat) (acc : list Issue) :
  1 <= page ->
  100 * (page - 1) + 100 * fuel <= length (listForRepo t) ->
  fetchPages fuel page acc t = None.
Proof.
  revert page acc. induction fuel as [|f IH]; intros page acc Hp Hle; [reflexivity|].
  cbn [fetchPages]. unfold listForRepoPage.
  set (all := listForRepo t) in *. set (off := 100 * (page - 1)) in *.
  assert (Hlen : length (firstn 100 (skipn off all)) = Nat.min 100 (length all - off)).
  { now rewrite length_firstn, length_skipn. }
  destruct (length (firstn 100 (skipn off all)) <? 100) eqn:E.
  - apply Nat.ltb_lt in E. lia.
  - apply Nat.ltb_ge in E.
    assert (Eo : 100 * (page + 1 - 1) = off + 100) by (unfold off; lia).
    apply IH; rewrite ?Eo; lia.
Qed.

(** ** What the updates and the creations leave in place *)

Lemma extends_refl (t : Tracker) : extends t t.
Proof.
  exists [], (issues t). split; [reflexivity|]. split; [|constructor].
  induction (issues t) as [|i l IH]; constructor; [split; reflexivity|exact IH].
Qed.

Lemma same_status_numbers (l l' : list Issue) :
  Forall2 same_status l l' -> map number l' = map number l.
Proof.
  induction 1 as [|i j l l' [Hn _] _ IH]; [reflexivity|]. simpl. now rewrite Hn, IH.
Qed.

Lemma max_number_ge (l : list Issue) (j : Issue) :
  In j l -> number j <= fold_right Nat.max 0 (map number l).
Proof.
  induction l as [|i l IH]; [intros []|]. intros [<-|H]; simpl; [lia|].
  specialize (IH H). lia.
Qed.

Lemma extends_create (t t' : Tracker) (ttl bdy : str) (lbls : list str) :
  extends t t' -> extends t (snd (api_create ttl bdy lbls t')).
Proof.
  intros (news & olds & E & Ho & Hn). unfold api_create. simpl.
  exists ({| number := next_number t'; title := ttl; body := bdy; state := open;
             labels := lbls |} :: news), olds.
  rewrite E. split; [reflexivity|]. split; [exact Ho|].
  constructor; [|exact Hn]. simpl. split; [|reflexivity].
  rewrite <- (same_status_numbers _ _ Ho). intros Hin.
  apply in_map_iff in Hin as (j & Hj & Hin).
  assert (Hin' : In j (issues t')) by (rewrite E; apply in_or_app; now right).
  apply max_number_ge in Hin'. unfold next_number in Hj. lia.
Qed.

Lemma extends_modify (t t' : Tracker) (n : nat) (f : Issue -> Issue) :
  (forall i, number (f i) = number i /\ state (f i) = state i) ->
  extends t t' -> extends t (modify n f t').
Proof.
  intros Hf (news & olds & E & Ho & Hn). unfold modify. simpl.
  set (g := fun i => if number i =? n then f i else i).
  assert (Hg : forall i, number (g i) = number i /\ state (g i) = state i).
  { intros i. unfold g. destruct (number i =? n); [apply Hf|auto]. }
  exists (map g news), (map g olds).
  rewrite E, map_app. split; [reflexivity|]. split.
  - clear E Hn. induction Ho as [|i j l l' [H1 H2] _ IH]; constructor; [|exact IH].
    destruct (Hg j) as [G1 G2]. split; congruence.
  - apply Forall_map. eapply Forall_impl; [|exact Hn].
    intros j [H1 H2]. destruct (Hg j) as [G1 G2]. rewrite G1, G2. auto.
Qed.

Lemma extends_comment (t t' : Tracker) (n : nat) (c : Comment) :
  extends t t' -> extends t (api_comment n c t').
Proof. intros H. exact H. Qed.

Lemma extends_sync (c : GitHubConfig) (existing : list Issue)
    (groups : list ViolationGroup) (t : Tracker) (acc : list IssueResult)
    (t' : Tracker) :
  extends t t' ->
  extends t (snd (fold_left (sync_group c existing) groups (acc, t'))).
Proof.
  revert acc t'. induction groups as [|g gs IH]; intros acc t' H; [exact H|].
  cbn [fold_left]. unfold sync_group at 2.
  destruct (findMatchingIssue g existing) as [i|].
  - unfold updateIssue. apply IH.
    apply extends_comment. unfold api_update_body. apply extends_modify; [|exact H].
    intros j. simpl. auto.
  - unfold createIssue.
    destruct (api_create _ _ _ t') as [n t2] eqn:E. apply IH.
    change t2 with (snd (n, t2)). rewrite <- E. now apply extends_create.
Qed.

Lemma partner_of_new (l l' : list Issue) :
  Forall2 same_status l l' ->
  forall b, In b l' -> exists a, In a l /\ number a = number b /\ state a = state b.
Proof.
  induction 1 as [|x y l l' [H1 H2] _ IH]; intros b; [intros []|].
  intros [<-|Hb].
  - exists x. split; [now left|auto].
  - destruct (IH b Hb) as (a & Ha & E). exists a. split; [now right|exact E].
Qed.

Lemma partner_of_old (l l' : list Issue) :
  Forall2 same_status l l' ->
  forall a, In a l -> exists b, In b l' /\ number b = number a.
Proof.
  induction 1 as [|x y l l' [H1 H2] _ IH]; intros a; [intros []|].
  intros [<-|Ha].
  - exists y. split; [now left|auto].
  - destruct (IH a Ha) as (b & Hb & E). exists b. split; [now right|exact E].
Qed.

(** ** What the closing does *)

Lemma close_all_cons (n : nat) (ns : list nat) (j : Issue) :
  close_all ns (if number j =? n then mark_closed j else j) = close_all (n :: ns) j.
Proof.
  unfold close_all. simpl. destruct (Nat.eqb_spec (number j) n) as [E|E]; simpl.
  - now destruct (existsb _ ns).
  - reflexivity.
Qed.

Lemma closeResolved_issues (existing : list Issue) (groups : list ViolationGroup)
    (t : Tracker) :
  issues (closeResolvedIssues existing groups t)
  = map (close_all (map number (filter (stale (map g_signature groups)) existing)))
        (issues t).
Proof.
  unfold closeResolvedIssues. revert t.
  induction existing as [|i l IH]; intros t.
  - simpl. unfold close_all. simpl. symmetry. apply map_id.
  - cbn [fold_left filter]. rewrite IH. unfold close_if_resolved, stale.
    destruct (embedded_signature (body i)) as [s|]; [|reflexivity].
    destruct (negb (existsb (eqb s) (map g_signature groups))); [|reflexivity].
    simpl. rewrite map_map. apply map_ext. intros j. apply close_all_cons.
Qed.

Lemma existsb_number (n : nat) (l : list Issue) :
  existsb (Nat.eqb n) (map number l) = true <-> exists e, In e l /\ number e = n.
Proof.
  rewrite existsb_exists. split.
  - intros (x & Hx & E). apply Nat.eqb_eq in E. subst x.
    apply in_map_iff in Hx as (e & He & Hin). eauto.
  - intros (e & Hin & <-). exists (number e). split; [now apply in_map|apply Nat.eqb_refl].
Qed.

Lemma NoDup_number_eq (l : list Issue) (i j : Issue) :
  NoDup (map number l) -> In i l -> In j l -> number i = number j -> i = j.
Proof.
  induction l as [|x l IH]; [intros _ []|]. simpl. intros Hn Hi Hj E.
  apply NoDup_cons_iff in Hn as [Hx Hn].
  destruct Hi as [<-|Hi], Hj as [<-|Hj]; auto.
  - exfalso. apply Hx. rewrite E. now apply in_map.
  - exfalso. apply Hx. rewrite <- E. now apply in_map.
Qed.

Lemma stale_iff (sigs : list str) (i : Issue) :
  stale sigs i = true <->
  exists s, embedded_signature (body i) = Some s /\ ~ In s sigs.
Proof.
  unfold stale. destruct (embedded_signature (body i)) as [s|].
  - rewrite negb_true_iff. split.
    + intros H. exists s. split; [reflexivity|]. intros Hin.
      assert (existsb (eqb s) sigs = true); [|congruence].
      apply existsb_exists. exists s. split; [exact Hin|apply eqb_refl].
    + intros (s' & [= <-] & Hn). destruct (existsb (eqb s) sigs) eqn:E; [|reflexivity].
      apply existsb_exists in E as (x & Hx & E). apply eqb_eq in E. now subst.
  - split; [discriminate|]. intros (s & H & _). discriminate.
Qed.

(** ** Containment *)

Lemma includes_iff (s p : str) :
  includes s p = true <-> exists a b, s = a ++ p ++ b.
Proof.
  induction s as [|c s IH]; simpl.
  - rewrite orb_false_r. split.
    + intros H. destruct p; [|discriminate]. now exists [], [].
    + intros (a & b & H). symmetry in H.
      apply app_eq_nil in H as [_ H]. apply app_eq_nil in H as [-> _]. reflexivity.
  - rewrite orb_true_iff, IH. split.
    + intros [H|(a & b & ->)].
      * apply (StabilityFacts.starts_with_iff p (c :: s)) in H as (b & ->). now exists [], b.
      * now exists (c :: a), b.
    + intros (a & b & H). destruct a as [|x a].
      * left. apply (StabilityFacts.starts_with_iff p (c :: s)). now exists b.
      * right. injection H as _ ->. now exists a, b.
Qed.

Lemma includes_refl (s : str) : includes s s = true.
Proof. apply includes_iff. exists [], []. now rewrite app_nil_r. Qed.

Lemma includes_inside (x s y p : str) :
  includes s p = true -> includes (x ++ s ++ y) p = true.
Proof.
  rewrite !includes_iff. intros (a & b & ->). exists (x ++ a), (b ++ y).
  now rewrite <- !app_assoc.
Qed.

(** ** The last line of the body *)

Lemma peel (a rest tail : str) :
  (exists X, rest = X ++ tail) -> exists X, a ++ rest = X ++ tail.
Proof. intros (X & ->). exists (a ++ X). now rewrite app_assoc. Qed.

Lemma summary_ends (g : ViolationGroup) :
  exists X, generateGroupSummary g
            = X ++ L "*" ++ signature_token (g_signature g) ++ L "*" ++ nl.
Proof.
  unfold generateGroupSummary. cbv zeta.
  repeat first [ now (exists []) | apply peel ].
Qed.

Lemma summary_split (g : ViolationGroup) :
  generateGroupSummary g
  = summary_head g ++ L "*" ++ signature_token (g_signature g) ++ L "*" ++ nl.
Proof.
  unfold summary_head. destruct (summary_ends g) as (X & E). rewrite E at 2 3.
  rewrite length_app, Nat.add_sub, firstn_app, Nat.sub_diag, firstn_all. simpl.
  now rewrite app_nil_r.
Qed.

Lemma summary_has_token (g : ViolationGroup) :
  includes (generateGroupSummary g) (signature_token (g_signature g)) = true.
Proof.
  rewrite summary_split. apply includes_iff.
  exists (summary_head g ++ L "*"), (L "*" ++ nl). now rewrite <- !app_assoc.
Qed.

End SyncFacts.

Module SyncClaims.
Import Str Grouper Issues IssuesSpec Listing SyncSpec StrFacts SyncFacts.

(** The page-by-page loop of [getExistingA11yIssues] ends and returns the
    whole listing of open accessibility issues, each once and in order; for
    a listing of [n] issues it takes [n / 100 + 1] requests, one more than
    the full pages (an empty page is fetched when [n] is a multiple of
    100), and no fewer. *)
Theorem listing_collects_every_page (t : Tracker) :
  getExistingA11yIssuesPaged (length (listForRepo t) / 100 + 1) t
    = Some (getExistingA11yIssues t)
  /\ getExistingA11yIssuesPaged (length (listForRepo t) / 100) t = None.
Proof.
  unfold getExistingA11yIssuesPaged, getExistingA11yIssues.
  pose proof (Nat.div_mod_eq (length (listForRepo t)) 100) as Hd.
  pose proof (Nat.mod_upper_bound (length (listForRepo t)) 100) as Hm.
  split.
  - apply fetchPages_done; [lia|reflexivity|lia|lia].
  - apply fetchPages_short; lia.
Qed.


(** After [syncIssues], an issue that was open and listed before the run is
    closed exactly when its body, as it was listed before the run, embeds a
    signature token naming a signature that is not among the current
    groups.  An issue without a token is never closed, whatever the groups;
    and an issue rewritten by this very run is still judged by its former
    body.  (Issue numbers are unique in the tracker.) *)
Theorem sync_closes_stale_tokens (c : GitHubConfig) (groups : list ViolationGroup)
    (t : Tracker) (i : Issue) :
  NoDup (map number (issues t)) ->
  In i (getExistingA11yIssues t) ->
  (exists j, In j (issues (snd (syncIssues c groups t))) /\ number j = number i) /\
  forall j, In j (issues (snd (syncIssues c groups t))) -> number j = number i ->
    (state j = closed <->
     exists s, embedded_signature (body i) = Some s /\
               ~ In s (map g_signature groups)).
Proof.
  intros Hnd Hi. unfold syncIssues.
  pose proof (extends_sync c (getExistingA11yIssues t) groups t [] t (extends_refl t))
    as Hext.
  destruct (fold_left (sync_group c (getExistingA11yIssues t)) groups ([], t))
    as [results t1] eqn:E.
  cbn [snd] in *. rewrite closeResolved_issues.
  set (ns := map number (filter (stale (map g_signature groups))
                                (getExistingA11yIssues t))).
  unfold getExistingA11yIssues, listForRepo in Hi.
  apply filter_In in Hi as [Hi Hopen].
  apply andb_true_iff in Hopen as [Hopen Hlab].
  assert (Hst : state i = open) by (unfold is_open in Hopen; now destruct (state i)).
  destruct Hext as (news & olds & Eis & Ho & Hn).
  assert (Hold : forall j1, In j1 (issues t1) -> number j1 = number i -> state j1 = open).
  { intros j1 Hj1 En. rewrite Eis in Hj1. apply in_app_or in Hj1 as [Hj1|Hj1].
    - rewrite Forall_forall in Hn. now destruct (Hn j1 Hj1).
    - destruct (partner_of_new _ _ Ho j1 Hj1) as (a & Ha & E1 & E2).
      assert (a = i) by (apply (NoDup_number_eq (issues t)); auto; congruence).
      congruence. }
  assert (Hns : existsb (Nat.eqb (number i)) ns = true <->
                exists s, embedded_signature (body i) = Some s /\
                          ~ In s (map g_signature groups)).
  { unfold ns. rewrite existsb_number, <- stale_iff. split.
    - intros (e & He & En). apply filter_In in He as [He Hs].
      unfold getExistingA11yIssues, listForRepo in He. apply filter_In in He as [He _].
      now rewrite <- (NoDup_number_eq _ _ _ Hnd He Hi En).
    - intros Hs. exists i. split; [|reflexivity]. apply filter_In. split; [|exact Hs].
      unfold getExistingA11yIssues, listForRepo. apply filter_In. split; [exact Hi|].
      now rewrite Hopen, Hlab. }
  split.
  - destruct (partner_of_old _ _ Ho i Hi) as (j1 & Hj1 & En).
    exists (close_all ns j1). split.
    + apply in_map. rewrite Eis. apply in_or_app. now right.
    + unfold close_all. destruct (existsb (Nat.eqb (number j1)) ns); simpl; congruence.
  - intros j Hj En. apply in_map_iff in Hj as (j1 & <- & Hj1).
    assert (En1 : number j1 = number i).
    { unfold close_all in En. now destruct (existsb (Nat.eqb (number j1)) ns). }
    rewrite <- Hns. unfold close_all. rewrite En1.
    destruct (existsb (Nat.eqb (number i)) ns).
    + simpl. tauto.
    + rewrite (Hold j1 Hj1 En1). split; discriminate.
Qed.

Lemma sync_closes_stale_tokens_witness :
  state (first_issue (snd (syncIssues IssuesSamples.cfg IssuesSamples.groups_now
                                      IssuesSamples.tracker_before))) = closed <->
  exists s, embedded_signature (body (first_issue IssuesSamples.tracker_before)) = Some s /\
            ~ In s (map g_signature IssuesSamples.groups_now).
Proof.
  apply (proj2 (sync_closes_stale_tokens IssuesSamples.cfg IssuesSamples.groups_now
                  IssuesSamples.tracker_before (first_issue IssuesSamples.tracker_before)
                  ltac:(vm_compute; constructor; [intros []|constructor])
                  ltac:(vm_compute; left; reflexivity))).
  - vm_compute. left. reflexivity.
  - vm_compute. reflexivity.
Defined.

(** An issue that [createIssue] has just opened for a group is the one
    [findMatchingIssue] returns, on the next listing, for every group with
    the same signature and for every group whose rule id occurs in the rule
    id of that group: the same rule, but also a rule such as [label] against
    an issue opened for [label-title-only]. *)
Theorem created_issue_is_matched (c : GitHubConfig) (g g' : ViolationGroup)
    (t : Tracker) :
  g_signature g' = g_signature g \/ includes (g_ruleId g) (g_ruleId g') = true ->
  exists i,
    findMatchingIssue g' (getExistingA11yIssues (snd (createIssue c g t))) = Some i /\
    number i = r_issueNumber (fst (createIssue c g t)) /\
    body i = generateGroupSummary g /\
    labels i = generateLabels g.
Proof.
  intros H. unfold createIssue, api_create. cbn [fst snd r_issueNumber].
  set (new := {| number := next_number t;
                 title := L "[A11y] " ++ g_ruleId g ++ L ": "
                            ++ substring0 80 (g_description g);
                 body := generateGroupSummary g; state := open;
                 labels := generateLabels g |}).
  exists new.
  assert (E : getExistingA11yIssues {| issues := new :: issues t; comments := comments t |}
              = new :: getExistingA11yIssues t).
  { unfold getExistingA11yIssues, listForRepo. cbn [issues filter].
    replace (is_open new && has_label (L "accessibility") new) with true; [reflexivity|].
    unfold has_label, generateLabels. reflexivity. }
  rewrite E. cbn [findMatchingIssue].
  split; [|repeat split].
  destruct (includes (body new) (signature_token (g_signature g'))) eqn:Eb; [reflexivity|].
  destruct H as [H|H].
  - rewrite H in Eb. unfold new in Eb. cbn [body] in Eb.
    now rewrite summary_has_token in Eb.
  - replace (includes (title new) (g_ruleId g')) with true; [reflexivity|].
    symmetry. unfold new. cbn [title]. now apply includes_inside.
Qed.

Lemma created_issue_is_matched_witness :
  exists i,
    findMatchingIssue (new_group (L "0123") (IssuesSamples.logo "img"))
      (getExistingA11yIssues
         (snd (createIssue IssuesSamples.cfg (new_group (L "4567") (IssuesSamples.logo "a > img"))
                           IssuesSamples.empty_tracker))) = Some i /\
    number i = 1.
Proof.
  destruct (created_issue_is_matched IssuesSamples.cfg
              (new_group (L "4567") (IssuesSamples.logo "a > img"))
              (new_group (L "0123") (IssuesSamples.logo "img"))
              IssuesSamples.empty_tracker
              (or_intror (includes_refl _))) as (i & H1 & H2 & _).
  exists i. split; [exact H1|exact H2].
Defined.

End SyncClaims.

(* ================================================================== *)
(** * The signature as a token of the issue body *)

Module TokenFacts.
Import Str Grouper GrouperSpec Issues IssuesSpec SyncSpec StrFacts RegexFacts
       StabilityFacts GrouperFacts SyncFacts.

(** ** The digest is made of 32 hexadecimal digits *)

Lemma le_bytes_range (n : nat) (x : Z) :
  Forall (fun b => (0 <= b < 256)%Z) (MD5.le_bytes n x).
Proof.
  revert x. induction n as [|n IH]; intros x; simpl; constructor; [|apply IH].
  apply Z.mod_pos_bound. lia.
Qed.

Lemma length_le_bytes (n : nat) (x : Z) : length (MD5.le_bytes n x) = n.
Proof. revert x. induction n as [|n IH]; intros x; simpl; [reflexivity|now rewrite IH]. Qed.

Lemma hex_digit_hex (d : Z) : (0 <= d < 16)%Z -> is_hex (MD5.hex_digit d) = true.
Proof.
  intros H.
  assert (E : In d [0; 1; 2; 3; 4; 5; 6; 7; 8; 9; 10; 11; 12; 13; 14; 15]%Z).
  { simpl. lia. }
  simpl in E. repeat (destruct E as [<-|E]; [reflexivity|]). destruct E.
Qed.

Lemma hex_byte_hex (b : Z) :
  (0 <= b < 256)%Z -> Forall (fun c => is_hex c = true) (MD5.hex_byte b).
Proof.
  intros H. unfold MD5.hex_byte. constructor; [|constructor; [|constructor]].
  - apply hex_digit_hex. split; [apply Z.div_pos; lia|apply Z.div_lt_upper_bound; lia].
  - apply hex_digit_hex. apply Z.mod_pos_bound. lia.
Qed.

Lemma flat_hex (l : list Z) :
  Forall (fun b => (0 <= b < 256)%Z) l ->
  Forall (fun c => is_hex c = true) (flat_map MD5.hex_byte l) /\
  length (flat_map MD5.hex_byte l) = 2 * length l.
Proof.
  induction 1 as [|b l Hb _ [IH1 IH2]]; simpl; [split; [constructor|reflexivity]|].
  split.
  - pose proof (hex_byte_hex b Hb) as H. unfold MD5.hex_byte in H.
    apply Forall_inv_tail in H as H2. apply Forall_inv in H. apply Forall_inv in H2.
    constructor; [exact H|]. constructor; [exact H2|exact IH1].
  - rewrite IH2. lia.
Qed.

Lemma digest_hex (s : str) :
  length (MD5.digest s) = 32 /\ Forall (fun c => is_hex c = true) (MD5.digest s).
Proof.
  unfold MD5.digest.
  destruct (MD5.blocks _ MD5.init _) as [[[a b] c] d].
  destruct (flat_hex (MD5.le_bytes 4 a ++ MD5.le_bytes 4 b ++ MD5.le_bytes 4 c
                      ++ MD5.le_bytes 4 d)) as [H1 H2].
  { repeat (apply Forall_app; split); apply le_bytes_range. }
  split; [|exact H1].
  rewrite H2, !length_app, !length_le_bytes. reflexivity.
Qed.

Lemma signature_hex (v : ViolationWithContext) :
  length (createViolationSignature v) = 32 /\
  Forall (fun c => is_hex c = true) (createViolationSignature v).
Proof.
  unfold createViolationSignature.
  destruct (elementMatch _) as [[tag attrs]|]; apply digest_hex.
Qed.

Lemma hex_not_backtick (c : ascii) : is_hex c = true -> not_backtick c = true.
Proof.
  destruct c as [[] [] [] [] [] [] [] []]; try reflexivity; discriminate.
Qed.

(** ** Reading the signature back *)

Lemma first_match_skip (m : str -> option nat) (a b : str) :
  (forall a1 a2, a = a1 ++ a2 -> a2 <> [] -> m (a2 ++ b) = None) ->
  first_match m (a ++ b) = first_match m b.
Proof.
  induction a as [|x a IH]; intros H; [reflexivity|].
  assert (E : m (x :: a ++ b) = None) by (apply (H [] (x :: a) eq_refl); discriminate).
  cbn [app first_match]. rewrite E.
  apply IH. intros a1 a2 -> Hne. apply (H (x :: a1) a2); auto.
Qed.

Lemma first_match_hit (m : str -> option nat) (s : str) (n : nat) :
  m s = Some n -> first_match m s = Some (firstn n s).
Proof. intros H. destruct s; simpl; now rewrite H. Qed.

Lemma starts_with_app_stop (lit a b : str) (c : ascii) :
  ~ In c lit -> starts_with lit (a ++ c :: b) = true -> starts_with lit a = true.
Proof.
  revert a. induction lit as [|x lit IH]; intros a Hc H; [reflexivity|].
  destruct a as [|y a]; simpl in *.
  - apply andb_true_iff in H as [H _]. apply Ascii.eqb_eq in H. subst.
    exfalso. apply Hc. now left.
  - apply andb_true_iff in H as [H1 H2]. rewrite H1. simpl.
    apply IH; [|exact H2]. intros Hin. apply Hc. now right.
Qed.

Lemma includes_suffix (a1 a2 p : str) :
  starts_with p a2 = true -> includes (a1 ++ a2) p = true.
Proof.
  intros H. apply includes_iff. apply starts_with_iff in H as (rest & ->).
  now exists a1, rest.
Qed.

Lemma token_matches (sig rest : str) :
  sig <> [] -> Forall (fun c => not_backtick c = true) sig ->
  re_signature (signature_token sig ++ rest) = Some (length (signature_token sig)).
Proof.
  intros Hne Hs. unfold re_signature, signature_token.
  apply lit_then_iff. exists (sig ++ bt ++ rest), (length sig + 1).
  split; [now rewrite <- !app_assoc|]. split.
  - rewrite plus_then_hit; auto.
  - rewrite !length_app. simpl. lia.
Qed.

Lemma read_back (head sig : str) :
  sig <> [] -> Forall (fun c => not_backtick c = true) sig ->
  includes head (L "Signature: " ++ bt) = false ->
  embedded_signature (head ++ L "*" ++ signature_token sig ++ L "*" ++ nl) = Some sig.
Proof.
  intros Hne Hs Hh. unfold embedded_signature.
  rewrite first_match_skip.
  - change (L "*" ++ signature_token sig ++ L "*" ++ nl)
      with ("*"%char :: signature_token sig ++ L "*" ++ nl).
    cbn [first_match].
    replace (re_signature ("*"%char :: signature_token sig ++ L "*" ++ nl))
      with (@None nat) by reflexivity.
    rewrite (first_match_hit _ _ _ (token_matches sig (L "*" ++ nl) Hne Hs)).
    rewrite firstn_length_app. simpl. unfold signature_token.
    change (skipn 12 (L "Signature: " ++ bt ++ sig ++ bt)) with (sig ++ bt).
    unfold bt. now rewrite removelast_last.
  - intros a1 a2 -> Hne2.
    destruct (re_signature (a2 ++ L "*" ++ signature_token sig ++ L "*" ++ nl))
      as [j|] eqn:E; [|reflexivity].
    apply lit_then_iff in E as (r & j' & E & _).
    assert (Hst : starts_with (L "Signature: " ++ bt)
                   (a2 ++ "*"%char :: signature_token sig ++ L "*" ++ nl) = true).
    { apply starts_with_iff. eauto. }
    apply starts_with_app_stop in Hst.
    + rewrite (includes_suffix a1 a2 _ Hst) in Hh. discriminate.
    + vm_compute. intuition discriminate.
Qed.

End TokenFacts.

Module TokenClaims.
Import Str Grouper GrouperSpec Issues IssuesSpec SyncSpec StrFacts RegexFacts
       StabilityFacts GrouperFacts SyncFacts TokenFacts.

(** A signature is the MD5 digest in hexadecimal: 32 characters, each a
    digit or a letter from [a] to [f]. *)
Theorem signature_is_md5_hex (v : ViolationWithContext) :
  length (createViolationSignature v) = 32 /\
  Forall (fun c => is_hex c = true) (createViolationSignature v).
Proof.
  unfold createViolationSignature.
  destruct (elementMatch (normalizeHtml (html v))) as [[tagName attributes]|].
  - apply digest_hex.
  - apply digest_hex.
Qed.

(** The expression with which [closeResolvedIssues] reads a signature out
    of an issue body finds, in the body [generateGroupSummary] writes for a
    group of [groupViolations], the signature of that group, as long as the
    text before the last line (rule, description, help, URLs, selector and
    HTML of the example) does not itself hold the token's opening
    [Signature: ] followed by a back-tick. *)
Theorem signature_read_back (entries : list (str * list ViolationWithContext))
    (g : ViolationGroup) :
  In g (groupViolations entries) ->
  includes (summary_head g) (L "Signature: " ++ bt) = false ->
  embedded_signature (generateGroupSummary g) = Some (g_signature g).
Proof.
  intros Hg Hh. rewrite summary_split.
  destruct (groupViolations_spec entries g Hg) as (it & Hf & _).
  apply first_with_some in Hf as [_ Hs].
  destruct (signature_hex (snd it)) as [Hl Hx].
  unfold sig_of in Hs. rewrite Hs in Hl, Hx.
  apply read_back; [|eapply Forall_impl; [|exact Hx]; apply hex_not_backtick|exact Hh].
  intros E. rewrite E in Hl. discriminate.
Qed.

Lemma signature_read_back_witness :
  embedded_signature (generateGroupSummary (GrouperSamples.first_group GrouperSamples.pages_ab))
  = Some (g_signature (GrouperSamples.first_group GrouperSamples.pages_ab)).
Proof.
  apply (signature_read_back GrouperSamples.pages_ab).
  - vm_compute. left. reflexivity.
  - vm_compute. reflexivity.
Defined.

End TokenClaims.

(* ================================================================== *)
(** * Further properties of the signature engine *)

Module GroupingFacts.
Import Str Grouper GrouperSpec StrFacts RegexFacts StabilityFacts GrouperFacts
       CrawlerFacts CrawlFacts RobotsFacts.

(** ** The page list of the summary *)

Lemma count_set_keys (k : str) (m : list (str * nat)) :
  map fst (count_set k m) = Crawler.set_add k (map fst m).
Proof.
  unfold Crawler.set_add, Crawler.set_has.
  induction m as [|[k' n] m IH]; simpl; [reflexivity|].
  destruct (eqb k k'); simpl; [reflexivity|].
  rewrite IH. now destruct (existsb (eqb k) (map fst m)).
Qed.

Lemma uniquePages_keys (occs : list Occurrence) (m : list (str * nat)) :
  map fst (fold_left (fun m o => count_set (o_url o) m) occs m)
  = fold_left (fun s x => Crawler.set_add x s) (map o_url occs) (map fst m).
Proof.
  revert m. induction occs as [|o occs IH]; intros m; simpl; [reflexivity|].
  now rewrite IH, count_set_keys.
Qed.

Lemma count_set_In (k u : str) (n : nat) (m : list (str * nat)) :
  NoDup (map fst m) ->
  In (u, n) (count_set k m) ->
  (u <> k /\ In (u, n) m) \/
  (u = k /\ ((exists n1, In (k, n1) m /\ n = n1 + 1) \/
             (~ In k (map fst m) /\ n = 1))).
Proof.
  induction m as [|[k' n'] m IH]; simpl; intros Hnd H.
  - destruct H as [[= <- <-]|[]]. right. split; [reflexivity|]. right. auto.
  - apply NoDup_cons_iff in Hnd as [Hk' Hnd].
    destruct (eqb k k') eqn:E.
    + apply eqb_eq in E. subst k'. destruct H as [[= <- <-]|H].
      * right. split; [reflexivity|]. left. exists n'. auto.
      * left. split; [|now right]. intros ->. apply Hk'.
        apply (in_map fst) in H. exact H.
    + apply eqb_neq in E. destruct H as [[= <- <-]|H].
      * left. split; [congruence|now left].
      * destruct (IH Hnd H) as [[H1 H2]|[-> [(n1 & H1 & H2)|[H1 H2]]]].
        -- left. auto.
        -- right. split; [reflexivity|]. left. exists n1. auto.
        -- right. split; [reflexivity|]. right. split; [|exact H2].
           intros [H3|H3]; [congruence|contradiction].
Qed.

Lemma set_add_NoDup (k : str) (s : list str) : NoDup s -> NoDup (Crawler.set_add k s).
Proof.
  intros H. unfold Crawler.set_add. destruct (Crawler.set_has k s) eqn:E; [exact H|].
  apply (Permutation_NoDup (Permutation_cons_append _ _)).
  constructor; [now apply set_has_not_In|exact H].
Qed.

Lemma uniquePages_from (occs : list Occurrence) (m : list (str * nat)) :
  NoDup (map fst m) ->
  forall u n,
    In (u, n) (fold_left (fun m o => count_set (o_url o) m) occs m) ->
    (exists n0, In (u, n0) m /\ n = n0 + length (filter (fun o => eqb u (o_url o)) occs)) \/
    (~ In u (map fst m) /\ n = length (filter (fun o => eqb u (o_url o)) occs) /\ 1 <= n).
Proof.
  revert m. induction occs as [|o occs IH]; intros m Hnd u n H.
  - simpl in H. left. exists n. simpl. split; [exact H|lia].
  - cbn [fold_left] in H.
    assert (Hnd' : NoDup (map fst (count_set (o_url o) m))).
    { rewrite count_set_keys. now apply set_add_NoDup. }
    cbn [filter].
    destruct (IH _ Hnd' u n H) as [(n0 & H0 & ->)|(H0 & -> & H1)].
    + destruct (count_set_In _ _ _ _ Hnd H0)
        as [[Hne Hin]|[-> [(n1 & Hin & ->)|[Hin ->]]]].
      * left. exists n0. split; [exact Hin|].
        apply eqb_neq in Hne. rewrite Hne. reflexivity.
      * left. exists n1. split; [exact Hin|]. rewrite eqb_refl. simpl.
        lia.
      * right. split; [exact Hin|]. rewrite eqb_refl. simpl. lia.
    + right. rewrite count_set_keys in H0.
      assert (Hu : u <> o_url o /\ ~ In u (map fst m)).
      { unfold Crawler.set_add in H0. destruct (Crawler.set_has (o_url o) (map fst m)) eqn:E.
        - split; [|exact H0]. intros ->. apply H0. now apply set_has_In.
        - split.
          + intros ->. apply H0. apply in_or_app. right. now left.
          + intros Hin. apply H0. apply in_or_app. now left. }
      destruct Hu as [Hne Hin]. apply eqb_neq in Hne. rewrite Hne.
      split; [exact Hin|]. split; [reflexivity|exact H1].
Qed.

Lemma length_uniq_le (l s : list str) :
  length (fold_left (fun s x => Crawler.set_add x s) l s) <= length s + length l.
Proof.
  revert s. induction l as [|x l IH]; intros s; simpl; [lia|].
  specialize (IH (Crawler.set_add x s)). unfold Crawler.set_add in *.
  destruct (Crawler.set_has x s); [lia|]. rewrite length_app in IH. simpl in IH. lia.
Qed.

(** ** Groups and their occurrences *)

Lemma in_items_iff (entries : list (str * list ViolationWithContext))
    (u : str) (v : ViolationWithContext) :
  In (u, v) (items entries) <-> exists vs, In (u, vs) entries /\ In v vs.
Proof.
  unfold items. rewrite in_flat_map. split.
  - intros ([u' vs] & He & Hin). simpl in Hin.
    apply in_map_iff in Hin as (v' & [= <- <-] & Hv). eauto.
  - intros (vs & He & Hv). exists (u, vs). split; [exact He|]. simpl. now apply in_map.
Qed.

End GroupingFacts.

Module GroupingClaims.
Import Str Grouper GrouperSpec StrFacts RegexFacts StabilityFacts GrouperFacts
       CrawlerFacts CrawlFacts RobotsFacts GroupingFacts.

(** The groups of [groupViolations] partition the instances by signature:
    no two groups have the same signature, and the occurrences of a group
    are exactly the instances of the input whose signature is the group's,
    each with the URL of its page. *)
Theorem one_group_per_signature (entries : list (str * list ViolationWithContext)) :
  NoDup (map g_signature (groupViolations entries)) /\
  forall g, In g (groupViolations entries) ->
    forall o, In o (g_occurrences g) <->
              exists u vs v, In (u, vs) entries /\ In v vs /\
                             createViolationSignature v = g_signature g /\
                             o = occurrence_of u v.
Proof.
  split; [apply groupViolations_nodup|].
  intros g Hg o. destruct (groupViolations_spec entries g Hg) as (it & _ & E).
  rewrite E at 1. cbn [g_occurrences group_of]. unfold occs_of.
  rewrite in_map_iff. split.
  - intros ([u v] & <- & Hin). apply filter_In in Hin as [Hin Hs].
    apply eqb_eq in Hs. apply in_items_iff in Hin as (vs & He & Hv).
    exists u, vs, v. repeat split; auto.
  - intros (u & vs & v & He & Hv & Hs & ->). exists (u, v). split; [reflexivity|].
    apply filter_In. split; [apply in_items_iff; eauto|].
    apply eqb_eq. unfold sig_of. simpl. now symmetry.
Qed.

(** The page list of an issue body shows each URL of the occurrences once,
    with the number of occurrences on that page, which is at least 1; so
    the list is never longer than the number of occurrences, which is what
    the body gives as the number of pages affected. *)
Theorem page_list_counts (occs : list Occurrence) :
  NoDup (map fst (uniquePages occs)) /\
  (forall u, In u (map fst (uniquePages occs)) <-> In u (map o_url occs)) /\
  (forall u n, In (u, n) (uniquePages occs) ->
     n = length (filter (fun o => eqb u (o_url o)) occs) /\ 1 <= n) /\
  length (uniquePages occs) <= length occs.
Proof.
  unfold uniquePages.
  pose proof (uniquePages_keys occs []) as Hk. simpl in Hk.
  destruct (uniq_from (map o_url occs) [] (NoDup_nil _)) as (H1 & H2 & _).
  rewrite <- Hk in H1, H2.
  split; [exact H1|]. split; [|split].
  - intros u. rewrite H2. simpl. tauto.
  - intros u n Hin.
    destruct (uniquePages_from occs [] (NoDup_nil _) u n Hin)
      as [(n0 & [] & _)|(_ & Hn & H1n)].
    split; [exact Hn|exact H1n].
  - rewrite <- (length_map fst), Hk.
    pose proof (length_uniq_le (map o_url occs) []) as Hl.
    rewrite length_map in Hl. exact Hl.
Qed.

End GroupingClaims.

(* ================================================================== *)
(** * Properties of the normalisation of the HTML *)

Module NormalFacts.
Import Str Grouper GrouperSpec NormalSpec StrFacts RegexFacts StabilityFacts RobotsFacts.

(** ** Letter case *)

Lemma lower_lower (c : ascii) : lower_char (lower_char c) = lower_char c.
Proof. all_chars c. Qed.

Lemma span_map (f : ascii -> ascii) (p : ascii -> bool) (s : str) :
  (forall c, p (f c) = p c) -> span p (map f s) = span p s.
Proof.
  intros H. induction s as [|c t IH]; simpl; [reflexivity|].
  rewrite H. now rewrite IH.
Qed.

Lemma trimStart_map (f : ascii -> ascii) (s : str) :
  (forall c, is_space (f c) = is_space c) ->
  trimStart (map f s) = map f (trimStart s).
Proof.
  intros H. unfold trimStart. rewrite (span_map f is_space s H). apply skipn_map.
Qed.

Lemma trim_map (f : ascii -> ascii) (s : str) :
  (forall c, is_space (f c) = is_space c) -> trim (map f s) = map f (trim s).
Proof.
  intros H. unfold trim, trimEnd.
  rewrite <- map_rev, (trimStart_map f _ H), <- map_rev. now apply trimStart_map.
Qed.

Lemma squeeze_from_map (f : ascii -> ascii) (s : str) (k : nat) :
  (forall c, is_space (f c) = is_space c) -> f " "%char = " "%char ->
  gsub_from re_spaces (fun _ => L " ") k (map f s)
  = map f (gsub_from re_spaces (fun _ => L " ") k s).
Proof.
  intros H Hsp. revert k. induction s as [|c t IH]; intros k; [reflexivity|].
  cbn [map gsub_from]. destruct k as [|k]; [|apply IH].
  destruct (is_space c) eqn:E.
  - rewrite (re_spaces_space c t E).
    rewrite (re_spaces_space (f c) (map f t)) by now rewrite H.
    rewrite (span_map f is_space t H). simpl. rewrite Hsp. f_equal. apply IH.
  - rewrite (re_spaces_other c t E).
    rewrite (re_spaces_other (f c) (map f t)) by now rewrite H.
    simpl. f_equal. apply IH.
Qed.

Lemma squeeze_map (f : ascii -> ascii) (s : str) :
  (forall c, is_space (f c) = is_space c) -> f " "%char = " "%char ->
  squeeze (map f s) = map f (squeeze s).
Proof. intros H Hsp. now apply squeeze_from_map. Qed.

Lemma collapse_lower (h : str) : collapse h = trim (squeeze (toLowerCase h)).
Proof.
  unfold collapse, toLowerCase.
  rewrite (squeeze_map lower_char h lower_char_space eq_refl).
  now rewrite (trim_map lower_char _ lower_char_space).
Qed.

(** ** Single spaces *)

Lemma squeeze_at_space (c : ascii) (t : str) :
  is_space c = true -> squeeze (c :: t) = " "%char :: squeeze (trimStart t).
Proof.
  intros H. unfold squeeze.
  rewrite (gsub_match _ _ c t (span is_space t) (re_spaces_space c t H)).
  reflexivity.
Qed.

Lemma length_trimStart (s : str) : length (trimStart s) <= length s.
Proof. unfold trimStart. rewrite length_skipn. lia. Qed.

Lemma squeeze_spaced_upto (n : nat) (h : str) : length h <= n -> spaced (squeeze h).
Proof.
  revert h. induction n as [|n IH]; intros h Hl.
  - destruct h; [exact I|simpl in Hl; lia].
  - destruct h as [|c t]; [exact I|]. simpl in Hl.
    destruct (is_space c) eqn:E.
    + rewrite (squeeze_at_space c t E).
      assert (Hr : spaced (squeeze (trimStart t))).
      { apply IH. pose proof (length_trimStart t). lia. }
      split; [|exact Hr]. intros _. split; [reflexivity|].
      destruct (trimStart_head t) as [->|(d & t' & -> & Hd)]; [exact I|].
      now rewrite (squeeze_cons_other d t' Hd).
    + rewrite (squeeze_cons_other c t E). split; [congruence|].
      apply IH. lia.
Qed.

Lemma squeeze_spaced (h : str) : spaced (squeeze h).
Proof. apply (squeeze_spaced_upto (length h)). lia. Qed.

Lemma spaced_squeeze (s : str) : spaced s -> squeeze s = s.
Proof.
  induction s as [|c t IH]; [reflexivity|]. intros [Hc Ht].
  destruct (is_space c) eqn:E.
  - destruct (Hc eq_refl) as [-> Hd]. destruct t as [|d t']; [reflexivity|].
    rewrite (squeeze_space_then d t' Hd). now rewrite IH.
  - rewrite (squeeze_cons_other c t E). now rewrite IH.
Qed.

Lemma spaced_skipn (k : nat) (s : str) : spaced s -> spaced (skipn k s).
Proof.
  revert s. induction k as [|k IH]; intros s H; [exact H|].
  destruct s as [|c t]; [exact I|]. simpl. apply IH. exact (proj2 H).
Qed.

Lemma spaced_prefix (a b : str) : spaced (a ++ b) -> spaced a.
Proof.
  induction a as [|c a IH]; [intros _; exact I|]. intros [Hc Ht].
  split; [|now apply IH]. intros E. destruct (Hc E) as [-> Hd].
  split; [reflexivity|]. destruct a; [exact I|exact Hd].
Qed.

Lemma spaced_trim (s : str) : spaced s -> spaced (trim s).
Proof.
  intros H. unfold trim, trimStart. apply spaced_skipn.
  destruct (trimEnd_prefix s) as (w & Hw). rewrite Hw in H.
  now apply spaced_prefix in H.
Qed.

Lemma spaced_lower (s : str) : spaced s -> spaced (toLowerCase s).
Proof.
  induction s as [|c t IH]; [intros _; exact I|]. intros [Hc Ht].
  split; [|now apply IH]. rewrite lower_char_space. intros E.
  destruct (Hc E) as [-> Hd]. split; [reflexivity|].
  destruct t as [|d t']; [exact I|]. simpl. now rewrite lower_char_space.
Qed.

Lemma lower_idempotent (s : str) : toLowerCase (toLowerCase s) = toLowerCase s.
Proof.
  unfold toLowerCase. rewrite map_map. apply map_ext. intros c. apply lower_lower.
Qed.

(** ** Text that is not an element *)

Lemma all_space_trim (s : str) : Forall (fun c => is_space c = true) s -> trim s = [].
Proof.
  intros H. unfold trim.
  assert (E : trimEnd s = []).
  { unfold trimEnd, trimStart.
    assert (Hr : Forall (fun c => is_space c = true) (rev s)).
    { apply Forall_forall. intros c Hc. rewrite Forall_forall in H.
      apply H. now apply in_rev. }
    pose proof (span_all is_space (rev s) [] Hr) as Hs.
    rewrite app_nil_r in Hs. simpl in Hs. rewrite Hs, Nat.add_0_r, skipn_all.
    reflexivity. }
  now rewrite E.
Qed.

Lemma all_space_trimStart (s : str) :
  Forall (fun c => is_space c = true) s -> trimStart s = [].
Proof.
  intros H. unfold trimStart. pose proof (span_all is_space s [] H) as Hs.
  rewrite app_nil_r in Hs. simpl in Hs. rewrite Hs, Nat.add_0_r. apply skipn_all.
Qed.

Lemma trim_squeeze_plain (h : str) :
  (forall t, trimStart h <> "<"%char :: t) -> plain_text (trim (squeeze h)).
Proof.
  intros Hh.
  assert (Hw : Forall (fun c => is_space c = true) (firstn (span is_space h) h))
    by apply span_firstn.
  assert (Eh : h = firstn (span is_space h) h ++ trimStart h).
  { unfold trimStart. now rewrite firstn_skipn. }
  set (w := firstn (span is_space h) h) in *.
  assert (Hsw : Forall (fun c => is_space c = true) (squeeze w)).
  { apply gsub_const_Forall; [exact Hw|]. repeat constructor. }
  destruct (trimStart_head h) as [E|(c0 & t0 & E & Hc0)].
  - rewrite E, app_nil_r in Eh. rewrite Eh. now rewrite (all_space_trim _ Hsw).
  - rewrite E in Eh. rewrite Eh, (squeeze_app w t0 c0 Hc0).
    unfold trim. rewrite (trimEnd_app_stop _ _ _ Hc0), (trimStart_app_stop _ _ _ Hc0).
    rewrite (all_space_trimStart _ Hsw). simpl. split; [exact Hc0|].
    intros ->. now apply (Hh t0).
Qed.

Lemma lower_not_lt (c : ascii) : lower_char c = "<"%char -> c = "<"%char.
Proof.
  destruct c as [[] [] [] [] [] [] [] []]; intros H; try discriminate H; reflexivity.
Qed.

Lemma plain_lower (s : str) : plain_text s -> plain_text (toLowerCase s).
Proof.
  destruct s as [|c t]; [intros _; exact I|]. intros [H1 H2]. simpl.
  rewrite lower_char_space. split; [exact H1|]. intros E. now apply H2, lower_not_lt.
Qed.

Lemma plain_gsub_spaced (k : str -> option nat) (r : str -> str) (s : str) :
  plain_text s -> plain_text (gsub (after_class is_space k) r s).
Proof.
  destruct s as [|c t]; [intros _; exact I|]. intros [H1 H2].
  rewrite gsub_nomatch; [split; assumption|].
  unfold after_class. now rewrite H1.
Qed.

Lemma plain_gsub_aria (s : str) :
  plain_text s ->
  plain_text (gsub re_aria_controls (fun _ => L "aria-controls=" ++ QQ) s).
Proof.
  destruct s as [|c t]; [intros _; exact I|]. intros [H1 H2].
  unfold gsub. cbn [gsub_from].
  destruct (re_aria_controls (c :: t)) as [[|k]|]; try (split; assumption).
  simpl. split; [reflexivity|discriminate].
Qed.

Lemma plain_normalize (h : str) :
  (forall t, trimStart h <> "<"%char :: t) -> plain_text (normalizeHtml h).
Proof.
  intros H. unfold normalizeHtml, strip_dynamic, collapse.
  unfold re_class, re_data, re_id.
  repeat apply plain_gsub_spaced. apply plain_gsub_aria, plain_lower.
  now apply trim_squeeze_plain.
Qed.

Lemma plain_no_element (s : str) : plain_text s -> elementMatch s = None.
Proof.
  destruct s as [|c t]; [reflexivity|]. intros [_ H]. unfold elementMatch, is_char.
  destruct (Ascii.eqb_spec "<"%char c) as [E|E]; [now subst|reflexivity].
Qed.

End NormalFacts.

Module NormalClaims.
Import Str Grouper GrouperSpec NormalSpec StrFacts RegexFacts StabilityFacts
       RobotsFacts NormalFacts.



(** The first step of the normalisation (runs of white space to one space,
    trimming, lower case) is idempotent: applied to its own result it
    changes nothing. *)
Theorem collapse_idempotent (h : str) : collapse (collapse h) = collapse h.
Proof.
  assert (Hs : spaced (collapse h)).
  { unfold collapse. apply spaced_lower, spaced_trim, squeeze_spaced. }
  unfold collapse at 1. rewrite (spaced_squeeze _ Hs).
  unfold collapse, toLowerCase.
  rewrite (trim_map lower_char _ lower_char_space), trim_idempotent.
  apply lower_idempotent.
Qed.



End NormalClaims.

(* ================================================================== *)
(** * Properties of the action *)

Module ActionFacts.
Import Str Grouper GrouperSpec Issues IssuesSpec ActionRun StrFacts GrouperFacts
       CrawlerFacts CrawlFacts.

(** ** The loop over the pages *)

Lemma page_set_absent (k : str) (vs : list ViolationWithContext)
    (m : list (str * list ViolationWithContext)) :
  ~ In k (map fst m) -> page_set k vs m = m ++ [(k, vs)].
Proof.
  induction m as [|[k' vs'] m IH]; simpl; intros H; [reflexivity|].
  destruct (eqb k k') eqn:E.
  - apply eqb_eq in E. subst. exfalso. apply H. now left.
  - rewrite IH; [reflexivity|]. intros Hin. apply H. now right.
Qed.

(** Without a violation on any page the loop leaves the map empty. *)
Lemma test_pages_clean (tester : str -> TestOutcome) (pages : list Crawler.CrawlResult)
    (acc : list (str * list ViolationWithContext) * nat) :
  (forall u, tester u = TestThrew \/ tester u = Tested None \/
             tester u = Tested (Some [])) ->
  fold_left (test_page tester) pages acc = acc.
Proof.
  intros H. revert acc. induction pages as [|p ps IH]; intros acc; [reflexivity|].
  cbn [fold_left]. replace (test_page tester acc p) with acc; [apply IH|].
  destruct acc as [m n]. unfold test_page.
  destruct (H (Crawler.url p)) as [-> | [-> | ->]]; reflexivity.
Qed.

(** On pages with distinct URLs the counter is the number of instances in
    the map. *)
Lemma test_pages_total (tester : str -> TestOutcome) (pages : list Crawler.CrawlResult)
    (m : list (str * list ViolationWithContext)) (n : nat) :
  NoDup (map Crawler.url pages) ->
  (forall k, In k (map fst m) -> ~ In k (map Crawler.url pages)) ->
  n = list_sum (map (fun e => length (snd e)) m) ->
  snd (fold_left (test_page tester) pages (m, n))
  = list_sum (map (fun e => length (snd e))
                  (fst (fold_left (test_page tester) pages (m, n)))).
Proof.
  revert m n. induction pages as [|p ps IH]; intros m n Hnd Hk Hn; [exact Hn|].
  cbn [fold_left]. simpl in Hnd. apply NoDup_cons_iff in Hnd as [Hp Hnd].
  assert (Hsame : (forall k, In k (map fst m) -> ~ In k (map Crawler.url ps))).
  { intros k Hin Hk'. apply (Hk k Hin). now right. }
  unfold test_page at 2 4.
  destruct (tester (Crawler.url p)) as [|[[|v vs]|]]; try (apply IH; assumption).
  rewrite page_set_absent by (intros Hin; apply (Hk _ Hin); now left).
  apply IH; [exact Hnd| |].
  - intros k Hin. rewrite map_app in Hin. apply in_app_or in Hin as [Hin|[<-|[]]].
    + now apply Hsame.
    + exact Hp.
  - rewrite map_app, list_sum_app, Hn. simpl. lia.
Qed.

(** ** The groups *)

Lemma group_total_pos (entries : list (str * list ViolationWithContext))
    (g : ViolationGroup) :
  In g (groupViolations entries) -> 1 <= g_totalOccurrences g.
Proof.
  intros H. destruct (groupViolations_spec entries g H) as (it & Hf & Hg).
  rewrite Hg. simpl.
  apply first_with_some in Hf as [Hin Hs].
  pose proof (in_occs_of _ _ Hin) as Hocc. rewrite Hs in Hocc.
  destruct (occs_of (g_signature g) (items entries)); [destruct Hocc|simpl; lia].
Qed.

Lemma length_le_total (l : list ViolationGroup) :
  (forall g, In g l -> 1 <= g_totalOccurrences g) -> length l <= total_sum l.
Proof.
  unfold total_sum. induction l as [|g l IH]; intros H; simpl; [lia|].
  specialize (H g (or_introl eq_refl)) as Hg.
  assert (length l <= list_sum (map g_totalOccurrences l)).
  { apply IH. intros x Hx. apply H. now right. }
  lia.
Qed.

(** ** The results *)

Lemma created_or_updated (existing : list Issue) (groups : list ViolationGroup)
    (rs : list IssueResult) :
  Forall2 (result_for existing) groups rs ->
  length (filter is_created rs) + length (filter is_updated rs) = length groups.
Proof.
  induction 1 as [|g r gs rs [_ Hr] _ IH]; [reflexivity|].
  simpl. unfold is_created at 1, is_updated at 1.
  destruct (findMatchingIssue g existing) as [i|].
  - destruct Hr as [-> _]. simpl. lia.
  - rewrite Hr. simpl. lia.
Qed.

End ActionFacts.

Module ActionClaims.
Import Str Grouper GrouperSpec Issues IssuesSpec ActionRun ActionSamples StrFacts
       GrouperFacts CrawlerFacts CrawlFacts ActionFacts.

(** When no page shows a violation (the test throws, or returns no
    instance), [runAction] returns before the issue manager is called: the
    tracker is left as it is, no issue is created, updated or closed.  Open
    issues of violations that have all been fixed therefore stay open. *)
Theorem clean_scan_leaves_tracker (pathname : str -> option str)
    (web : str -> Crawler.PageOutcome) (robots : Crawler.RobotsFetch)
    (tester : str -> TestOutcome) (config : ActionConfig) (fuel : nat)
    (t : Tracker) :
  (forall u, tester u = TestThrew \/ tester u = Tested None \/
             tester u = Tested (Some [])) ->
  snd (runAction pathname web robots tester config fuel t) = t /\
  forall out, fst (runAction pathname web robots tester config fuel t) <> Completed out.
Proof.
  intros H. unfold runAction.
  destruct (Crawler.crawlWebsite pathname web robots (crawlOptions config) fuel)
    as [pages| |]; try (split; [reflexivity|discriminate]).
  destruct (length pages =? 0); [split; [reflexivity|discriminate]|].
  rewrite (test_pages_clean tester pages ([], 0) H). simpl.
  split; [reflexivity|discriminate].
Qed.

Lemma clean_scan_leaves_tracker_witness :
  snd (runAction CrawlerSamples.path_of CrawlerSamples.site (Crawler.FetchRejected false)
                 clean_tester sample_config 50 IssuesSamples.tracker_before)
  = IssuesSamples.tracker_before.
Proof.
  apply clean_scan_leaves_tracker.
  intros u. unfold clean_tester. destruct (eqb u CrawlerSamples.home); auto.
Defined.

(** The figures [runAction] ends with add up: every group gave one result,
    created or updated, so the issues created and updated are as many as
    the unique violations; there is at least one unique violation and no
    more than the total of violations; and the pages scanned are at least
    one and at most [maxPages], 50 when that is missing or 0. *)
Theorem action_summary_adds_up (pathname : str -> option str)
    (web : str -> Crawler.PageOutcome) (robots : Crawler.RobotsFetch)
    (tester : str -> TestOutcome) (config : ActionConfig) (fuel : nat)
    (t t' : Tracker) (out : ActionOutput) :
  runAction pathname web robots tester config fuel t = (Completed out, t') ->
  issues_created out + issues_updated out = unique_violations out /\
  1 <= unique_violations out <= total_violations out /\
  1 <= pages_scanned out <= or_default (maxPages config) 50.
Proof.
  unfold runAction.
  destruct (Crawler.crawlWebsite pathname web robots (crawlOptions config) fuel)
    as [pages| |] eqn:Ec; try discriminate.
  destruct (length pages =? 0) eqn:El; [discriminate|]. apply Nat.eqb_neq in El.
  destruct (fold_left (test_page tester) pages ([], 0)) as [m total] eqn:Ef.
  destruct (total =? 0) eqn:Et; [discriminate|]. apply Nat.eqb_neq in Et.
  unfold syncIssues.
  destruct (IssuesClaims.sync_fold
              {| owner := githubOwner config; repo := githubRepo config |}
              (getExistingA11yIssues t) (groupViolations m) [] t) as (rs & Hrs & Hall & _).
  destruct (fold_left _ (groupViolations m) ([], t)) as [results t1] eqn:Es.
  simpl in Hrs. subst results. intros [= <- _]. cbn [issues_created issues_updated
    unique_violations total_violations pages_scanned].
  destruct (crawl_returns _ _ _ _ _ _ Ec) as (st & Hrun & Hres).
  assert (Hnd : NoDup (map Crawler.url pages)).
  { rewrite <- Hres.
    pose proof (run_reachable _ _ _ _ _ _ _ _ _ _ Hrun) as Hreach.
    apply reachable_admitted_once in Hreach.
    - exact (proj1 (proj2 Hreach)).
    - repeat split; simpl; try constructor. intros x []. }
  assert (Hb : CrawlerSpec.bounded (Crawler.effMaxPages (crawlOptions config))
                 (Crawler.effMaxDepth (crawlOptions config)) st).
  { eapply run_bounded; [exact Hrun|]. split; simpl; [lia|constructor]. }
  destruct Hb as [Hb _]. rewrite Hres in Hb.
  pose proof (test_pages_total tester pages [] 0 Hnd (fun k H => match H with end)
                eq_refl) as Htot.
  rewrite Ef in Htot. cbn [fst snd] in Htot.
  pose proof (total_sum_groupViolations m) as Hsum. rewrite <- Htot in Hsum.
  pose proof (length_le_total (groupViolations m) (group_total_pos m)) as Hle.
  split; [now apply created_or_updated with (existing := getExistingA11yIssues t)|].
  split; [split|split].
  - destruct (groupViolations m); [simpl in Hsum; unfold total_sum in Hsum; simpl in Hsum; lia|simpl; lia].
  - lia.
  - lia.
  - exact Hb.
Qed.

Lemma action_summary_adds_up_witness :
  issues_created sample_output + issues_updated sample_output
  = unique_violations sample_output.
Proof.
  apply (action_summary_adds_up CrawlerSamples.path_of CrawlerSamples.site
           (Crawler.FetchRejected false) sample_tester sample_config 50
           IssuesSamples.empty_tracker (snd sample_run) sample_output).
  vm_compute. reflexivity.
Defined.

End ActionClaims.

(* ================================================================== *)
(** * Properties of the rule identification and of the URL extraction *)

Module ParserFacts.
Import Str Rules JiraParser StrFacts RegexFacts StabilityFacts CrawlerFacts CrawlFacts
       SyncFacts.

(** ** Rules *)

Lemma known_rule (r : str) :
  existsb (eqb r) AXE_CORE_RULES = true -> In r AXE_CORE_RULES.
Proof.
  intros H. apply existsb_exists in H as (x & Hx & E). apply eqb_eq in E. now subst.
Qed.

Lemma push_if_known (cond : bool) (rule : str) (rules : list str) :
  existsb (eqb rule) AXE_CORE_RULES = true ->
  Forall (fun r => In r AXE_CORE_RULES) rules ->
  Forall (fun r => In r AXE_CORE_RULES) (push_if cond rule rules).
Proof.
  intros Hr H. unfold push_if. destruct cond; [|exact H].
  apply Forall_app. split; [exact H|]. constructor; [now apply known_rule|constructor].
Qed.

Lemma keywords_known (description fullContent : str) :
  Forall (fun r => In r AXE_CORE_RULES) (identifyWithKeywords description fullContent).
Proof.
  unfold identifyWithKeywords. cbv zeta.
  repeat (apply push_if_known; [reflexivity|]). constructor.
Qed.

Lemma keywords_nodup (description fullContent : str) :
  NoDup (identifyWithKeywords description fullContent).
Proof.
  unfold identifyWithKeywords. cbv zeta.
  generalize (toLowerCase description) as d, (toLowerCase fullContent) as c.
  intros d c.
  repeat match goal with
         | |- context [push_if ?b _ _] =>
             lazymatch b with
             | true => fail
             | false => fail
             | _ => let x := fresh "b" in set (x := b); clearbody x; destruct x
             end
         end;
    unfold push_if; simpl;
    repeat (constructor; [simpl; intuition discriminate|]); constructor.
Qed.

(** ** Matches *)

Lemma gmatch_from_In (m : str -> option nat) (s : str) (k : nat) (x : str) :
  In x (gmatch_from m k s) ->
  exists a rest n, s = a ++ rest /\ m rest = Some n /\ x = firstn n rest.
Proof.
  revert k. induction s as [|c t IH]; intros k; [intros []|].
  cbn [gmatch_from]. destruct k as [|k].
  - destruct (m (c :: t)) as [[|j]|] eqn:E.
    + intros H. destruct (IH 0 H) as (a & rest & n & -> & Hm & ->).
      exists (c :: a), rest, n. auto.
    + intros [<-|H].
      * exists [], (c :: t), (S j). auto.
      * destruct (IH j H) as (a & rest & n & -> & Hm & ->).
        exists (c :: a), rest, n. auto.
    + intros H. destruct (IH 0 H) as (a & rest & n & -> & Hm & ->).
      exists (c :: a), rest, n. auto.
  - intros H. destruct (IH k H) as (a & rest & n & -> & Hm & ->).
    exists (c :: a), rest, n. auto.
Qed.

Lemma url_tail (lit rest : str) (n : nat) :
  lit_then lit (plus_then not_space_paren done) rest = Some n ->
  exists y b, rest = lit ++ y ++ b /\ y <> [] /\
              Forall (fun c => not_space_paren c = true) y /\
              firstn n rest = lit ++ y.
Proof.
  intros H. apply lit_then_iff in H as (r & j & -> & Hk & ->).
  apply plus_then_some in Hk as (y & b & j' & -> & Hne & Hy & Hd & ->).
  injection Hd as <-. exists y, b. repeat split; auto.
  rewrite Nat.add_0_r, <- length_app, app_assoc. apply firstn_length_app.
Qed.

Lemma urlPattern_some (rest : str) (n : nat) :
  urlPattern rest = Some n ->
  exists lit y b, (lit = L "https://" \/ lit = L "http://") /\
                  rest = lit ++ y ++ b /\ y <> [] /\
                  Forall (fun c => not_space_paren c = true) y /\
                  firstn n rest = lit ++ y.
Proof.
  unfold urlPattern. cbn [first_of].
  destruct (lit_then (L "https://") _ rest) as [n1|] eqn:E1.
  - intros [= <-]. destruct (url_tail _ _ _ E1) as (y & b & H). exists (L "https://"), y, b.
    intuition.
  - destruct (lit_then (L "http://") _ rest) as [n2|] eqn:E2; [|discriminate].
    intros [= <-]. destruct (url_tail _ _ _ E2) as (y & b & H). exists (L "http://"), y, b.
    intuition.
Qed.

(** What the pattern finds is a URL in the text. *)
Lemma found_url (content u : str) :
  In u (gmatch urlPattern content) ->
  includes content u = true /\
  exists lit y, (lit = L "https://" \/ lit = L "http://") /\ u = lit ++ y /\
                y <> [] /\ Forall (fun c => not_space_paren c = true) y.
Proof.
  intros H. apply gmatch_from_In in H as (a & rest & n & -> & Hm & ->).
  apply urlPattern_some in Hm as (lit & y & b & Hl & -> & Hne & Hy & ->).
  split.
  - apply includes_iff. exists a, b. now rewrite <- app_assoc.
  - exists lit, y. auto.
Qed.

Lemma uniq_spec (l : list str) :
  NoDup (Crawler.uniq l) /\ forall u, In u (Crawler.uniq l) <-> In u l.
Proof.
  unfold Crawler.uniq. destruct (uniq_from l [] (NoDup_nil _)) as (H1 & H2 & _).
  split; [exact H1|]. intros u. rewrite H2. simpl. tauto.
Qed.

End ParserFacts.

Module ParserClaims.
Import Str Rules JiraParser ActionSamples StrFacts RegexFacts StabilityFacts CrawlerFacts
       CrawlFacts SyncFacts ParserFacts.

(** Whatever the language model answers, [identifyAxeRules] only returns
    rule ids of the list of axe-core rules: the answer of the model is
    filtered against that list, and the keyword matching used otherwise only
    produces rules of the list, each at most once. *)
Theorem identified_rules_are_axe_rules
    (identifyWithOpenAI identifyWithClaude : LLMConfig -> str -> str -> option (list str))
    (description fullContent : str) (llmConfig : option LLMConfig) :
  Forall (fun r => In r AXE_CORE_RULES)
         (fst (identifyAxeRules identifyWithOpenAI identifyWithClaude
                 description fullContent llmConfig))
  /\ NoDup (identifyWithKeywords description fullContent).
Proof.
  split; [|apply keywords_nodup].
  unfold identifyAxeRules. destruct llmConfig as [cfg|]; [|apply keywords_known].
  destruct (askModel _ _ cfg description fullContent) as [rules|];
    [|apply keywords_known].
  cbv zeta. destruct (length _ =? 0); [apply keywords_known|].
  cbn [fst]. apply Forall_forall. intros r Hr. apply filter_In in Hr as [_ Hr].
  now apply known_rule.
Qed.

(** [usedLLM] is reported only when a model was configured with an endpoint
    and a key, was called without failing, and named at least one rule of
    the list of axe-core rules; the rules returned are then the answer of
    the model with the unknown ids removed.  In every other case the result
    is that of the keyword matching. *)
Theorem llm_flag_means_valid_answer
    (identifyWithOpenAI identifyWithClaude : LLMConfig -> str -> str -> option (list str))
    (description fullContent : str) (llmConfig : option LLMConfig) :
  let result := identifyAxeRules identifyWithOpenAI identifyWithClaude
                  description fullContent llmConfig in
  (snd result = true ->
   exists cfg rules,
     llmConfig = Some cfg /\
     azureEndpoint cfg <> [] /\ apiKey cfg <> [] /\
     (identifyWithOpenAI cfg description fullContent = Some rules \/
      identifyWithClaude cfg description fullContent = Some rules) /\
     fst result = filter (fun rule => existsb (eqb rule) AXE_CORE_RULES) rules /\
     fst result <> [])
  /\ (snd result = false ->
      fst result = identifyWithKeywords description fullContent).
Proof.
  cbv zeta. unfold identifyAxeRules.
  destruct llmConfig as [cfg|]; [|split; [discriminate|reflexivity]].
  destruct (askModel _ _ cfg description fullContent) as [rules|] eqn:Ea;
    [|split; [discriminate|reflexivity]].
  cbv zeta.
  destruct (length (filter _ rules) =? 0) eqn:El; [split; [discriminate|reflexivity]|].
  split; [|discriminate]. intros _. exists cfg, rules.
  apply Nat.eqb_neq in El. cbn [fst].
  assert (Hne : filter (fun rule => existsb (eqb rule) AXE_CORE_RULES) rules <> []).
  { intros E. rewrite E in El. now apply El. }
  assert (Hrules : rules <> []) by (intros ->; now apply Hne).
  unfold askModel in Ea.
  destruct (eqb (provider cfg) (L "openai")).
  - destruct (is_missing (deployment cfg)); [discriminate|].
    destruct (azureEndpoint cfg) as [|e1 e]; [discriminate|].
    destruct (apiKey cfg) as [|k1 k]; [discriminate|].
    simpl in Ea. repeat split; auto; discriminate.
  - destruct (eqb (provider cfg) (L "claude")).
    + destruct (azureEndpoint cfg) as [|e1 e]; [discriminate|].
      destruct (apiKey cfg) as [|k1 k]; [discriminate|].
      simpl in Ea. repeat split; auto; discriminate.
    + injection Ea as <-. contradiction.
Qed.

Lemma llm_flag_means_valid_answer_witness :
  fst (identifyAxeRules sample_model sample_model [] [] (Some sample_llm)) <> [].
Proof.
  destruct (proj1 (llm_flag_means_valid_answer sample_model sample_model [] []
                     (Some sample_llm)) eq_refl)
    as (cfg & rules & _ & _ & _ & _ & _ & H).
  exact H.
Defined.

(** The URLs [parseJiraMarkdown] returns are distinct pieces of the content,
    each made of [http://] or [https://] and one or more characters that
    are neither white space nor a closing parenthesis, and none of them
    holds [atlassian.net], [siteimprove.com] or [jira] in any letter
    case. *)
Theorem markdown_urls_are_targets (content : str) :
  NoDup (markdownUrls content) /\
  forall u, In u (markdownUrls content) ->
    includes content u = true /\
    (exists lit y, (lit = L "https://" \/ lit = L "http://") /\ u = lit ++ y /\
                   y <> [] /\ Forall (fun c => not_space_paren c = true) y) /\
    includes (toLowerCase u) (L "atlassian.net") = false /\
    includes (toLowerCase u) (L "siteimprove.com") = false /\
    includes (toLowerCase u) (L "jira") = false.
Proof.
  unfold markdownUrls. cbv zeta.
  destruct (uniq_spec (filter is_target (gmatch urlPattern content))) as [H1 H2].
  split; [exact H1|]. intros u Hu. apply H2, filter_In in Hu as [Hu Ht].
  destruct (found_url content u Hu) as [Hi Hs].
  split; [exact Hi|]. split; [exact Hs|].
  unfold is_target in Ht. cbv zeta in Ht.
  apply andb_true_iff in Ht as [Ht H3]. apply andb_true_iff in Ht as [H4 H5].
  rewrite negb_true_iff in H3, H4, H5. auto.
Qed.

(** The URLs [parseIssueForTests] returns are distinct; they are the URLs
    found in the description or, when it holds none (or is missing), the
    [TARGET_URL] of the environment alone if that is set and not empty. *)
Theorem issue_urls_or_target (description TARGET_URL : option str) :
  NoDup (issueUrls description TARGET_URL) /\
  forall u, In u (issueUrls description TARGET_URL) ->
    match gmatch urlPattern (Crawler.default [] description) with
    | [] => TARGET_URL = Some u /\ u <> []
    | _ :: _ =>
        includes (Crawler.default [] description) u = true /\
        exists lit y, (lit = L "https://" \/ lit = L "http://") /\ u = lit ++ y /\
                      y <> [] /\ Forall (fun c => not_space_paren c = true) y
    end.
Proof.
  unfold issueUrls. cbv zeta.
  destruct (gmatch urlPattern (Crawler.default [] description)) as [|x l] eqn:E.
  - destruct TARGET_URL as [[|c t]|].
    + split; [constructor|intros u []].
    + split; [repeat constructor; intros []|].
      intros u [<-|[]]. split; [reflexivity|discriminate].
    + split; [constructor|intros u []].
  - destruct (uniq_spec (x :: l)) as [H1 H2]. split; [exact H1|].
    intros u Hu. apply H2 in Hu. rewrite <- E in Hu. now apply found_url.
Qed.

End ParserClaims.

(* ================================================================== *)
(** * Two runs from a tracker without accessibility issues *)

Module FreshFacts.
Import Str Grouper Issues IssuesSpec SyncSpec StrFacts SyncFacts.

Lemma listing_after_create (c : GitHubConfig) (g : ViolationGroup) (t : Tracker) :
  exists i, body i = generateGroupSummary g /\
            listForRepo (snd (createIssue c g t)) = i :: listForRepo t.
Proof.
  unfold createIssue, api_create. cbn [snd].
  eexists. split; [|unfold listForRepo; cbn [issues filter]; reflexivity].
  reflexivity.
Qed.

(** With nothing to match, every group has an issue created, which the
    next listing shows. *)
Lemma sync_all_created (c : GitHubConfig) (groups : list ViolationGroup)
    (acc : list IssueResult) (t : Tracker) :
  exists rs news,
    fst (fold_left (sync_group c []) groups (acc, t)) = acc ++ rs /\
    Forall (fun r => r_action r = created) rs /\
    length rs = length groups /\
    listForRepo (snd (fold_left (sync_group c []) groups (acc, t)))
      = news ++ listForRepo t /\
    length news = length groups /\
    forall g, In g groups -> exists i, In i news /\ body i = generateGroupSummary g.
Proof.
  revert acc t. induction groups as [|g gs IH]; intros acc t.
  - exists [], []. simpl. rewrite app_nil_r. repeat split; auto. intros g [].
  - cbn [fold_left]. unfold sync_group at 2 4. cbn [findMatchingIssue].
    destruct (createIssue c g t) as [r t1] eqn:E.
    destruct (IH (acc ++ [r]) t1) as (rs & news & H1 & H2 & H3 & H4 & H5 & H6).
    destruct (listing_after_create c g t) as (i & Hb & Hl). rewrite E in Hl. cbn [snd] in Hl.
    exists (r :: rs), (news ++ [i]).
    rewrite H1, H4, Hl, <- !app_assoc. cbn [app length].
    split; [reflexivity|]. split.
    { constructor; [|exact H2]. unfold createIssue, api_create in E.
      injection E as <- _. reflexivity. }
    split; [now rewrite H3|]. split; [reflexivity|].
    split; [rewrite length_app, H5; simpl; lia|].
    intros g' [<-|Hg'].
    + exists i. split; [apply in_or_app; right; now left|exact Hb].
    + destruct (H6 g' Hg') as (j & Hj & Hbj). exists j.
      split; [apply in_or_app; now left|exact Hbj].
Qed.

Lemma closeResolved_nothing (groups : list ViolationGroup) (t : Tracker) :
  closeResolvedIssues [] groups t = t.
Proof. reflexivity. Qed.

Lemma all_updated (existing : list Issue) (groups : list ViolationGroup)
    (rs : list IssueResult) :
  Forall2 (result_for existing) groups rs ->
  (forall g, In g groups -> findMatchingIssue g existing <> None) ->
  Forall (fun r => r_action r = updated) rs.
Proof.
  induction 1 as [|g r gs rs' [_ Hr] _ IH]; intros Hall; constructor.
  - destruct (findMatchingIssue g existing) as [i|] eqn:Ef.
    + exact (proj1 Hr).
    + exfalso. apply (Hall g); [now left|exact Ef].
  - apply IH. intros g' Hg'. apply Hall. now right.
Qed.

End FreshFacts.

Module FreshClaims.
Import Str Grouper Issues IssuesSpec SyncSpec StrFacts SyncFacts FreshFacts.

(** From a tracker without open accessibility issues, a first run of
    [syncIssues] creates one issue for every group, all of them open and
    listed afterwards; a second run with the same groups finds an issue for
    each group, by the signature token of its body at the latest, and
    creates none. *)
Theorem fresh_tracker_second_run (c : GitHubConfig) (groups : list ViolationGroup)
    (t : Tracker) :
  getExistingA11yIssues t = [] ->
  let run1 := syncIssues c groups t in
  let run2 := syncIssues c groups (snd run1) in
  Forall (fun r => r_action r = created) (fst run1) /\
  length (fst run1) = length groups /\
  open_count (snd run1) = length groups /\
  Forall (fun r => r_action r = updated) (fst run2) /\
  length (fst run2) = length groups.
Proof.
  intros He. cbv zeta. unfold syncIssues at 1 2 3 5 7. rewrite He.
  destruct (sync_all_created c groups [] t) as (rs & news & H1 & H2 & H3 & H4 & H5 & H6).
  destruct (fold_left (sync_group c []) groups ([], t)) as [results t1] eqn:E.
  cbn [fst snd] in *. subst results. rewrite closeResolved_nothing.
  unfold getExistingA11yIssues in He. rewrite He, app_nil_r in H4.
  split; [exact H2|]. split; [exact H3|].
  split; [unfold open_count; now rewrite H4|].
  unfold syncIssues.
  destruct (IssuesClaims.sync_fold c (getExistingA11yIssues t1) groups [] t1)
    as (rs2 & G1 & G2 & _).
  destruct (fold_left (sync_group c (getExistingA11yIssues t1)) groups ([], t1))
    as [results2 t2] eqn:E2.
  cbn [fst snd] in *. subst results2.
  split; [|symmetry; eapply Forall2_length; exact G2].
  assert (Hall : forall g, In g groups ->
            findMatchingIssue g (getExistingA11yIssues t1) <> None).
  { intros g Hg Hn. destruct (H6 g Hg) as (i & Hi & Hb).
    rewrite IssuesClaims.findMatchingIssue_none in Hn.
    assert (Hin : In i (getExistingA11yIssues t1))
      by (unfold getExistingA11yIssues; now rewrite H4).
    specialize (Hn i Hin). unfold carries, embeds_token in Hn.
    rewrite Hb, summary_has_token in Hn. discriminate. }
  exact (all_updated _ _ _ G2 Hall).
Qed.

Lemma fresh_tracker_second_run_witness :
  Forall (fun r => r_action r = updated)
         (fst (syncIssues IssuesSamples.cfg IssuesSamples.groups_now
                 (snd (syncIssues IssuesSamples.cfg IssuesSamples.groups_now
                                  IssuesSamples.empty_tracker)))).
Proof.
  exact (proj1 (proj2 (proj2 (proj2
           (fresh_tracker_second_run IssuesSamples.cfg IssuesSamples.groups_now
              IssuesSamples.empty_tracker eq_refl))))).
Defined.

End FreshClaims.

(* ================================================================== *)
(** * The crawl finds every page within the depth *)

Module CompleteFacts.
Import Str Crawler CrawlerSpec CrawlSpec StrFacts CrawlerFacts CrawlFacts.

Lemma same_image {A B : Type} (f : A -> B) (l : list A) (x y : A) :
  NoDup (map f l) -> In x l -> In y l -> f x = f y -> x = y.
Proof.
  induction l as [|a l IH]; simpl; [tauto|].
  intros Hnd Hx Hy Hf. apply NoDup_cons_iff in Hnd as [Hn Hnd].
  destruct Hx as [->|Hx], Hy as [->|Hy]; auto.
  - exfalso. apply Hn. rewrite Hf. now apply in_map.
  - exfalso. apply Hn. rewrite <- Hf. now apply in_map.
Qed.

Section Loop.
Variable pathname : str -> option str.
Variable web : str -> PageOutcome.
Variable maxPagesV maxDepthV : nat.
Variable includeV excludeV disallowedPaths : list str.

Let step' := step pathname web maxPagesV maxDepthV includeV excludeV disallowedPaths.
Let run' := run pathname web maxPagesV maxDepthV includeV excludeV disallowedPaths.
Let passes := passes_filters pathname includeV excludeV disallowedPaths.

Lemma visit_reasons (u : str) (d : nat) (st : State) :
  (visit web maxDepthV u d st = st /\ ~ loads web u) \/
  exists status ttl anchors,
    web u = Loaded status (Some ttl) anchors /\ 200 <= status < 400 /\
    visit web maxDepthV u d st
    = {| visited := visited st;
         toVisit := toVisit st ++ new_tasks maxDepthV (visited st) d anchors;
         results := results st ++
           [{| url := u; depth := d; statusCode := status; title := ttl |}] |}.
Proof.
  unfold visit, new_tasks.
  destruct (web u) as [|status ttl anchors] eqn:Ew.
  { left. split; [reflexivity|]. intros (s & t & a & E & _). congruence. }
  destruct ((200 <=? status) && (status <? 400)) eqn:Es.
  2:{ left. split; [reflexivity|]. intros (s & t & a & E & Hs).
      rewrite Ew in E. injection E as <- _ _.
      apply andb_false_iff in Es as [Es|Es];
        [apply Nat.leb_gt in Es|apply Nat.ltb_ge in Es]; lia. }
  destruct ttl as [ttl|].
  2:{ left. split; [reflexivity|]. intros (s & t & a & E & _). congruence. }
  right. exists status, ttl, anchors.
  apply andb_true_iff in Es as [E1 E2].
  apply Nat.leb_le in E1. apply Nat.ltb_lt in E2.
  split; [reflexivity|]. split; [lia|].
  destruct (d <? maxDepthV).
  - destruct anchors as [a|]; simpl.
    + f_equal.
      destruct (enqueue_links_spec (visited st) d (extractLinks a) (toVisit st))
        as (added & H1 & _ & kept & H3 & H4).
      rewrite H1, H3, H4. reflexivity.
    + now rewrite app_nil_r.
  - simpl. now rewrite app_nil_r.
Qed.

(** A turn of the loop, with the reason of each outcome. *)
Lemma step_reasons (st st' : State) :
  step' st = Some st' ->
  exists task rest,
    toVisit st = task :: rest /\ length (results st) < maxPagesV /\
    ((st' = {| visited := visited st; toVisit := rest; results := results st |} /\
      (In (t_url task) (visited st) \/ maxDepthV < t_depth task \/
       ~ passes (t_url task)))
     \/ (~ In (t_url task) (visited st) /\ ~ loads web (t_url task) /\
         st' = {| visited := visited st ++ [t_url task]; toVisit := rest;
                  results := results st |})
     \/ (~ In (t_url task) (visited st) /\ t_depth task <= maxDepthV /\
         passes (t_url task) /\
         exists status ttl anchors,
           web (t_url task) = Loaded status (Some ttl) anchors /\
           200 <= status < 400 /\
           st' = {| visited := visited st ++ [t_url task];
                    toVisit := rest ++ new_tasks maxDepthV (visited st ++ [t_url task])
                                         (t_depth task) anchors;
                    results := results st ++
                      [{| url := t_url task; depth := t_depth task;
                          statusCode := status; title := ttl |}] |})).
Proof.
  unfold step', step, passes, passes_filters.
  destruct (toVisit st) as [|task rest]; [discriminate|].
  destruct (length (results st) <? maxPagesV) eqn:El; [|discriminate].
  apply Nat.ltb_lt in El. intros H. exists task, rest.
  split; [reflexivity|]. split; [exact El|].
  simpl in H.
  destruct (set_has (t_url task) (visited st)) eqn:Ev.
  { left. split; [congruence|]. left. now apply set_has_In. }
  destruct (maxDepthV <? t_depth task) eqn:Ed.
  { left. split; [congruence|]. right. left. now apply Nat.ltb_lt. }
  destruct (shouldExclude pathname (t_url task) excludeV disallowedPaths) eqn:Ex.
  { left. split; [congruence|]. right. right. intros [Hx _]. discriminate. }
  destruct ((0 <? length includeV) && negb (matchesAnyPattern (t_url task) includeV))
    eqn:Ei.
  { left. split; [congruence|]. right. right. intros [_ [Hx|Hx]].
    - rewrite Hx in Ei. discriminate.
    - rewrite Hx in Ei. rewrite andb_false_r in Ei. discriminate. }
  right. injection H as <-.
  pose proof Ev as Ev'. apply set_has_not_In in Ev'. apply Nat.ltb_ge in Ed.
  unfold set_add. simpl. rewrite Ev.
  destruct (visit_reasons (t_url task) (t_depth task)
              {| visited := visited st ++ [t_url task]; toVisit := rest;
                 results := results st |})
    as [[-> Hn]|(status & ttl & anchors & Hw & Hs & ->)].
  - left. auto.
  - right. split; [exact Ev'|]. split; [exact Ed|]. split.
    + split; [reflexivity|].
      destruct (matchesAnyPattern (t_url task) includeV); [now right|left].
      rewrite andb_true_r in Ei. apply Nat.ltb_ge in Ei.
      apply length_zero_iff_nil. lia.
    + exists status, ttl, anchors. simpl. auto.
Qed.

(** What ends the loop. *)
Lemma run_final (fuel : nat) (st0 st : State) :
  run' fuel st0 = Some st -> step' st = None.
Proof.
  unfold run', step'. revert st0. induction fuel as [|f IH]; intros st0; simpl.
  - destruct (step _ _ _ _ _ _ _ st0) eqn:E; [discriminate|]. now intros [= <-].
  - destruct (step _ _ _ _ _ _ _ st0) as [s1|] eqn:E; [apply IH|now intros [= <-]].
Qed.

Lemma step_none (st : State) :
  step' st = None -> toVisit st = [] \/ maxPagesV <= length (results st).
Proof.
  unfold step', step. destruct (toVisit st) as [|task rest]; [now left|].
  destruct (length (results st) <? maxPagesV) eqn:El.
  - destruct (set_has _ _); [discriminate|].
    destruct (maxDepthV <? _); [discriminate|].
    destruct (shouldExclude _ _ _ _); [discriminate|].
    destruct (_ && _); discriminate.
  - intros _. right. now apply Nat.ltb_ge.
Qed.

(** ** The base stays in sight *)

Lemma step_base_pending (base : str) (st st' : State) :
  step' st = Some st' ->
  base_pending pathname includeV excludeV disallowedPaths base st ->
  base_pending pathname includeV excludeV disallowedPaths base st'.
Proof.
  intros H Hb Hp. specialize (Hb Hp).
  destruct (step_reasons st st' H) as (task & rest & Eq & _ & Hc).
  rewrite Eq in Hb.
  assert (Hhead : In {| t_url := base; t_depth := 0 |} (task :: rest) ->
                  task = {| t_url := base; t_depth := 0 |} \/
                  In {| t_url := base; t_depth := 0 |} rest).
  { intros [E|E]; auto. }
  destruct Hc as [[-> Hr]|[(Hv & Hl & ->)|(Hv & _ & _ & s & ttl & a & _ & _ & ->)]];
    simpl; destruct Hb as [Hb|Hb]; auto.
  - destruct (Hhead Hb) as [->|Hin]; [|now right]. simpl in Hr.
    destruct Hr as [Hr|[Hr|Hr]]; [now left|lia|contradiction].
  - left. apply in_or_app. now left.
  - destruct (Hhead Hb) as [->|Hin]; [|now right].
    left. apply in_or_app. right. now left.
  - left. apply in_or_app. now left.
  - destruct (Hhead Hb) as [->|Hin].
    + left. apply in_or_app. right. now left.
    + right. apply in_or_app. now left.
Qed.

(** ** Visited pages that load are recorded *)

Lemma step_loaded_recorded (st st' : State) :
  step' st = Some st' -> loaded_recorded web st -> loaded_recorded web st'.
Proof.
  intros H Hinv.
  destruct (step_reasons st st' H) as (task & rest & Eq & _ & Hc).
  destruct Hc as [[-> Hr]|[(Hv & Hl & ->)|(Hv & _ & _ & s & ttl & a & _ & _ & ->)]];
    intros u Hu Hload; simpl in *.
  - now apply Hinv.
  - apply in_app_or in Hu as [Hu|[<-|[]]]; [now apply Hinv|contradiction].
  - apply in_app_or in Hu as [Hu|[<-|[]]].
    + destruct (Hinv u Hu Hload) as (r & Hr & E). exists r.
      split; [apply in_or_app; now left|exact E].
    + eexists. split; [apply in_or_app; right; now left|reflexivity].
Qed.

(** ** Links of recorded pages are visited or pending *)

Lemma head_is_least (st : State) (task : CrawlTask) (rest : list CrawlTask) :
  breadth_first st -> toVisit st = task :: rest ->
  (forall r, In r (results st) -> depth r <= t_depth task) /\
  (forall t, In t (toVisit st) -> t_depth task <= t_depth t).
Proof.
  intros [Hs _] Eq. unfold depths in Hs. rewrite Eq in Hs |- *. simpl in Hs.
  apply sorted_app in Hs as (_ & Hb & Hab).
  apply StronglySorted_inv in Hb as [_ Hd]. rewrite Forall_forall in Hd.
  split.
  - intros r Hr. apply Hab; [now apply in_map|now left].
  - intros t [<-|Ht]; [lia|]. apply Hd. now apply in_map.
Qed.

Lemma step_links_pending (st st' : State) :
  step' st = Some st' ->
  breadth_first st -> admitted_once st ->
  links_pending pathname web maxDepthV includeV excludeV disallowedPaths st ->
  links_pending pathname web maxDepthV includeV excludeV disallowedPaths st'.
Proof.
  intros H Hbf (_ & _ & Hincl) Hinv.
  destruct (step_reasons st st' H) as (task & rest & Eq & _ & Hc).
  destruct (head_is_least st task rest Hbf Eq) as [Hres Hqueue].
  assert (Hnew : ~ In (t_url task) (visited st) ->
                 forall r', In r' (results st) -> url r' <> t_url task).
  { intros Hv r' Hr' E. apply Hv. rewrite <- E. apply Hincl. now apply in_map. }
  assert (Hrest : forall t, In t (toVisit st) -> t_url t <> t_url task -> In t rest).
  { intros t Ht Hne. rewrite Eq in Ht. destruct Ht as [<-|Ht]; [contradiction|exact Ht]. }
  destruct Hc as [[-> Hr]|[(Hv & Hl & ->)|(Hv & Hd & Hp & s & ttl & a & Hw & Hs & ->)]];
    intros r q Hin Hdep Hq Hpass; cbn [visited toVisit results] in *.
  - (* the task is skipped *)
    destruct (Hinv r q Hin Hdep Hq Hpass) as [Hvis|(Hnv & t & Ht & Hu & Htd)];
      [now left|right].
    split; [exact Hnv|]. exists t. split; [|auto].
    rewrite Eq in Ht. destruct Ht as [<-|Ht]; [|exact Ht].
    exfalso. rewrite Hu in Hr. destruct Hr as [Hr|[Hr|Hr]]; [contradiction|lia|contradiction].
  - (* the page is admitted and not recorded *)
    destruct (Hinv r q Hin Hdep Hq Hpass) as [[Hvis Hb]|(Hnv & t & Ht & Hu & Htd)].
    + left. split; [apply in_or_app; now left|exact Hb].
    + destruct (list_eq_dec Ascii.ascii_dec q (t_url task)) as [->|Hne].
      * left. split; [apply in_or_app; right; now left|].
        intros r' Hr' E. exfalso. now apply (Hnew Hv r' Hr').
      * right. split.
        -- intros Hq'. apply in_app_or in Hq' as [Hq'|[Hq'|[]]]; [contradiction|congruence].
        -- exists t. split; [|auto]. apply Hrest; [exact Ht|congruence].
  - (* the page is recorded *)
    apply in_app_or in Hin as [Hin|[<-|[]]].
    + destruct (Hinv r q Hin Hdep Hq Hpass) as [[Hvis Hb]|(Hnv & t & Ht & Hu & Htd)].
      * left. split; [apply in_or_app; now left|].
        intros r' Hr' E. apply in_app_or in Hr' as [Hr'|[<-|[]]]; [now apply Hb|].
        simpl in E. exfalso. apply Hv. now rewrite E.
      * destruct (list_eq_dec Ascii.ascii_dec q (t_url task)) as [->|Hne].
        -- left. split; [apply in_or_app; right; now left|].
           intros r' Hr' E. apply in_app_or in Hr' as [Hr'|[<-|[]]].
           ++ exfalso. now apply (Hnew Hv r' Hr').
           ++ simpl. specialize (Hqueue t Ht). lia.
        -- right. split.
           ++ intros Hq'. apply in_app_or in Hq' as [Hq'|[Hq'|[]]];
                [contradiction|congruence].
           ++ exists t. split; [|auto]. apply in_or_app. left.
              apply Hrest; [exact Ht|congruence].
    + cbn [url depth] in *.
      destruct (in_dec (list_eq_dec Ascii.ascii_dec) q (visited st ++ [t_url task]))
        as [Hvis|Hnv].
      * left. split; [exact Hvis|].
        intros r' Hr' E. apply in_app_or in Hr' as [Hr'|[<-|[]]].
        -- specialize (Hres r' Hr'). lia.
        -- simpl. lia.
      * right. split; [exact Hnv|].
        exists {| t_url := q; t_depth := t_depth task + 1 |}.
        split; [|simpl; split; [reflexivity|lia]].
        apply in_or_app. right. unfold new_tasks.
        apply Nat.ltb_lt in Hdep. rewrite Hdep.
        unfold links_of in Hq. rewrite Hw in Hq.
        destruct a as [a|]; [|destruct Hq].
        apply (in_map (fun l => {| t_url := l; t_depth := t_depth task + 1 |})).
        apply filter_In. split; [exact Hq|].
        apply negb_true_iff. now apply set_has_not_In.
Qed.

(** ** All of them together *)

Lemma step_complete (base : str) (st st' : State) :
  step' st = Some st' ->
  breadth_first st /\ admitted_once st /\ rooted base st /\
  base_pending pathname includeV excludeV disallowedPaths base st /\
  loaded_recorded web st /\
  links_pending pathname web maxDepthV includeV excludeV disallowedPaths st ->
  breadth_first st' /\ admitted_once st' /\ rooted base st' /\
  base_pending pathname includeV excludeV disallowedPaths base st' /\
  loaded_recorded web st' /\
  links_pending pathname web maxDepthV includeV excludeV disallowedPaths st'.
Proof.
  intros H (H1 & H2 & H3 & H4 & H5 & H6).
  split; [eapply step_breadth_first; eauto|].
  split; [eapply step_admitted_once; eauto|].
  split; [eapply step_rooted; eauto|].
  split; [eapply step_base_pending; eauto|].
  split; [eapply step_loaded_recorded; eauto|].
  eapply step_links_pending; eauto.
Qed.

(** When the loop ends with the queue empty, every page within the depth is
    recorded, no deeper than it is far from the base. *)
Lemma within_recorded (base : str) (st : State) (k : nat) (u : str) :
  toVisit st = [] ->
  admitted_once st -> rooted base st ->
  base_pending pathname includeV excludeV disallowedPaths base st ->
  loaded_recorded web st ->
  links_pending pathname web maxDepthV includeV excludeV disallowedPaths st ->
  within pathname web includeV excludeV disallowedPaths base k u ->
  k <= maxDepthV ->
  exists r, In r (results st) /\ url r = u /\ depth r <= k.
Proof.
  intros Hq (_ & Hnd & _) Hroot Hbase Hload Hlinks Hw.
  induction Hw as [Hp Hl|k p q Hw IH Hin Hp Hl]; intros Hk.
  - destruct (Hbase Hp) as [Hv|Hv]; [|rewrite Hq in Hv; destruct Hv].
    destruct (Hload base Hv Hl) as (r & Hr & E). exists r. split; [exact Hr|].
    split; [exact E|]. unfold rooted in Hroot.
    destruct (results st) as [|r0 rs] eqn:Er; [destruct Hr|].
    destruct Hroot as [E0 D0].
    assert (r = r0); [|subst; lia].
    apply (same_image url (r0 :: rs)); auto; [now left|congruence].
  - destruct IH as (rp & Hrp & Ep & Dp); [lia|].
    rewrite <- Ep in Hin.
    destruct (Hlinks rp q Hrp ltac:(lia) Hin Hp) as [[Hv Hb]|(_ & t & Ht & _)];
      [|rewrite Hq in Ht; destruct Ht].
    destruct (Hload q Hv Hl) as (r & Hr & E). exists r.
    split; [exact Hr|]. split; [exact E|]. specialize (Hb r Hr E). lia.
Qed.

End Loop.
End CompleteFacts.

Module CompleteClaims.
Import Str Crawler CrawlerSpec CrawlerSamples CrawlSpec StrFacts CrawlerFacts CrawlFacts
       CompleteFacts.

(** Unless it stops at [maxPages], the crawl is complete: when fewer than
    [maxPages] pages are returned, every page that can be reached from the
    base URL through at most [maxDepth] links, along pages that pass the
    filters and load (status from 200 to 399, with a title), is among the
    pages returned, at a depth no greater than its distance from the
    base. *)
Theorem crawl_is_complete (pathname : str -> option str)
    (web : str -> PageOutcome) (robots : RobotsFetch) (o : CrawlOptions)
    (fuel : nat) (pages : list CrawlResult) (k : nat) (u : str) :
  crawlWebsite pathname web robots o fuel = Returned pages ->
  length pages < effMaxPages o ->
  within pathname web (default [] (includePatterns o))
         (default defaultExcludePatterns (excludePatterns o))
         (disallowedOf o robots) (baseUrl o) k u ->
  k <= effMaxDepth o ->
  exists r, In r pages /\ url r = u /\ depth r <= k.
Proof.
  intros H Hlen Hw Hk. destruct (crawl_returns _ _ _ _ _ _ H) as (st & Hrun & <-).
  pose proof (run_final _ _ _ _ _ _ _ _ _ _ Hrun) as Hend.
  apply step_none in Hend as [Hq|Hfull]; [|lia].
  pose proof (run_invariant _ _ _ _ _ _ _ _ fuel _ st
                (step_complete _ _ _ _ _ _ _ (baseUrl o)) Hrun) as Hinv.
  destruct Hinv as (_ & H2 & H3 & H4 & H5 & H6).
  { split; [|split; [|split; [|split; [|split]]]].
    - split; simpl; [|repeat constructor]. unfold depths. simpl. repeat constructor.
    - repeat split; simpl; try constructor. intros x [].
    - right. reflexivity.
    - intros _. right. now left.
    - intros x [].
    - intros r q []. }
  eapply within_recorded; eauto.
Qed.

Lemma crawl_is_complete_witness :
  exists r, In r sample_pages /\ url r = page_c /\ depth r <= 1.
Proof.
  apply (crawl_is_complete path_of site (FetchRejected true) site_options 20
           sample_pages 1 page_c sample_crawl).
  - vm_compute. lia.
  - apply (within_link _ _ _ _ _ _ 0 home page_c).
    + apply within_base.
      * split; [reflexivity|now left].
      * exists 200, (L "Home"), (Some [page_b; page_c]). split; [reflexivity|lia].
    + vm_compute. right. now left.
    + split; [reflexivity|now left].
    + exists 200, (L "C"), (Some [home; page_b]). split; [reflexivity|lia].
  - vm_compute. lia.
Defined.

End CompleteClaims.

(* ================================================================== *)
(** * The selector pattern of a selector path *)

Module PathFacts.
Import Str Grouper CssPath StrFacts RegexFacts StabilityFacts.

(** ** Characters *)

Lemma simple_char (c : ascii) :
  simple c = true ->
  is_char " " c = false /\ is_char ":" c = false /\ is_char "#" c = false /\
  not_space_gt c = true.
Proof.
  destruct c as [[] [] [] [] [] [] [] []]; intros H; try discriminate H;
    repeat split; reflexivity.
Qed.

Lemma simple_lower (c : ascii) : simple (lower_char c) = simple c.
Proof. all_chars c. Qed.

Lemma digit_char (k : nat) : k < 10 -> is_digit (ascii_of_nat (48 + k)) = true.
Proof.
  intros H. do 10 (destruct k as [|k]; [reflexivity|]). lia.
Qed.

Lemma digits_fuel_digits (fuel n : nat) (acc : str) :
  Forall (fun c => is_digit c = true) acc ->
  Forall (fun c => is_digit c = true) (digits_fuel fuel n acc).
Proof.
  revert n acc. induction fuel as [|f IH]; intros n acc H; simpl; [exact H|].
  assert (Hd : is_digit (ascii_of_nat (48 + n mod 10)) = true).
  { apply digit_char. apply Nat.mod_upper_bound. lia. }
  destruct (n <? 10); [now constructor|]. apply IH. now constructor.
Qed.

Lemma of_nat_digits (n : nat) : Forall (fun c => is_digit c = true) (of_nat n).
Proof. apply digits_fuel_digits. constructor. Qed.

Lemma digit_plain (c : ascii) :
  is_digit c = true ->
  is_char " " c = false /\ is_char ":" c = false /\ is_char "#" c = false.
Proof.
  destruct c as [[] [] [] [] [] [] [] []]; intros H; try discriminate H;
    repeat split; reflexivity.
Qed.

(** ** The two passes copy what they cannot match *)

Lemma colon_pass_plain (A B : str) :
  Forall (fun c => is_char ":" c = false) A ->
  gsub re_colon_digits (fun _ => []) (A ++ B)
  = A ++ gsub re_colon_digits (fun _ => []) B.
Proof.
  intros H. apply gsub_skip_prefix. intros A1 A2 -> Hne.
  apply Forall_app in H as [_ H]. destruct A2 as [|c t]; [contradiction|].
  apply Forall_inv in H. unfold re_colon_digits, lit_then.
  change (L ":") with [":"%char]. cbn [app starts_with].
  unfold is_char in H. now rewrite H.
Qed.

Lemma hash_pass_plain (A B : str) :
  Forall (fun c => is_char "#" c = false) A ->
  gsub re_hash_id (fun _ => []) (A ++ B) = A ++ gsub re_hash_id (fun _ => []) B.
Proof.
  intros H. apply gsub_skip_prefix. intros A1 A2 -> Hne.
  apply Forall_app in H as [_ H]. destruct A2 as [|c t]; [contradiction|].
  apply Forall_inv in H. unfold re_hash_id, lit_then.
  change (L "#") with ["#"%char]. cbn [app starts_with].
  unfold is_char in H. now rewrite H.
Qed.

Lemma colon_pass_nth (B : str) :
  gsub re_colon_digits (fun _ => []) (L ":nth-of-type(" ++ B)
  = L ":nth-of-type(" ++ gsub re_colon_digits (fun _ => []) B.
Proof.
  change (L ":nth-of-type(" ++ B) with (":"%char :: L "nth-of-type(" ++ B).
  rewrite gsub_nomatch by reflexivity.
  rewrite colon_pass_plain by (repeat constructor). reflexivity.
Qed.

(** An id that ends the string or stands before the separator is removed. *)
Lemma hash_pass_id (i B : str) :
  i <> [] -> Forall (fun c => simple c = true) i ->
  (B = [] \/ exists t, B = " "%char :: t) ->
  gsub re_hash_id (fun _ => []) (L "#" ++ i ++ B) = gsub re_hash_id (fun _ => []) B.
Proof.
  intros Hne Hi HB.
  rewrite app_assoc.
  rewrite (gsub_match_prefix re_hash_id (fun _ => []) (L "#" ++ i) B);
    [reflexivity|discriminate|].
  rewrite <- app_assoc. apply lit_then_iff. exists (i ++ B), (length i).
  split; [reflexivity|]. split; [|rewrite length_app; reflexivity].
  rewrite plus_then_hit; auto.
  - simpl. now rewrite Nat.add_0_r.
  - eapply Forall_impl; [|exact Hi]. intros c Hc. now apply simple_char in Hc.
  - destruct HB as [->|(t & ->)]; reflexivity.
Qed.

Lemma index_where_none (f : ascii -> bool) (s : str) :
  Forall (fun c => f c = false) s -> index_where f s = None.
Proof.
  induction 1 as [|c s Hc _ IH]; [reflexivity|]. simpl. now rewrite Hc, IH.
Qed.

(** ** One selector *)

Lemma simple_no (name : str) :
  Forall (fun c => simple c = true) name ->
  Forall (fun c => is_char " " c = false) name /\
  Forall (fun c => is_char ":" c = false) name /\
  Forall (fun c => is_char "#" c = false) name.
Proof.
  intros H. repeat split; (eapply Forall_impl; [|exact H]);
    intros c Hc; now apply simple_char in Hc.
Qed.

Lemma digits_no (n : nat) :
  Forall (fun c => is_char " " c = false) (of_nat n) /\
  Forall (fun c => is_char ":" c = false) (of_nat n) /\
  Forall (fun c => is_char "#" c = false) (of_nat n).
Proof.
  repeat split; (eapply Forall_impl; [|apply (of_nat_digits n)]);
    intros c Hc; now apply digit_plain in Hc.
Qed.

Lemma colon_pass_selector (s B : str) :
  selector_shape s ->
  gsub re_colon_digits (fun _ => []) (s ++ B)
  = s ++ gsub re_colon_digits (fun _ => []) B.
Proof.
  intros (name & tail & -> & _ & Hname & Htail).
  destruct (simple_no _ Hname) as (_ & Hc & _).
  rewrite <- !app_assoc. rewrite (colon_pass_plain name) by exact Hc. f_equal.
  destruct Htail as [->|[(i & _ & Hi & ->)|(n & ->)]].
  - reflexivity.
  - destruct (simple_no _ Hi) as (_ & Hci & _).
    apply colon_pass_plain. apply Forall_app. split; [repeat constructor|exact Hci].
  - rewrite <- !app_assoc. rewrite colon_pass_nth. f_equal.
    rewrite app_assoc, colon_pass_plain; [now rewrite <- app_assoc|].
    apply Forall_app. split; [apply digits_no|repeat constructor].
Qed.

Lemma before_hash_selector (s : str) :
  selector_shape s ->
  exists name rest,
    s = name ++ rest /\ before_hash s = name ++
        match rest with "#"%char :: _ => [] | _ => rest end /\
    Forall (fun c => is_char "#" c = false) name /\
    (rest = [] \/
     (exists i, i <> [] /\ Forall (fun c => simple c = true) i /\ rest = L "#" ++ i) \/
     Forall (fun c => is_char "#" c = false) rest) /\
    Forall (fun c => is_char " " c = false) (before_hash s).
Proof.
  intros (name & tail & -> & _ & Hname & Htail).
  destruct (simple_no _ Hname) as (Hs & _ & Hh).
  exists name, tail. split; [reflexivity|].
  destruct Htail as [->|[(i & Hne & Hi & ->)|(n & ->)]].
  - assert (E : before_hash (name ++ []) = name ++ []).
    { unfold before_hash. rewrite app_nil_r, index_where_none by exact Hh.
      reflexivity. }
    rewrite E, app_nil_r. repeat split; auto.
  - assert (E : before_hash (name ++ L "#" ++ i) = name).
    { unfold before_hash. change (L "#" ++ i) with ("#"%char :: i).
      rewrite index_where_app_hit by (auto; reflexivity).
      now rewrite firstn_app, Nat.sub_diag, firstn_all, app_nil_r. }
    rewrite E. change (L "#" ++ i) with ("#"%char :: i). rewrite app_nil_r.
    repeat split; auto. right. left. exists i. auto.
  - assert (Ht : Forall (fun c => is_char "#" c = false)
                        (L ":nth-of-type(" ++ of_nat n ++ L ")")).
    { apply Forall_app. split; [repeat constructor|].
      apply Forall_app. split; [apply digits_no|repeat constructor]. }
    assert (Ht' : Forall (fun c => is_char " " c = false)
                        (L ":nth-of-type(" ++ of_nat n ++ L ")")).
    { apply Forall_app. split; [repeat constructor|].
      apply Forall_app. split; [apply digits_no|repeat constructor]. }
    assert (E : before_hash (name ++ L ":nth-of-type(" ++ of_nat n ++ L ")")
                = name ++ L ":nth-of-type(" ++ of_nat n ++ L ")").
    { unfold before_hash. rewrite index_where_none; [reflexivity|].
      apply Forall_app. auto. }
    rewrite E. repeat split; auto. apply Forall_app. auto.
Qed.

Lemma hash_pass_selector (s B : str) :
  selector_shape s -> (B = [] \/ exists t, B = " "%char :: t) ->
  gsub re_hash_id (fun _ => []) (s ++ B)
  = before_hash s ++ gsub re_hash_id (fun _ => []) B.
Proof.
  intros Hs HB.
  destruct (before_hash_selector s Hs) as (name & rest & -> & E & Hn & Hrest & _).
  rewrite E. rewrite <- !app_assoc. rewrite (hash_pass_plain name) by exact Hn.
  f_equal. destruct Hrest as [->|[(i & Hne & Hi & ->)|Hr]].
  - reflexivity.
  - change (L "#" ++ i) with ("#"%char :: i). cbn [app].
    apply (hash_pass_id i B Hne Hi HB).
  - rewrite (hash_pass_plain rest) by exact Hr.
    destruct rest as [|c r]; [reflexivity|].
    apply Forall_inv in Hr. destruct c as [[] [] [] [] [] [] [] []];
      try reflexivity; discriminate Hr.
Qed.

(** ** The whole path *)

Lemma join_cons (sep x y : str) (l : list str) :
  join sep (x :: y :: l) = x ++ sep ++ join sep (y :: l).
Proof. reflexivity. Qed.

Lemma colon_pass_path (segs : list str) :
  Forall selector_shape segs ->
  gsub re_colon_digits (fun _ => []) (join (L " > ") segs) = join (L " > ") segs.
Proof.
  induction 1 as [|x l Hx Hl IH]; [reflexivity|].
  destruct l as [|y l].
  - cbn [join]. rewrite <- (app_nil_r x) at 1.
    rewrite colon_pass_selector by exact Hx. cbn. apply app_nil_r.
  - rewrite join_cons. rewrite colon_pass_selector by exact Hx. f_equal.
    rewrite colon_pass_plain by (repeat constructor). now rewrite IH.
Qed.

Lemma hash_pass_path (segs : list str) :
  Forall selector_shape segs ->
  gsub re_hash_id (fun _ => []) (join (L " > ") segs)
  = join (L " > ") (map before_hash segs).
Proof.
  induction 1 as [|x l Hx Hl IH]; [reflexivity|].
  destruct l as [|y l].
  - cbn [join map]. rewrite <- (app_nil_r x) at 1.
    rewrite hash_pass_selector; [cbn; apply app_nil_r|exact Hx|now left].
  - rewrite join_cons. cbn [map]. rewrite join_cons.
    rewrite hash_pass_selector; [|exact Hx|right; eexists; reflexivity].
    f_equal. rewrite hash_pass_plain by (repeat constructor). f_equal. exact IH.
Qed.

Lemma split_from_piece (x cur rest : str) :
  Forall (fun c => is_char " " c = false) x ->
  split_from (L " > ") 0 cur (x ++ rest)
  = split_from (L " > ") 0 (rev x ++ cur) rest.
Proof.
  intros H. revert cur. induction H as [|c x Hc _ IH]; intros cur; [reflexivity|].
  cbn [app split_from]. assert (E : starts_with (L " > ") (c :: x ++ rest) = false).
  { unfold is_char in Hc. change (L " > ") with (" "%char :: L "> ").
    cbn [starts_with]. now rewrite Hc. }
  rewrite E, IH. cbn [rev]. now rewrite <- app_assoc.
Qed.

Lemma split_join_path (segs : list str) (cur : str) (x : str) :
  Forall (fun s => Forall (fun c => is_char " " c = false) s) (x :: segs) ->
  split_from (L " > ") 0 cur (join (L " > ") (x :: segs))
  = (rev cur ++ x) :: segs.
Proof.
  revert cur x. induction segs as [|y l IH]; intros cur x H.
  - cbn [join]. rewrite <- (app_nil_r x) at 1.
    rewrite split_from_piece by (now apply Forall_inv in H).
    cbn [split_from]. now rewrite rev_app_distr, rev_involutive.
  - rewrite join_cons. rewrite split_from_piece by (now apply Forall_inv in H).
    change (L " > " ++ join (L " > ") (y :: l))
      with (" "%char :: ">"%char :: " "%char :: join (L " > ") (y :: l)).
    cbn. rewrite rev_app_distr, rev_involutive. f_equal.
    apply Forall_inv_tail in H. apply (IH [] y H).
Qed.

Lemma walk_shape (chain : list DomElement) (path : list str) :
  Forall simple_element chain -> Forall selector_shape path ->
  Forall selector_shape (walk chain path).
Proof.
  intros H. revert path. induction H as [|el chain (Hne & Hname & Hid) _ IH];
    intros path Hp; [exact Hp|].
  assert (Hl : Forall (fun c => simple c = true) (toLowerCase (nodeName el))).
  { unfold toLowerCase. apply Forall_map. eapply Forall_impl; [|exact Hname].
    intros c Hc. now rewrite simple_lower. }
  assert (Hn : toLowerCase (nodeName el) <> []).
  { unfold toLowerCase. destruct (nodeName el); [contradiction|discriminate]. }
  cbn [walk]. destruct (id el) as [|c i] eqn:Ei.
  - apply IH. constructor; [|exact Hp]. unfold positional.
    destruct (1 <? nth_of_type el).
    + exists (toLowerCase (nodeName el)), (L ":nth-of-type(" ++ of_nat (nth_of_type el) ++ L ")").
      repeat split; auto. right. right. eexists. reflexivity.
    + exists (toLowerCase (nodeName el)), []. rewrite app_nil_r. repeat split; auto.
  - constructor; [|exact Hp].
    exists (toLowerCase (nodeName el)), (L "#" ++ c :: i).
    repeat split; auto. right. left. exists (c :: i).
    repeat split; auto. discriminate.
Qed.

Lemma walk_nonempty (chain : list DomElement) (path : list str) :
  chain <> [] \/ path <> [] -> walk chain path <> [].
Proof.
  revert path. induction chain as [|el chain IH]; intros path [H|H];
    try contradiction; try exact H; cbn [walk];
    destruct (id el); try discriminate; apply IH; right; discriminate.
Qed.

Lemma pattern_of_path (segs : list str) :
  Forall selector_shape segs ->
  selectorPattern (join (L " > ") segs)
  = join (L " > ") (slice_last 3 (map before_hash segs)).
Proof.
  intros H. unfold selectorPattern.
  rewrite colon_pass_path, hash_pass_path by exact H.
  destruct segs as [|x l]; [reflexivity|].
  cbn [map]. unfold split. rewrite split_join_path; [reflexivity|].
  change (before_hash x :: map before_hash l) with (map before_hash (x :: l)).
  apply Forall_map. eapply Forall_impl; [|exact H].
  intros s Hs. now destruct (before_hash_selector s Hs) as (? & ? & _ & _ & _ & _ & Hsp).
Qed.

End PathFacts.

Module PathClaims.
Import Str Grouper CssPath PathFacts.

(** The pattern that [createViolationSignature] derives from a selector made
    by [getCSSPath]: for node names and ids of letters, digits, underscores and
    dashes, it is the last three selectors of the path, the one with the id
    reduced to its node name and the positions [:nth-of-type(n)] kept. *)
Theorem selectorPattern_of_css_path (chain : list DomElement) :
  Forall simple_element chain ->
  selectorPattern (getCSSPath chain)
  = join (L " > ") (slice_last 3 (map before_hash (walk chain []))).
Proof.
  intros H. unfold getCSSPath. apply pattern_of_path.
  apply walk_shape; [exact H|constructor].
Qed.

Lemma selectorPattern_of_css_path_witness :
  Forall simple_element sample_chain /\
  selectorPattern (getCSSPath sample_chain)
  = join (L " > ") (slice_last 3 (map before_hash (walk sample_chain []))).
Proof.
  assert (H : Forall simple_element sample_chain).
  { repeat constructor; discriminate. }
  split; [exact H|]. apply (selectorPattern_of_css_path sample_chain H).
Defined.

End PathClaims.
